(** * Safe wallet monitor: aggregation and formatting pipeline

    A shallow embedding of the safe-wallet-monitor package
    (index.ts, safe-api.ts, notifications.ts, types.ts) and the
    properties its specification states about it.

    Conventions of the embedding.
    - A JavaScript string is a [string]: a sequence of bytes.  Case
      mapping acts on the ASCII letters, the only cased characters of
      addresses and chain names.
    - The numeric fields of the records are counts; they are embedded as
      [N].  The one place where the code leaves the integers,
      [required * 0.7], is embedded as the IEEE-754 binary64 product
      with round-to-nearest-even, see [Js.mul_0_7].
    - An optional field is an [option]; [null] and [undefined] are both
      [None].
    - Network requests and notification deliveries are steps of a state
      monad over an abstract world, which also records the trace of
      effects. *)

From Stdlib Require Import ZArith NArith QArith Qround List String Ascii Bool Lia
  DecimalString Permutation.
Import ListNotations.

Local Open Scope list_scope.
Local Open Scope string_scope.

(** ** JavaScript primitives *)

Module Js.

Definition lower_ascii (c : ascii) : ascii :=
  let n := nat_of_ascii c in
  if (65 <=? n)%nat && (n <=? 90)%nat then ascii_of_nat (n + 32) else c.

Definition upper_ascii (c : ascii) : ascii :=
  let n := nat_of_ascii c in
  if (97 <=? n)%nat && (n <=? 122)%nat then ascii_of_nat (n - 32) else c.

Fixpoint map_string (f : ascii -> ascii) (s : string) : string :=
  match s with
  | EmptyString => EmptyString
  | String c s' => String (f c) (map_string f s')
  end.

(** [String.prototype.toLowerCase] and [toUpperCase]. *)
Definition toLowerCase : string -> string := map_string lower_ascii.
Definition toUpperCase : string -> string := map_string upper_ascii.

(** [Array.prototype.includes] on an array of strings. *)
Fixpoint includes (l : list string) (x : string) : bool :=
  match l with
  | [] => false
  | y :: l' => String.eqb y x || includes l' x
  end.

(** [Array.prototype.join]. *)
Fixpoint join (sep : string) (l : list string) : string :=
  match l with
  | [] => ""
  | [x] => x
  | x :: l' => x ++ sep ++ join sep l'
  end.

(** [Array.prototype.find]. *)
Fixpoint find {A} (p : A -> bool) (l : list A) : option A :=
  match l with
  | [] => None
  | x :: l' => if p x then Some x else find p l'
  end.

(** [s.slice(0, n)] and [s.slice(-n)] for [n <= s.length]. *)
Definition slice_front (n : nat) (s : string) : string := substring 0 n s.
Definition slice_back (n : nat) (s : string) : string :=
  substring (String.length s - n) n s.

(** A count inside a template literal: its decimal digits. *)
Definition show (n : N) : string := NilZero.string_of_uint (N.to_uint n).

(** Truthiness of an optional boolean and of a string. *)
Definition truthy (b : option bool) : bool :=
  match b with Some true => true | _ => false end.

Definition nonEmpty (s : string) : bool :=
  match s with EmptyString => false | _ => true end.

(** *** binary64 arithmetic

    A finite double is a dyadic rational [mant * 2 ^ expo].  The literal
    [0.7] denotes the double [6305039478318694 * 2 ^ -53]. *)

Record dyadic := Dyadic { mant : Z; expo : Z }.

Definition significand_0_7 : Z := 6305039478318694.

(** Rounding of the non-negative real [p * 2 ^ e] to 53 significant
    bits, to nearest, ties to even. *)
Definition round53 (p e : Z) : dyadic :=
  let b := Z.log2 p in
  if (b <=? 52)%Z then Dyadic p e
  else
    let s := (b - 52)%Z in
    let q := (p / 2 ^ s)%Z in
    let r := (p mod 2 ^ s)%Z in
    let half := (2 ^ (s - 1))%Z in
    let up := (half <? r)%Z || ((r =? half)%Z && Z.odd q) in
    Dyadic (if up then q + 1 else q)%Z (e + s)%Z.

(** [n * 0.7] for a count [n]. *)
Definition mul_0_7 (n : N) : dyadic :=
  round53 (Z.of_N n * significand_0_7) (-53).

(** [Math.ceil]. *)
Definition Math_ceil (d : dyadic) : Z :=
  if (0 <=? expo d)%Z then (mant d * 2 ^ expo d)%Z
  else (- ((- mant d) / 2 ^ (- expo d)))%Z.

End Js.

(** ** Shared types (common-types) and the package's own types (types.ts) *)

Inductive ChainName :=
  mainnet | arbitrum | optimism | polygon | gnosis | base | avalanche | zkevm.

(** The string a chain name is at run time. *)
Definition chainString (c : ChainName) : string :=
  match c with
  | mainnet => "mainnet" | arbitrum => "arbitrum" | optimism => "optimism"
  | polygon => "polygon" | gnosis => "gnosis" | base => "base"
  | avalanche => "avalanche" | zkevm => "zkevm"
  end.

Definition chainIds (c : ChainName) : N :=
  match c with
  | mainnet => 1 | arbitrum => 42161 | optimism => 10 | polygon => 137
  | gnosis => 100 | base => 8453 | avalanche => 43114 | zkevm => 1101
  end%N.

Definition ChainName_eqb (a b : ChainName) : bool :=
  (chainIds a =? chainIds b)%N.

Inductive ParseMode := HTML | Markdown | MarkdownV2.

Definition parseModeString (p : ParseMode) : string :=
  match p with HTML => "HTML" | Markdown => "Markdown" | MarkdownV2 => "MarkdownV2" end.

(** [NotificationConfig]: a union tagged by [type]. *)
Inductive NotificationConfig :=
| ConsoleNotificationConfig (enabled : bool) (colored : option bool)
| TelegramNotificationConfig (enabled : bool) (botToken chatId : string)
    (disableNotification : option bool) (parseMode : option ParseMode)
| WebhookNotificationConfig (enabled : bool) (url : string)
    (headers : option (list (string * string))).

Definition enabled (c : NotificationConfig) : bool :=
  match c with
  | ConsoleNotificationConfig e _ => e
  | TelegramNotificationConfig e _ _ _ _ => e
  | WebhookNotificationConfig e _ _ => e
  end.

Inductive Error :=
| PlainError (message : string)
| RangeError
| SafeApiError (message : string)
| NotificationError (message : string).

(** The result of a call that may throw. *)
Inductive outcome (A : Type) :=
| Returned (a : A)
| Thrown (e : Error).
Arguments Returned {A} a.
Arguments Thrown {A} e.

Record SafeAddress := { address : string; chain : ChainName }.

Inductive ClientType := TRANSACTION | LABEL.

Record MissingSigner :=
  { value : string; name : option string; logoUri : option string }.

Record ExecutionInfo :=
  { exec_nonce : N;
    exec_confirmationsRequired : N;
    confirmationsSubmitted : N;
    exec_missingSigners : list MissingSigner }.

(** The [transaction] member of a [SafeClientTransaction]; [txInfo] is
    never read and is left out. *)
Record ClientTransactionBody :=
  { tx_id : string;
    timestamp : N;
    txStatus : string;
    executionInfo : ExecutionInfo;
    txHash : option string }.

Record SafeClientTransaction :=
  { type : ClientType;
    transaction : option ClientTransactionBody;
    conflictType : string }.

Record SafeClientApiResponse :=
  { count : N;
    next : option string;
    previous : option string;
    results : list SafeClientTransaction }.

(** A confirmation object as [convertToEnhancedFormat] builds it;
    [submissionDate] stands for the ISO-8601 text of the time stamp. *)
Record Confirmation :=
  { owner : string;
    submissionDate : N;
    signature : string;
    signatureType : string }.

Record QueuedSafeTransaction :=
  { nonce : N;
    signedCount : N;
    confirmationsRequired : N;
    confirmations : list Confirmation;
    missingSigners : option (list string);
    id : string;
    note : option string;
    safe : string }.

(** Of [SafeTransactionDetails] only [note] is read. *)
Record SafeTransactionDetails := { details_note : string }.

(** The body of the answer to the safe-information request. *)
Record SafeServiceResponse :=
  { data_owners : option (list string); data_threshold : option N }.

Record SafeInfo := { owners : list string; threshold : N }.

Record QueuedTransactionData :=
  { qd_chain : ChainName;
    qd_address : string;
    transactions : list QueuedSafeTransaction;
    safeInfo : option SafeInfo;
    safeUrl : string }.

Record FormatOptions :=
  { showConfirmedSigner : option bool;
    showPendingSigner : option bool;
    showStatusIcon : option bool;
    showChainIcon : option bool;
    showTxNote : option bool }.

Record SignerInfo := { signer_address : string; handle : string }.

Record SafeWalletMonitorConfig :=
  { safes : list SafeAddress;
    signers : list SignerInfo;
    formatOptions : FormatOptions;
    notifications : list NotificationConfig;
    debug : option bool }.

(** [Record<string, number>]: the own properties in insertion order,
    which is the order of [Object.entries] for keys such as addresses
    (no key is an array index).  Properties inherited from
    [Object.prototype] are not modelled. *)
Definition Summary := list (string * N).

Record SafeWalletMonitorResult :=
  { totalTransactions : nat;
    messages : list string;
    signerSummary : Summary;
    rawData : list QueuedTransactionData }.

(** ** Effects: the network, the console and the trace of what was done *)

(** What a POST request carries (the webhook's [timestamp] field is the
    wall-clock time and belongs to the world). *)
Inductive Payload :=
| TelegramMessage (chat_id text : string) (disable_notification : bool)
    (parse_mode : string)
| WebhookMessage (text : string) (headers : list (string * string)).

(** The trace: the requests sent, the lines written by a console
    channel, and a mark for each call of [sendNotifications].  The
    diagnostic lines of [debug] mode and of [console.error] are not
    recorded. *)
Inductive Event :=
| Get (url : string)
| Post (url : string) (body : Payload)
| Log (text : string)
| Dispatch (configs : list NotificationConfig) (message : string).

(** The answers of the outside world; [None] and [false] are a failed
    request (the promise rejects). *)
Record Net (W : Type) :=
  { get_safe : string -> W -> option SafeServiceResponse * W;
    get_queued : string -> W -> option SafeClientApiResponse * W;
    get_details : string -> W -> option SafeTransactionDetails * W;
    post : string -> Payload -> W -> bool * W }.
Arguments get_safe {W} _ _ _.
Arguments get_queued {W} _ _ _.
Arguments get_details {W} _ _ _.
Arguments post {W} _ _ _ _.

Definition M (W A : Type) : Type := W * list Event -> A * (W * list Event).

Definition ret {W A} (a : A) : M W A := fun s => (a, s).

Definition bind {W A B} (c : M W A) (k : A -> M W B) : M W B :=
  fun s => let (a, s') := c s in k a s'.

Notation "x <- c ;; k" := (bind c (fun x => k))
  (at level 61, c at next level, right associativity).
Notation "c ;;; k" := (bind c (fun _ => k))
  (at level 61, right associativity).

Definition emit {W} (e : Event) : M W unit :=
  fun s => (tt, (fst s, (snd s ++ [e])%list)).

(** A request: the world answers and moves on, the trace grows. *)
Definition request {W A} (f : W -> A * W) (e : Event) : M W A :=
  fun s => let (a, w') := f (fst s) in (a, (w', (snd s ++ [e])%list)).

(** A loop that threads an accumulator, [for (const x of l) { ... }]. *)
Fixpoint forEach {W A B} (f : B -> A -> M W B) (l : list A) (b : B) : M W B :=
  match l with
  | [] => ret b
  | x :: l' => b' <- f b x ;; forEach f l' b'
  end.

Definition nl : string := String (ascii_of_nat 10) "".
Definition esc : string := String (ascii_of_nat 27) "".

(** ** safe-api.ts *)

Definition SAFE_API_URLS (c : ChainName) : string :=
  match c with
  | mainnet => "https://safe-transaction-mainnet.safe.global"
  | arbitrum => "https://safe-transaction-arbitrum.safe.global"
  | optimism => "https://safe-transaction-optimism.safe.global"
  | polygon => "https://safe-transaction-polygon.safe.global"
  | gnosis => "https://safe-transaction-gnosis-chain.safe.global"
  | base => "https://safe-transaction-base.safe.global"
  | avalanche => "https://safe-transaction-avalanche.safe.global"
  | zkevm => "https://safe-transaction-zkevm.safe.global"
  end.

Definition compareAddresses (address1 address2 : string) : bool :=
  String.eqb (Js.toLowerCase address1) (Js.toLowerCase address2).

Definition shortenAddress (address : string) : string :=
  if (String.length address <? 10)%nat then address
  else Js.slice_front 6 address ++ "..." ++ Js.slice_back 4 address.

(** The largest time value a [Date] holds; beyond it [toISOString]
    throws. *)
Definition maxTimeValue : N := 8640000000000000.

(** [Array.from({ length: n }, (_, i) => f i)] for [n] below [2 ^ 32]. *)
Definition Array_from {A} (n : N) (f : N -> A) : list A :=
  map (fun i => f (N.of_nat i)) (seq 0 (N.to_nat n)).

Definition convertToEnhancedFormat (clientTx : SafeClientTransaction)
    (safeAddress : string) : outcome (option QueuedSafeTransaction) :=
  match type clientTx, transaction clientTx with
  | TRANSACTION, Some tx =>
      let executionInfo := executionInfo tx in
      let missingSigners := map value (exec_missingSigners executionInfo) in
      let submitted := confirmationsSubmitted executionInfo in
      if (2 ^ 32 <=? submitted)%N then Thrown RangeError
      else if (0 <? submitted)%N && (maxTimeValue <? timestamp tx)%N
      then Thrown RangeError
      else
        let confirmations :=
          Array_from submitted (fun i =>
            {| owner := "signed_" ++ Js.show i;
               submissionDate := timestamp tx;
               signature := "";
               signatureType := "ETH_SIGN" |}) in
        Returned (Some
          {| nonce := exec_nonce executionInfo;
             confirmations := confirmations;
             confirmationsRequired := exec_confirmationsRequired executionInfo;
             id := tx_id tx;
             safe := safeAddress;
             missingSigners := Some missingSigners;
             signedCount := submitted;
             note := None |})
  | _, _ => Returned None
  end.

(** [items.map(f)] where [f] may throw: the first exception ends it. *)
Fixpoint mapOutcome {A B} (f : A -> outcome B) (l : list A) : outcome (list B) :=
  match l with
  | [] => Returned []
  | x :: l' =>
      match f x with
      | Thrown e => Thrown e
      | Returned y =>
          match mapOutcome f l' with
          | Thrown e => Thrown e
          | Returned ys => Returned (y :: ys)
          end
      end
  end.

(** [.filter(tx => tx !== null)]. *)
Fixpoint dropNull {A} (l : list (option A)) : list A :=
  match l with
  | [] => []
  | Some x :: l' => x :: dropNull l'
  | None :: l' => dropNull l'
  end.

Definition isTransaction (item : SafeClientTransaction) : bool :=
  match type item with TRANSACTION => true | LABEL => false end.

Definition generateSafeUrl (safeAddress : string) (chain : ChainName) : string :=
  let chainPrefix :=
    if ChainName_eqb chain mainnet then "eth" else chainString chain in
  "https://app.safe.global/home?safe=" ++ chainPrefix ++ ":" ++ safeAddress.

(** The three request URLs. *)
Definition safeInfoUrl (safeAddress : string) (chain : ChainName) : string :=
  SAFE_API_URLS chain ++ "/api/v1/safes/" ++ safeAddress ++ "/".

Definition queuedUrl (safeAddress : string) (chain : ChainName) : string :=
  "https://safe-client.safe.global/v1/chains/" ++ Js.show (chainIds chain)
  ++ "/safes/" ++ safeAddress ++ "/transactions/queued".

Definition detailsUrl (transactionId : string) (chain : ChainName) : string :=
  "https://safe-client.safe.global/v1/chains/" ++ Js.show (chainIds chain)
  ++ "/transactions/" ++ transactionId.

(** What [fetchQueuedTransactions] makes of an answer: filter, convert,
    drop the nulls; an exception on the way is caught and gives [[]]. *)
Definition convertResults (data : SafeClientApiResponse) (safeAddress : string)
  : list QueuedSafeTransaction :=
  match mapOutcome (fun item => convertToEnhancedFormat item safeAddress)
          (filter isTransaction (results data)) with
  | Returned converted => dropNull converted
  | Thrown _ => []
  end.

Section Requests.

Context {W : Type} (net : Net W).

Definition fetchSafeInfo (safeAddress : string) (chain : ChainName)
  : M W (option SafeInfo) :=
  let url := safeInfoUrl safeAddress chain in
  response <- request (get_safe net url) (Get url) ;;
  match response with
  | Some data =>
      ret (Some
        {| owners := match data_owners data with Some l => l | None => [] end;
           threshold := match data_threshold data with
                        | Some 0%N | None => 1%N
                        | Some t => t
                        end |})
  | None => ret None
  end.

Definition fetchQueuedTransactions (safeAddress : string) (chain : ChainName)
  : M W (list QueuedSafeTransaction) :=
  let url := queuedUrl safeAddress chain in
  response <- request (get_queued net url) (Get url) ;;
  match response with
  | Some data => ret (convertResults data safeAddress)
  | None => ret []
  end.

(** The answer is [{ note }] or [null]; [note] is absent when the
    service sends an empty one. *)
Definition fetchTransactionDetails (transactionId : string) (chain : ChainName)
  : M W (option (option string)) :=
  let url := detailsUrl transactionId chain in
  response <- request (get_details net url) (Get url) ;;
  match response with
  | Some data =>
      ret (Some (if Js.nonEmpty (details_note data)
                 then Some (details_note data) else None))
  | None => ret None
  end.

(** ** notifications.ts *)

(** [message.replace(/pat/g, rep)] for a literal, non-empty [pat]. *)
Fixpoint replaceAll (skip : nat) (pat rep s : string) : string :=
  match s with
  | EmptyString => EmptyString
  | String c s' =>
      match skip with
      | S k => replaceAll k pat rep s'
      | O =>
          if prefix pat s
          then rep ++ replaceAll (String.length pat - 1) pat rep s'
          else String c (replaceAll 0 pat rep s')
      end
  end.

Definition paint (code icon : string) (s : string) : string :=
  replaceAll 0 icon (esc ++ "[" ++ code ++ "m" ++ icon ++ esc ++ "[0m") s.

Definition coloredMessage (message : string) : string :=
  paint "36" "⏳"
    (paint "32" "✔️"
      (paint "33" "⚠️"
        (paint "32" "🏅" message))).

Definition sendConsoleNotification (enabled : bool) (colored : option bool)
    (message : string) : M W (outcome unit) :=
  if negb enabled then ret (Returned tt)
  else
    match colored with
    | Some false => emit (Log message) ;;; ret (Returned tt)
    | _ => emit (Log (coloredMessage message)) ;;; ret (Returned tt)
    end.

Definition sendTelegramNotification (enabled : bool) (botToken chatId : string)
    (disableNotification : option bool) (parseMode : option ParseMode)
    (message : string) : M W (outcome unit) :=
  if negb enabled then ret (Returned tt)
  else if negb (Js.nonEmpty botToken)
  then ret (Thrown (NotificationError "Telegram bot token is required"))
  else if negb (Js.nonEmpty chatId)
  then ret (Thrown (NotificationError "Telegram chat ID is required"))
  else
    let url := "https://api.telegram.org/bot" ++ botToken ++ "/sendMessage" in
    let requestData :=
      TelegramMessage chatId message
        (match disableNotification with Some false => false | _ => true end)
        (match parseMode with Some p => parseModeString p | None => "HTML" end) in
    ok <- request (post net url requestData) (Post url requestData) ;;
    if ok then ret (Returned tt)
    else ret (Thrown (NotificationError "Failed to send Telegram notification")).

(** [{ ...o, k: v }] on the own properties of an object. *)
Fixpoint setProperty {A} (k : string) (v : A) (o : list (string * A))
  : list (string * A) :=
  match o with
  | [] => [(k, v)]
  | (k', v') :: o' =>
      if String.eqb k' k then (k, v) :: o' else (k', v') :: setProperty k v o'
  end.

Definition sendWebhookNotification (enabled : bool) (url : string)
    (headers : option (list (string * string))) (message : string)
  : M W (outcome unit) :=
  if negb enabled then ret (Returned tt)
  else
    let allHeaders :=
      fold_left (fun o kv => setProperty (fst kv) (snd kv) o)
        (match headers with Some h => h | None => [] end)
        [("Content-Type", "application/json")] in
    let requestData := WebhookMessage message allHeaders in
    ok <- request (post net url requestData) (Post url requestData) ;;
    if ok then ret (Returned tt)
    else ret (Thrown (NotificationError "Failed to send webhook notification")).

Definition sendOne (config : NotificationConfig) (message : string)
  : M W (outcome unit) :=
  match config with
  | ConsoleNotificationConfig e colored =>
      sendConsoleNotification e colored message
  | TelegramNotificationConfig e botToken chatId disableNotification parseMode =>
      sendTelegramNotification e botToken chatId disableNotification parseMode
        message
  | WebhookNotificationConfig e url headers =>
      sendWebhookNotification e url headers message
  end.

(** The call itself is recorded in the trace as [Dispatch]; the
    failures of the channels are collected and only reported. *)
Definition sendNotifications (configs : list NotificationConfig)
    (message : string) : M W (list Error) :=
  emit (Dispatch configs message) ;;;
  forEach (fun errors config =>
             r <- sendOne config message ;;
             match r with
             | Returned _ => ret errors
             | Thrown e => ret (errors ++ [e])%list
             end) configs [].

End Requests.

(** ** index.ts *)

Definition getSignerHandle (address : string) (signers : list SignerInfo)
    (prefix : option string) : string :=
  match Js.find (fun s => compareAddresses (signer_address s) address) signers with
  | Some signer =>
      (match prefix with Some p => p | None => "" end) ++ handle signer
  | None => shortenAddress address
  end.

Definition iconReady : string := "üèÖ".
Definition iconPartial : string := "üìù".
Definition iconAttention : string := "‚ö†Ô∏è".

Definition iconUnknown : string := "‚ùì".
Definition iconNote : string := "üìù".
Definition iconSigned : string := "‚úîÔ∏è ".
Definition iconPending : string := "‚è≥".
Definition iconLink : string := "üîó".
Definition bullet : string := "‚Ä¢".

Definition getStatusIcon (confirmed required : N) : string :=
  if (required <=? confirmed)%N then iconReady
  else if (Js.Math_ceil (Js.mul_0_7 required) <=? Z.of_N confirmed)%Z
  then iconPartial
  else iconAttention.

Definition chainIcons (chain : ChainName) : string :=
  match chain with
  | mainnet => "‚ö´"
  | arbitrum => "üîµ"
  | optimism => "üî¥"
  | polygon => "üü£"
  | gnosis => "üü¢"
  | base => "‚ö™"
  | avalanche => "üî∫"
  | zkevm => "üü™"
  end.

Definition getChainIcon (chain : ChainName) : string :=
  if Js.nonEmpty (chainIcons chain) then chainIcons chain else iconUnknown.

(** [transaction.missingSigners && transaction.missingSigners.length > 0]. *)
Definition hasMissingSigners (transaction : QueuedSafeTransaction) : bool :=
  match missingSigners transaction with
  | Some l => (0 <? List.length l)%nat
  | None => false
  end.

(** The signed and the unsigned owners of a transaction, as
    [formatTransactionMessage] computes them: [(signed, notSigned)]. *)
Definition signerSets (transaction : QueuedSafeTransaction)
    (safeOwners : list string) : list string * list string :=
  if hasMissingSigners transaction then
    let missing :=
      match missingSigners transaction with Some l => l | None => [] end in
    let missingSignersLower := map Js.toLowerCase missing in
    (filter (fun owner =>
               negb (Js.includes missingSignersLower (Js.toLowerCase owner)))
       safeOwners,
     missing)
  else
    let signedAddresses :=
      map (fun c => Js.toLowerCase (owner c)) (confirmations transaction) in
    (filter (fun owner => Js.includes signedAddresses (Js.toLowerCase owner))
       safeOwners,
     filter (fun owner =>
               negb (Js.includes signedAddresses (Js.toLowerCase owner)))
       safeOwners).

Definition addSignerLine (signers : list SignerInfo) (signerList : list string)
    (label icon : string) (message : string) : string :=
  if (0 <? List.length signerList)%nat then
    let signerNames :=
      Js.join ", " (map (fun addr => getSignerHandle addr signers None) signerList) in
    message ++ "    " ++ icon ++ " " ++ label ++ ": " ++ signerNames ++ nl
  else message.

Definition headerLine (transaction : QueuedSafeTransaction) (chain : ChainName)
    (options : FormatOptions) : string :=
  let confirmed := signedCount transaction in
  let required := confirmationsRequired transaction in
  let statusIcon :=
    if Js.truthy (showStatusIcon options)
    then getStatusIcon confirmed required else "" in
  let chainIcon :=
    if Js.truthy (showChainIcon options) then getChainIcon chain else "" in
  let chainName := Js.toUpperCase (chainString chain) in
  chainIcon ++ " " ++ chainName ++ " - Tx " ++ Js.show (nonce transaction)
  ++ " " ++ statusIcon ++ " " ++ Js.show confirmed ++ "/" ++ Js.show required
  ++ nl.

Definition noteLine (transaction : QueuedSafeTransaction)
    (options : FormatOptions) : string :=
  match note transaction with
  | Some text =>
      if Js.truthy (showTxNote options) && Js.nonEmpty text
      then "    " ++ iconNote ++ " Note: " ++ text ++ nl
      else ""
  | None => ""
  end.

Definition formatTransactionMessage (transaction : QueuedSafeTransaction)
    (chain : ChainName) (safeOwners : option (list string))
    (signers : list SignerInfo) (options : FormatOptions) : string :=
  let safeOwners := match safeOwners with Some l => l | None => [] end in
  let message := headerLine transaction chain options in
  let message := message ++ noteLine transaction options in
  if (Js.truthy (showConfirmedSigner options)
      || Js.truthy (showPendingSigner options))
     && (0 <? List.length safeOwners)%nat
  then
    let (signed, notSigned) := signerSets transaction safeOwners in
    let message :=
      if Js.truthy (showConfirmedSigner options)
      then addSignerLine signers signed "Signed" iconSigned message
      else message in
    if Js.truthy (showPendingSigner options)
    then addSignerLine signers notSigned "Not Signed" iconPending message
    else message
  else message.

(** [acc[chain].push(address)], creating the entry when it is new. *)
Fixpoint pushAddress (acc : list (ChainName * list string)) (c : ChainName)
    (a : string) : list (ChainName * list string) :=
  match acc with
  | [] => [(c, [a])]
  | (c', l) :: acc' =>
      if ChainName_eqb c' c then (c', (l ++ [a])%list) :: acc'
      else (c', l) :: pushAddress acc' c a
  end.

Definition safesByChain (safes : list SafeAddress)
  : list (ChainName * list string) :=
  fold_left (fun acc safe => pushAddress acc (chain safe) (address safe))
    safes [].

Definition setNote (tx : QueuedSafeTransaction) (text : string)
  : QueuedSafeTransaction :=
  {| nonce := nonce tx;
     signedCount := signedCount tx;
     confirmationsRequired := confirmationsRequired tx;
     confirmations := confirmations tx;
     missingSigners := missingSigners tx;
     id := id tx;
     note := Some text;
     safe := safe tx |}.

Definition setConfirmations (tx : QueuedSafeTransaction)
    (confs : list Confirmation) : QueuedSafeTransaction :=
  {| nonce := nonce tx;
     signedCount := signedCount tx;
     confirmationsRequired := confirmationsRequired tx;
     confirmations := confs;
     missingSigners := missingSigners tx;
     id := id tx;
     note := note tx;
     safe := safe tx |}.

Section Monitor.

Context {W : Type} (net : Net W).

(** The loop that fetches the notes, one transaction after the other. *)
Fixpoint attachNotes (chainKey : ChainName) (txs : list QueuedSafeTransaction)
  : M W (list QueuedSafeTransaction) :=
  match txs with
  | [] => ret []
  | tx :: rest =>
      txDetails <- fetchTransactionDetails net (id tx) chainKey ;;
      let tx' :=
        match txDetails with
        | Some (Some text) => if Js.nonEmpty text then setNote tx text else tx
        | _ => tx
        end in
      rest' <- attachNotes chainKey rest ;;
      ret (tx' :: rest')
  end.

(** The body of the inner loop of [fetchAllQueuedTransactions]: one
    wallet.  The two requests are started in this order. *)
Definition processSafe (options : FormatOptions) (chainKey : ChainName)
    (results : list QueuedTransactionData) (address : string)
  : M W (list QueuedTransactionData) :=
  transactions <- fetchQueuedTransactions net address chainKey ;;
  safeInfo <-
    (if Js.truthy (showConfirmedSigner options)
        || Js.truthy (showPendingSigner options)
     then fetchSafeInfo net address chainKey
     else ret None) ;;
  if (List.length transactions =? 0)%nat then ret results
  else
    transactions <-
      (if Js.truthy (showTxNote options)
       then attachNotes chainKey transactions
       else ret transactions) ;;
    let safeUrl := generateSafeUrl address chainKey in
    ret (results ++
         [{| qd_chain := chainKey;
             qd_address := address;
             transactions := transactions;
             safeInfo := safeInfo;
             safeUrl := safeUrl |}])%list.

Definition fetchAllQueuedTransactions (safes : list SafeAddress)
    (options : FormatOptions) : M W (list QueuedTransactionData) :=
  forEach (fun results entry =>
             forEach (processSafe options (fst entry)) (snd entry) results)
    (safesByChain safes) [].

End Monitor.

(** [signerSummary[k] = (signerSummary[k] || 0) + 1], for a key [k] that
    [Object.prototype] has no property of: the first assignment finds
    [undefined] and creates the key with the count one.  (For
    [__proto__] and [constructor] the code reads the inherited property
    instead; the properties about the summary exclude these two
    keys.) *)
Fixpoint increment (k : string) (o : Summary) : Summary :=
  match o with
  | [] => [(k, 1%N)]
  | (k', n) :: o' =>
      if String.eqb k' k then (k', (n + 1)%N) :: o'
      else (k', n) :: increment k o'
  end.

(** [signerSummary[k]], for such a key. *)
Fixpoint lookup (k : string) (o : Summary) : option N :=
  match o with
  | [] => None
  | (k', n) :: o' => if String.eqb k' k then Some n else lookup k o'
  end.

Definition countMissing (summary : Summary)
    (txs : list QueuedSafeTransaction) : Summary :=
  fold_left (fun summary tx =>
               match missingSigners tx with
               | Some l =>
                   fold_left (fun summary signerAddress =>
                                increment (Js.toLowerCase signerAddress) summary)
                     l summary
               | None => summary
               end) txs summary.

Definition summaryLine (signers : list SignerInfo) (entry : string * N) : string :=
  let signerName := getSignerHandle (fst entry) signers (Some "@") in
  "   " ++ bullet ++ " " ++ signerName ++ ": " ++ Js.show (snd entry)
  ++ " signature" ++ (if (1 <? snd entry)%N then "s" else "") ++ " needed".

Definition formatTransactionData (data : list QueuedTransactionData)
    (signers : list SignerInfo) (options : FormatOptions)
  : list string * Summary :=
  let step (acc : list string * Summary) (d : QueuedTransactionData) :=
    let transactionMessages :=
      map (fun tx =>
             formatTransactionMessage tx (qd_chain d)
               (option_map owners (safeInfo d)) signers options)
        (transactions d) in
    let urlLine := iconLink ++ " Safe URL: " ++ safeUrl d ++ nl in
    ((fst acc ++ transactionMessages ++ [urlLine])%list,
     countMissing (snd acc) (transactions d)) in
  let (messages, signerSummary) := fold_left step data ([], []) in
  let messages :=
    if (0 <? List.length signerSummary)%nat
    then (messages ++ map (summaryLine signers) signerSummary)%list
    else messages in
  ((messages ++ [(nl ++ nl)%string])%list, signerSummary).

Section Run.

Context {W : Type} (net : Net W).

Definition monitorSafeWalletQueue (config : SafeWalletMonitorConfig)
  : M W (outcome SafeWalletMonitorResult) :=
  if (List.length (safes config) =? 0)%nat
  then ret (Thrown (PlainError "No safes provided in configuration"))
  else
    transactionData <-
      fetchAllQueuedTransactions net (safes config) (formatOptions config) ;;
    let totalTransactions :=
      fold_left (fun sum data => (sum + List.length (transactions data))%nat)
        transactionData 0%nat in
    let (messages, signerSummary) :=
      formatTransactionData transactionData (signers config)
        (formatOptions config) in
    let finalMessage := Js.join nl messages in
    (if (0 <? totalTransactions)%nat
        && (0 <? List.length (notifications config))%nat
     then sendNotifications net (notifications config) finalMessage ;;; ret tt
     else ret tt) ;;;
    ret (Returned
           {| totalTransactions := totalTransactions;
              messages := messages;
              signerSummary := signerSummary;
              rawData := transactionData |}).

End Run.

(** ** Sample data *)

Module Fixture.

Definition alice : string := "0xAAAA000000000000000000000000000000000001".
Definition bob : string := "0xBbBb000000000000000000000000000000000002".
Definition carol : string := "0xCCCC000000000000000000000000000000000003".

Definition treasury : SafeAddress :=
  {| address := "0xbe2AB3d3d8F6a32b96414ebbd865dBD276d3d899"; chain := mainnet |}.

Definition rawTransaction (n required submitted : N) (missing : list string)
  : SafeClientTransaction :=
  {| type := TRANSACTION;
     transaction :=
       Some {| tx_id := "multisig_15";
               timestamp := 1700000000000;
               txStatus := "AWAITING_CONFIRMATIONS";
               executionInfo :=
                 {| exec_nonce := n;
                    exec_confirmationsRequired := required;
                    confirmationsSubmitted := submitted;
                    exec_missingSigners :=
                      map (fun v => {| value := v; name := None; logoUri := None |})
                        missing |};
               txHash := None |};
     conflictType := "None" |}.

Definition rawLabel : SafeClientTransaction :=
  {| type := LABEL; transaction := None; conflictType := "None" |}.

Definition page (items : list SafeClientTransaction) : SafeClientApiResponse :=
  {| count := N.of_nat (List.length items); next := None; previous := None;
     results := items |}.

(** A world without memory: every request of a kind gets the same
    answer. *)
Definition answers (queued : option SafeClientApiResponse)
    (info : option SafeServiceResponse) (details : option SafeTransactionDetails)
  : Net unit :=
  {| get_safe := fun _ w => (info, w);
     get_queued := fun _ w => (queued, w);
     get_details := fun _ w => (details, w);
     post := fun _ _ w => (true, w) |}.

Definition threeOwners : SafeServiceResponse :=
  {| data_owners := Some [alice; bob; carol]; data_threshold := Some 3%N |}.

Definition options (confirmed pending status chainIcon txNote : option bool)
  : FormatOptions :=
  {| showConfirmedSigner := confirmed;
     showPendingSigner := pending;
     showStatusIcon := status;
     showChainIcon := chainIcon;
     showTxNote := txNote |}.

Definition emptyOptions : FormatOptions := options None None None None None.
Definition allOptions : FormatOptions :=
  options (Some true) (Some true) (Some true) (Some true) (Some true).

Definition config (o : FormatOptions) (n : list NotificationConfig)
  : SafeWalletMonitorConfig :=
  {| safes := [treasury];
     signers := [{| signer_address := bob; handle := "bob" |}];
     formatOptions := o;
     notifications := n;
     debug := None |}.

Definition start : unit * list Event := (tt, []).

(** A transaction as the conversion yields it, here with a note. *)
Definition queued15 : QueuedSafeTransaction :=
  {| nonce := 15;
     signedCount := 1;
     confirmationsRequired := 3;
     confirmations := [{| owner := "signed_0"; submissionDate := 1700000000000;
                          signature := ""; signatureType := "ETH_SIGN" |}];
     missingSigners := Some [bob; carol];
     id := "multisig_15";
     note := Some "Pay grants";
     safe := address treasury |}.

(** One wallet with one queued transaction that bob and carol have
    yet to sign; the ownership request is answered. *)
Definition oneQueued : Net unit :=
  answers (Some (page [rawTransaction 15 3 1 [bob; carol]]))
    (Some threeOwners) (Some {| details_note := "Pay grants" |}).

(** A wallet whose one transaction names the same signer twice, in two
    spellings. *)
Definition twiceMissing : list QueuedTransactionData :=
  [{| qd_chain := mainnet;
      qd_address := address treasury;
      transactions :=
        [{| nonce := 7; signedCount := 0; confirmationsRequired := 2;
            confirmations := [];
            missingSigners := Some ["0xAB"; "0xab"];
            id := "multisig_7"; note := None; safe := address treasury |}];
      safeInfo := None;
      safeUrl := generateSafeUrl (address treasury) mainnet |}].

(** A transaction built by hand, as a caller of [formatTransactionData]
    can pass it: a threshold beyond [2 ^ 50], signed up to one short of
    seven tenths of it. *)
Definition beyond : QueuedSafeTransaction :=
  {| nonce := 1;
     signedCount := 788129934789843;
     confirmationsRequired := 1125899906842633;
     confirmations := [];
     missingSigners := None;
     id := "multisig_1";
     note := None;
     safe := address treasury |}.

End Fixture.

(** ** cli.ts

    The parts of the command line that work on values: the parsing of
    the signers and the merge of the display flags.  White space is the
    ASCII white space; [None] is [process.exit(1)]. *)

Definition isWhiteSpace (c : ascii) : bool :=
  let n := nat_of_ascii c in
  ((9 <=? n)%nat && (n <=? 13)%nat) || (n =? 32)%nat.

Fixpoint trimStart (s : string) : string :=
  match s with
  | EmptyString => EmptyString
  | String c s' => if isWhiteSpace c then trimStart s' else s
  end.

Fixpoint trimEnd (s : string) : string :=
  match s with
  | EmptyString => EmptyString
  | String c s' =>
      match trimEnd s' with
      | EmptyString => if isWhiteSpace c then EmptyString else String c EmptyString
      | t => String c t
      end
  end.

(** [String.prototype.trim]. *)
Definition trim (s : string) : string := trimEnd (trimStart s).

(** [s.split(sep)] for a separator of one character. *)
Fixpoint split (sep : ascii) (s : string) : list string :=
  match s with
  | EmptyString => [EmptyString]
  | String c s' =>
      if Ascii.eqb c sep then EmptyString :: split sep s'
      else
        match split sep s' with
        | p :: ps => String c p :: ps
        | [] => [String c EmptyString]
        end
  end.

(** [l.map(f)] where [f] may end the process. *)
Fixpoint mapExit {A B} (f : A -> option B) (l : list A) : option (list B) :=
  match l with
  | [] => Some []
  | x :: l' =>
      match f x with
      | None => None
      | Some y =>
          match mapExit f l' with
          | None => None
          | Some ys => Some (y :: ys)
          end
      end
  end.

(** The callback of [parseSigners]: one [address:handle] entry. *)
Definition parseSigner (entry : string) : option SignerInfo :=
  match split ":" (trim entry) with
  | address :: handle :: _ =>
      if Js.nonEmpty address && Js.nonEmpty handle
      then Some {| signer_address := trim address; handle := trim handle |}
      else None
  | _ => None
  end.

Definition parseSigners (signersString : string) : option (list SignerInfo) :=
  mapExit parseSigner (split "," signersString).

(** The display flags of the command line; a flag that is not given is
    [undefined]. *)
Record DisplayFlags :=
  { showConfirmed : option bool;
    hidePending : option bool;
    showStatusIcons : option bool;
    hideChainIcons : option bool;
    hideTxNotes : option bool }.

(** [a || b] and [!a && b] on values that are booleans or undefined. *)
Definition jsOr (a b : option bool) : option bool :=
  if Js.truthy a then a else b.

Definition jsNotAnd (a b : option bool) : option bool :=
  if negb (Js.truthy a) then b else Some false.

(** The format options the [track] command runs with. *)
Definition updateFormatOptions (options : DisplayFlags)
    (formatOptions : FormatOptions) : FormatOptions :=
  {| showConfirmedSigner :=
       jsOr (showConfirmed options) (showConfirmedSigner formatOptions);
     showPendingSigner :=
       jsNotAnd (hidePending options) (showPendingSigner formatOptions);
     showStatusIcon :=
       jsOr (showStatusIcons options) (showStatusIcon formatOptions);
     showChainIcon :=
       jsNotAnd (hideChainIcons options) (showChainIcon formatOptions);
     showTxNote :=
       jsNotAnd (hideTxNotes options) (showTxNote formatOptions) |}.

(** ** What the specification speaks of *)

(** The cutoff of the middle tier, [ceil (required * 0.7)] over the
    rationals. *)
Definition exactCutoff (required : N) : Z :=
  Qceiling (inject_Z (Z.of_N required) * (7 # 10)).

(** A transaction is retained: it is unchanged but for an attached
    note. *)
Definition retained (tx tx' : QueuedSafeTransaction) : Prop :=
  tx' = tx \/ exists text, tx' = setNote tx text.

(** The safe information [processSafe] pairs with the transactions it
    got in state [s1]. *)
Definition safeInfoAt {W : Type} (net : Net W) (options : FormatOptions)
    (chainKey : ChainName) (address : string) (s1 : W * list Event)
  : option SafeInfo :=
  if Js.truthy (showConfirmedSigner options)
     || Js.truthy (showPendingSigner options)
  then fst (fetchSafeInfo net address chainKey s1)
  else None.

Definition countTransactions (data : list QueuedTransactionData) : nat :=
  fold_left (fun sum d => (sum + List.length (transactions d))%nat) data 0%nat.

(** Whether the run calls the dispatcher. *)
Definition sends (config : SafeWalletMonitorConfig)
    (data : list QueuedTransactionData) : bool :=
  (0 <? countTransactions data)%nat
  && (0 <? List.length (notifications config))%nat.

(** A delivery to a channel: a line on the console or a POST request. *)
Definition isDelivery (e : Event) : bool :=
  match e with Post _ _ | Log _ => true | _ => false end.

Definition isGet (e : Event) : bool :=
  match e with Get _ => true | _ => false end.

(** Every run of [c] appends to the trace only events that satisfy
    [P]. *)
Definition emits {W A : Type} (c : M W A) (P : Event -> Prop) : Prop :=
  forall s, exists ev, snd (snd (c s)) = (snd s ++ ev)%list /\ Forall P ev.

(** The missing signers of all transactions of all wallets, case
    normalised, in the order the formatter visits them. *)
Definition missingOf (tx : QueuedSafeTransaction) : list string :=
  match missingSigners tx with Some l => l | None => [] end.

Definition allMissing (data : list QueuedTransactionData) : list string :=
  map Js.toLowerCase (flat_map missingOf (flat_map transactions data)).

(** How many entries of the [missingSigners] lists are the address
    [k]. *)
Definition occurrences (k : string) (data : list QueuedTransactionData) : N :=
  N.of_nat (count_occ string_dec (allMissing data) k).

(** How many transactions have the address [k] among their
    [missingSigners]. *)
Definition transactionsMissing (k : string) (data : list QueuedTransactionData)
  : N :=
  N.of_nat
    (List.length
       (filter (fun tx => Js.includes (map Js.toLowerCase (missingOf tx)) k)
          (flat_map transactions data))).

(** The count a summary holds for [k], [0] when it has no such key. *)
Definition countOf (k : string) (o : Summary) : N :=
  match lookup k o with Some n => n | None => 0%N end.

(** Every count a summary holds is positive. *)
Definition positive (o : Summary) : Prop :=
  forall k n, lookup k o = Some n -> (0 < n)%N.

(** The inner loop of [countMissing]: one list of missing signers. *)
Definition tally (l : list string) (o : Summary) : Summary :=
  fold_left (fun summary signerAddress =>
               increment (Js.toLowerCase signerAddress) summary) l o.

(** An options object with every flag written out, an omitted one as
    [false]. *)
Definition explicitOptions (o : FormatOptions) : FormatOptions :=
  {| showConfirmedSigner := Some (Js.truthy (showConfirmedSigner o));
     showPendingSigner := Some (Js.truthy (showPendingSigner o));
     showStatusIcon := Some (Js.truthy (showStatusIcon o));
     showChainIcon := Some (Js.truthy (showChainIcon o));
     showTxNote := Some (Js.truthy (showTxNote o)) |}.

(** An address as the service writes it: it begins with [0x]. *)
Definition hexAddress (a : string) : Prop := exists rest, a = "0x" ++ rest.

(** The bodies of the records [fetchQueuedTransactions] converts, in
    the order of the answer. *)
Definition bodies (data : SafeClientApiResponse) : list ClientTransactionBody :=
  flat_map (fun item =>
              match type item, transaction item with
              | TRANSACTION, Some body => [body]
              | _, _ => []
              end) (results data).

(** The addresses configured for chain [c], in the order of the
    configuration. *)
Definition walletsOf (c : ChainName) (safes : list SafeAddress) : list string :=
  map address (filter (fun s => ChainName_eqb (chain s) c) safes).

(** [acc[c]], the empty list standing for a missing key. *)
Fixpoint groupOf (c : ChainName) (acc : list (ChainName * list string))
  : list string :=
  match acc with
  | [] => []
  | (c', l) :: acc' => if ChainName_eqb c' c then l else groupOf c acc'
  end.

(** What an entry of the aggregated result is like, given the options
    of the run. *)
Definition wellFormedEntry (safes : list SafeAddress) (options : FormatOptions)
    (d : QueuedTransactionData) : Prop :=
  In {| address := qd_address d; chain := qd_chain d |} safes
  /\ safeUrl d = generateSafeUrl (qd_address d) (qd_chain d)
  /\ (forall info, safeInfo d = Some info ->
        (1 <= threshold info)%N
        /\ Js.truthy (showConfirmedSigner options)
           || Js.truthy (showPendingSigner options) = true)
  /\ Forall (fun tx =>
               safe tx = qd_address d
               /\ match note tx with
                  | None => True
                  | Some text =>
                      text <> "" /\ Js.truthy (showTxNote options) = true
                  end) (transactions d).

(** The lines [formatTransactionData] writes for one wallet: a message
    for each transaction, then the line with the URL. *)
Definition block (signers : list SignerInfo) (options : FormatOptions)
    (d : QueuedTransactionData) : list string :=
  (map (fun tx =>
          formatTransactionMessage tx (qd_chain d)
            (option_map owners (safeInfo d)) signers options)
     (transactions d)
   ++ [(iconLink ++ " Safe URL: " ++ safeUrl d ++ nl)%string])%list.

(** The sum of the counts of a summary. *)
Definition sumCounts (o : Summary) : N :=
  fold_right (fun kv acc => (snd kv + acc)%N) 0%N o.

(** What every step of the tally keeps: distinct, lower-case keys, and
    a sum of counts that grows by one for each entry. *)
Definition summaryInvariant (n : nat) (o : Summary) : Prop :=
  NoDup (map fst o)
  /\ Forall (fun k => Js.toLowerCase k = k) (map fst o)
  /\ sumCounts o = N.of_nat n.

(** What a channel sends for a message: nothing when it is disabled or,
    for the chat bot, lacks its token or chat id. *)
Definition deliveryOf (config : NotificationConfig) (message : string)
  : list Event :=
  match config with
  | ConsoleNotificationConfig true colored =>
      [Log (match colored with
            | Some false => message
            | _ => coloredMessage message
            end)]
  | TelegramNotificationConfig true botToken chatId disableNotification
      parseMode =>
      if Js.nonEmpty botToken && Js.nonEmpty chatId
      then [Post ("https://api.telegram.org/bot" ++ botToken ++ "/sendMessage")
              (TelegramMessage chatId message
                 (match disableNotification with Some false => false | _ => true end)
                 (match parseMode with
                  | Some p => parseModeString p
                  | None => "HTML"
                  end))]
      else []
  | WebhookNotificationConfig true url headers =>
      [Post url
         (WebhookMessage message
            (fold_left (fun o kv => setProperty (fst kv) (snd kv) o)
               (match headers with Some h => h | None => [] end)
               [("Content-Type", "application/json")]))]
  | _ => []
  end.

(** The requests [processSafe] sends for a wallet that has the queued
    transactions [txs]. *)
Definition walletRequests (options : FormatOptions) (chainKey : ChainName)
    (address : string) (txs : list QueuedSafeTransaction) : list Event :=
  (Get (queuedUrl address chainKey)
   :: (if Js.truthy (showConfirmedSigner options)
          || Js.truthy (showPendingSigner options)
       then [Get (safeInfoUrl address chainKey)] else [])
   ++ (if Js.truthy (showTxNote options)
       then map (fun tx => Get (detailsUrl (id tx) chainKey)) txs else []))%list.

(** [o[k]] on the own properties of an object. *)
Fixpoint getProperty {A} (k : string) (o : list (string * A)) : option A :=
  match o with
  | [] => None
  | (k', v) :: o' => if String.eqb k' k then Some v else getProperty k o'
  end.

(** The headers a webhook request carries. *)
Definition webhookHeaders (headers : option (list (string * string)))
  : list (string * string) :=
  fold_left (fun o kv => setProperty (fst kv) (snd kv) o)
    (match headers with Some h => h | None => [] end)
    [("Content-Type", "application/json")].

(** Whether [pat] occurs in [s]. *)
Fixpoint occurs (pat s : string) : bool :=
  prefix pat s
  || match s with
     | EmptyString => false
     | String _ s' => occurs pat s'
     end.

(** The wallets in the order the aggregation visits them. *)
Definition visitOrder (safes : list SafeAddress) : list (ChainName * string) :=
  flat_map (fun g => map (pair (fst g)) (snd g)) (safesByChain safes).

(** [l1] is [l2] with some elements left out. *)
Inductive subsequence {A : Type} : list A -> list A -> Prop :=
| subsequence_nil : subsequence [] []
| subsequence_skip x l1 l2 : subsequence l1 l2 -> subsequence l1 (x :: l2)
| subsequence_keep x l1 l2 : subsequence l1 l2 -> subsequence (x :: l1) (x :: l2).

(** The icons a coloured console channel paints. *)
Definition paintedIcons : list string :=
  ["🏅"; "⚠️"; "✔️"; "⏳"].

(** A string of ASCII characters only.  On these the case mappings of
    the embedding are those of the code; outside ASCII the code also
    maps other letters, and can change the length. *)
Fixpoint isAscii (s : string) : bool :=
  match s with
  | EmptyString => true
  | String c s' => (nat_of_ascii c <? 128)%nat && isAscii s'
  end.

(** A key on which the summary object behaves as the association list
    [Summary]: [Object.prototype] has no property of this name.  Of the
    strings [toLowerCase] can return, only [__proto__] and [constructor]
    are names of its properties; an assignment to [__proto__] creates no
    key and [constructor] gets a text, not a count. *)
Definition plainKey (k : string) : Prop :=
  k <> "__proto__" /\ k <> "constructor".


(** Whether the character [c] is in [s]. *)
Fixpoint contains (c : ascii) (s : string) : bool :=
  match s with
  | EmptyString => false
  | String c' s' => Ascii.eqb c' c || contains c s'
  end.

(** A field that [parseSigners] reads back as it is: not empty, without
    white space around it, without comma or colon. *)
Definition cleanField (x : string) : Prop :=
  x <> "" /\ trim x = x /\ contains "," x = false /\ contains ":" x = false.

(** The entry that spells a signer on the command line. *)
Definition renderSigner (s : SignerInfo) : string :=
  signer_address s ++ ":" ++ handle s.

(** * Properties *)

(** ** The readiness tier *)

Section Rounding.

Local Open Scope Z_scope.

Lemma exactCutoff_eq (required : N) :
  exactCutoff required = (7 * Z.of_N required + 9) / 10.
Proof.
  unfold exactCutoff, Qceiling, Qfloor, Qopp, Qmult, inject_Z; cbn [Qnum Qden].
  change (Z.pos (1 * 10)) with 10.
  set (z := Z.of_N required).
  pose proof (Z.div_mod (- (z * 7)) 10 ltac:(lia)) as H1.
  pose proof (Z.mod_pos_bound (- (z * 7)) 10 ltac:(lia)) as H2.
  apply Z.div_unique with (r := 7 * z + 9 - 10 * - (- (z * 7) / 10)); lia.
Qed.

Lemma round_upper (p t u c q r m : Z) :
  0 < t -> 0 < u -> p = t * q + r -> 0 <= r < t ->
  (m = q \/ m = q + 1) -> p < c * (t * u) -> m <= c * u.
Proof.
  intros Ht Hu Hp Hr Hm Hlt.
  assert (q < c * u) by nia. lia.
Qed.

(** Below [2 ^ 49] the double product, rounded up, is the exact
    ceiling. *)
Lemma ceil_mul_0_7 (n : N) :
  (n < 2 ^ 49)%N -> Js.Math_ceil (Js.mul_0_7 n) = (7 * Z.of_N n + 9) / 10.
Proof.
  intros Hn. change (2 ^ 49)%N with 562949953421312%N in Hn.
  unfold Js.mul_0_7, Js.round53.
  set (z := Z.of_N n). assert (Hz : 0 <= z < 562949953421312) by lia.
  clearbody z. clear Hn n.
  set (p := z * Js.significand_0_7).
  assert (Hp10 : 10 * p = 7 * z * 2 ^ 53 - 4 * z) by (unfold p, Js.significand_0_7; lia).
  destruct (Z.leb_spec (Z.log2 p) 52) as [Hb | Hb].
  - assert (Hlt : p < 2 ^ 53).
    { destruct (Z.eq_dec p 0) as [-> | Hne]; [reflexivity|].
      apply Z.log2_lt_pow2; lia. }
    assert (Hz' : z = 0 \/ z = 1) by lia.
    destruct Hz' as [-> | ->]; reflexivity.
  - set (s := Z.log2 p - 52).
    assert (Hp0 : 0 < p).
    { destruct (Z.le_gt_cases p 0) as [Hle | Hgt]; [|lia].
      rewrite Z.log2_nonpos in Hb by assumption. lia. }
    destruct (Z.log2_spec p Hp0) as [Hlo Hhi].
    replace (Z.succ (Z.log2 p)) with (53 + s) in Hhi by (unfold s; lia).
    replace (Z.log2 p) with (52 + s) in Hlo by (unfold s; lia).
    assert (Hs : 1 <= s) by (unfold s; lia).
    rewrite Z.pow_add_r in Hlo, Hhi by lia.
    assert (Hs53 : s < 53).
    { destruct (Z.lt_ge_cases s 53); [assumption|].
      assert (2 ^ 53 <= 2 ^ s) by (apply Z.pow_le_mono_r; lia). nia. }
    set (t := 2 ^ s) in *.
    set (u := 2 ^ (53 - s)).
    assert (Htu : t * u = 2 ^ 53)
      by (unfold t, u; rewrite <- Z.pow_add_r by lia; f_equal; lia).
    assert (Hhalf : 2 * 2 ^ (s - 1) = t).
    { unfold t. replace s with (1 + (s - 1)) at 2 by lia.
      rewrite Z.pow_add_r by lia. reflexivity. }
    set (half := 2 ^ (s - 1)) in *.
    assert (Ht : 0 < t) by (unfold t; apply Z.pow_pos_nonneg; lia).
    assert (Hu : 0 < u) by (unfold u; apply Z.pow_pos_nonneg; lia).
    pose proof (Z.div_mod p t ltac:(lia)) as Hdm.
    pose proof (Z.mod_pos_bound p t Ht) as Hr.
    set (q := p / t) in *. set (r := p mod t) in *.
    set (up := (half <? r) || ((r =? half) && Z.odd q)).
    set (m := if up then q + 1 else q).
    assert (Hm : (m = q /\ r <= half) \/ (m = q + 1 /\ half <= r)).
    { unfold m, up. destruct (Z.ltb_spec half r); simpl; [right; lia|].
      destruct (Z.eqb_spec r half); simpl; [|left; lia].
      destruct (Z.odd q); [right | left]; lia. }
    clearbody m. clear up.
    unfold Js.Math_ceil; cbn [Js.expo Js.mant].
    destruct (Z.leb_spec 0 (-53 + s)); [lia|].
    replace (- (-53 + s)) with (53 - s) by lia. fold u.
    set (c := (7 * z + 9) / 10).
    assert (Hc : 7 * z <= 10 * c <= 7 * z + 9).
    { pose proof (Z.div_mod (7 * z + 9) 10 ltac:(lia)) as Hd.
      pose proof (Z.mod_pos_bound (7 * z + 9) 10 ltac:(lia)). fold c in Hd. lia. }
    assert (Hz0 : 0 < z) by nia.
    assert (Hup : m <= c * u).
    { apply (round_upper p t u c q r m); try lia. nia. }
    assert (Hlow : (c - 1) * u < m).
    { assert (H1 : 2 * p - t <= 2 * (m * t)) by nia.
      assert (H2 : t < 2 * z).
      { assert (p < z * 2 ^ 53) by (unfold p, Js.significand_0_7; nia). nia. }
      assert (H3 : 10 * ((c - 1) * u * t) <= 7 * z * (t * u) - t * u) by nia.
      assert (H4 : 10 * ((c - 1) * u * t) < 10 * (m * t)).
      { rewrite Htu in H3. change (2 ^ 53) with 9007199254740992 in *. lia. }
      nia. }
    assert (Hq : (- m) / u = - c).
    { symmetry. apply Z.div_unique with (r := c * u - m); lia. }
    rewrite Hq. lia.
Qed.

(** From [2 ^ 49] on the rounded product is beyond every length an
    array can have. *)
Lemma ceil_mul_0_7_large (n : N) :
  (2 ^ 49 <= n)%N -> 2 ^ 32 <= Js.Math_ceil (Js.mul_0_7 n).
Proof.
  intros Hn. change (2 ^ 49)%N with 562949953421312%N in Hn.
  unfold Js.mul_0_7, Js.round53.
  set (z := Z.of_N n). assert (Hz : 562949953421312 <= z) by lia.
  clearbody z. clear Hn n.
  set (p := z * Js.significand_0_7).
  assert (Hp : 2 ^ 101 <= p) by (unfold p, Js.significand_0_7; lia).
  assert (Hb : 101 <= Z.log2 p) by (apply Z.log2_le_pow2; lia).
  destruct (Z.leb_spec (Z.log2 p) 52) as [Hb' | _]; [lia|].
  set (s := Z.log2 p - 52). assert (Hs : 49 <= s) by (unfold s; lia).
  destruct (Z.log2_spec p ltac:(lia)) as [Hlo _].
  replace (Z.log2 p) with (52 + s) in Hlo by (unfold s; lia).
  rewrite Z.pow_add_r in Hlo by lia.
  assert (Ht : 0 < 2 ^ s) by (apply Z.pow_pos_nonneg; lia).
  set (t := 2 ^ s) in *.
  assert (Hq : 2 ^ 52 <= p / t) by (apply Z.div_le_lower_bound; lia).
  set (q := p / t) in *.
  match goal with |- context [if ?up then q + 1 else q] =>
    set (m := if up then q + 1 else q);
    assert (Hm : 2 ^ 52 <= m) by (unfold m; destruct up; lia)
  end.
  clearbody m.
  unfold Js.Math_ceil; cbn [Js.expo Js.mant].
  destruct (Z.leb_spec 0 (-53 + s)) as [Hge | Hlt].
  - assert (1 <= 2 ^ (-53 + s)) by (apply (Z.pow_le_mono_r 2 0); lia).
    change (2 ^ 32) with 4294967296 in *. change (2 ^ 52) with 4503599627370496 in *. nia.
  - replace (- (-53 + s)) with (53 - s) by lia.
    assert (Hu : 0 < 2 ^ (53 - s) <= 2 ^ 4).
    { split; [apply Z.pow_pos_nonneg; lia | apply Z.pow_le_mono_r; lia]. }
    set (u := 2 ^ (53 - s)) in *.
    pose proof (Z.div_mod (- m) u ltac:(lia)) as Hd.
    pose proof (Z.mod_pos_bound (- m) u ltac:(lia)) as Hr.
    change (2 ^ 32) with 4294967296. change (2 ^ 52) with 4503599627370496 in *.
    change (2 ^ 4) with 16 in *. nia.
Qed.

End Rounding.

Lemma icons_distinct :
  iconReady <> iconPartial /\ iconReady <> iconAttention
  /\ iconPartial <> iconAttention.
Proof. repeat split; discriminate. Qed.

(** The three-way case analysis of [getStatusIcon] against the exact
    cutoff, for a count an array can have as its length. *)
Lemma getStatusIcon_cases (confirmed required : N) :
  (confirmed < 2 ^ 32)%N ->
  getStatusIcon confirmed required =
    if (required <=? confirmed)%N then iconReady
    else if (exactCutoff required <=? Z.of_N confirmed)%Z then iconPartial
    else iconAttention.
Proof.
  intros Hc. unfold getStatusIcon.
  destruct (N.leb_spec required confirmed) as [Hle | Hgt]; [reflexivity|].
  rewrite exactCutoff_eq.
  destruct (N.lt_ge_cases required (2 ^ 49)) as [Hsmall | Hbig].
  - rewrite ceil_mul_0_7 by assumption. reflexivity.
  - pose proof (ceil_mul_0_7_large required Hbig) as Hfl.
    change (2 ^ 32)%N with 4294967296%N in Hc.
    change (2 ^ 49)%N with 562949953421312%N in Hbig.
    change (2 ^ 32)%Z with 4294967296%Z in Hfl.
    destruct (Z.leb_spec (Js.Math_ceil (Js.mul_0_7 required)) (Z.of_N confirmed));
      [lia|].
    destruct (Z.leb_spec ((7 * Z.of_N required + 9) / 10) (Z.of_N confirmed))
      as [Hle | _]; [|reflexivity].
    exfalso.
    assert (4294967296 <= (7 * Z.of_N required + 9) / 10)%Z
      by (apply Z.div_le_lower_bound; lia).
    lia.
Qed.

(** ** The conversion of a service record *)

Lemma mapOutcome_In {A B} (f : A -> outcome B) (l : list A) (ys : list B) (y : B) :
  mapOutcome f l = Returned ys -> In y ys ->
  exists x, In x l /\ f x = Returned y.
Proof.
  revert ys. induction l as [|x l IH]; intros ys Hm Hy; simpl in Hm.
  - injection Hm as <-. destruct Hy.
  - destruct (f x) as [y0|] eqn:Hx; [|discriminate].
    destruct (mapOutcome f l) as [ys0|] eqn:Hl; [|discriminate].
    injection Hm as <-. destruct Hy as [-> | Hy].
    + exists x. split; [left; reflexivity | assumption].
    + destruct (IH ys0 eq_refl Hy) as (x' & Hin & Hfx).
      exists x'. split; [right; assumption | assumption].
Qed.

Lemma dropNull_In {A} (l : list (option A)) (y : A) :
  In y (dropNull l) <-> In (Some y) l.
Proof.
  induction l as [|[x|] l IH]; simpl.
  - tauto.
  - rewrite IH. split; intros [H | H]; auto; left; congruence.
  - rewrite IH. split; [auto | intros [H | H]; [discriminate | assumption]].
Qed.

Lemma convertResults_In (data : SafeClientApiResponse) (safeAddress : string)
    (tx : QueuedSafeTransaction) :
  In tx (convertResults data safeAddress) ->
  exists item, In item (results data) /\ type item = TRANSACTION
    /\ convertToEnhancedFormat item safeAddress = Returned (Some tx).
Proof.
  unfold convertResults.
  destruct (mapOutcome _ _) as [converted|] eqn:Hm; [|intros []].
  intros Hin. apply dropNull_In in Hin.
  destruct (mapOutcome_In _ _ _ _ Hm Hin) as (item & Hitem & Hconv).
  apply filter_In in Hitem. destruct Hitem as [Hitem Htype].
  exists item. repeat split; try assumption.
  unfold isTransaction in Htype. destruct (type item); [reflexivity | discriminate].
Qed.

(** What a successful conversion returns. *)
Lemma convertToEnhancedFormat_Some (item : SafeClientTransaction)
    (safeAddress : string) (tx : QueuedSafeTransaction) :
  convertToEnhancedFormat item safeAddress = Returned (Some tx) ->
  exists body,
    type item = TRANSACTION /\ transaction item = Some body
    /\ (confirmationsSubmitted (executionInfo body) < 2 ^ 32)%N
    /\ tx = {| nonce := exec_nonce (executionInfo body);
               signedCount := confirmationsSubmitted (executionInfo body);
               confirmationsRequired :=
                 exec_confirmationsRequired (executionInfo body);
               confirmations :=
                 Array_from (confirmationsSubmitted (executionInfo body))
                   (fun i => {| owner := "signed_" ++ Js.show i;
                                submissionDate := timestamp body;
                                signature := "";
                                signatureType := "ETH_SIGN" |});
               missingSigners :=
                 Some (map value (exec_missingSigners (executionInfo body)));
               id := tx_id body;
               note := None;
               safe := safeAddress |}.
Proof.
  unfold convertToEnhancedFormat.
  destruct (type item); [|discriminate].
  destruct (transaction item) as [body|]; [|discriminate].
  destruct (N.leb_spec (2 ^ 32) (confirmationsSubmitted (executionInfo body)))
    as [|Hlt]; [discriminate|].
  destruct (_ && _); [discriminate|].
  intros Heq. injection Heq as <-. exists body. auto.
Qed.

Lemma Array_from_length {A} (n : N) (f : N -> A) :
  List.length (Array_from n f) = N.to_nat n.
Proof. unfold Array_from. rewrite length_map, length_seq. reflexivity. Qed.

Lemma Array_from_nth {A} (n : N) (f : N -> A) (i : nat) (x : A) :
  nth_error (Array_from n f) i = Some x -> x = f (N.of_nat i).
Proof.
  unfold Array_from. intros H.
  rewrite nth_error_map in H.
  destruct (nth_error (seq 0 (N.to_nat n)) i) as [j|] eqn:Hj; [|discriminate].
  injection H as <-.
  assert (Hlt : (i < List.length (seq 0 (N.to_nat n)))%nat)
    by (apply nth_error_Some; congruence).
  rewrite length_seq in Hlt.
  rewrite (nth_error_nth' _ 0%nat) in Hj by (rewrite length_seq; assumption).
  rewrite seq_nth in Hj by assumption. injection Hj as <-. reflexivity.
Qed.

(** ** The aggregation loops *)


Section Loops.

Context {W : Type} (net : Net W).

Lemma forEach_invariant {A B} (f : B -> A -> M W B) (P : B -> Prop) :
  (forall b a s, P b -> P (fst (f b a s))) ->
  forall l b s, P b -> P (fst (forEach f l b s)).
Proof.
  intros Hf l. induction l as [|x l IH]; intros b s Hb; simpl.
  - assumption.
  - unfold bind. specialize (Hf b x s Hb).
    destruct (f b x s) as [b' s']. apply IH. assumption.
Qed.

Lemma attachNotes_retained (chainKey : ChainName)
    (txs : list QueuedSafeTransaction) (s : W * list Event) :
  Forall2 retained txs (fst (attachNotes net chainKey txs s)).
Proof.
  revert s. induction txs as [|tx rest IH]; intros s; simpl.
  - constructor.
  - unfold bind.
    destruct (fetchTransactionDetails net (id tx) chainKey s) as [d s1].
    specialize (IH s1).
    destruct (attachNotes net chainKey rest s1) as [rest' s2]. simpl in *.
    constructor; [|assumption].
    destruct d as [[text|]|]; try (left; reflexivity).
    destruct (Js.nonEmpty text); [right; exists text | left]; reflexivity.
Qed.

Lemma retained_refl (txs : list QueuedSafeTransaction) : Forall2 retained txs txs.
Proof. induction txs; constructor; [left; reflexivity | assumption]. Qed.


(** One wallet: nothing is pushed when no transaction came back, one
    entry otherwise. *)
Lemma processSafe_cases (options : FormatOptions) (chainKey : ChainName)
    (results : list QueuedTransactionData) (address : string)
    (s : W * list Event) :
  let txs := fst (fetchQueuedTransactions net address chainKey s) in
  let s1 := snd (fetchQueuedTransactions net address chainKey s) in
  (txs = [] /\ fst (processSafe net options chainKey results address s) = results)
  \/ (txs <> [] /\ exists txs',
        Forall2 retained txs txs'
        /\ fst (processSafe net options chainKey results address s) =
           (results ++
            [{| qd_chain := chainKey;
                qd_address := address;
                transactions := txs';
                safeInfo := safeInfoAt net options chainKey address s1;
                safeUrl := generateSafeUrl address chainKey |}])%list).
Proof.
  unfold processSafe, safeInfoAt, bind.
  destruct (fetchQueuedTransactions net address chainKey s) as [txs s1]. simpl.
  set (flags := Js.truthy (showConfirmedSigner options)
                || Js.truthy (showPendingSigner options)).
  assert (Hinfo : exists s2,
    (if flags then fetchSafeInfo net address chainKey else ret None) s1
    = ((if flags then fst (fetchSafeInfo net address chainKey s1) else None), s2)).
  { destruct flags.
    - exists (snd (fetchSafeInfo net address chainKey s1)).
      destruct (fetchSafeInfo net address chainKey s1); reflexivity.
    - exists s1. reflexivity. }
  destruct Hinfo as [s2 ->].
  destruct txs as [|tx rest]; cbn [List.length Nat.eqb].
  - left. split; reflexivity.
  - right. split; [discriminate|].
    destruct (Js.truthy (showTxNote options)).
    + pose proof (attachNotes_retained chainKey (tx :: rest) s2) as Hr.
      destruct (attachNotes net chainKey (tx :: rest) s2) as [txs' s3].
      exists txs'. split; [exact Hr | reflexivity].
    + exists (tx :: rest). split; [apply retained_refl | reflexivity].
Qed.

Lemma fetchQueuedTransactions_cases (address : string) (chainKey : ChainName)
    (s : W * list Event) :
  fst (fetchQueuedTransactions net address chainKey s) = []
  \/ exists data,
       fst (get_queued net (queuedUrl address chainKey) (fst s)) = Some data
       /\ fst (fetchQueuedTransactions net address chainKey s)
          = convertResults data address.
Proof.
  unfold fetchQueuedTransactions, bind, request.
  destruct (get_queued net (queuedUrl address chainKey) (fst s)) as [[data|] w'];
    simpl; [right; exists data; auto | left; reflexivity].
Qed.

Lemma fetchQueuedTransactions_failure (address : string) (chainKey : ChainName)
    (s : W * list Event) :
  fst (get_queued net (queuedUrl address chainKey) (fst s)) = None ->
  fst (fetchQueuedTransactions net address chainKey s) = [].
Proof.
  intros Hfail. unfold fetchQueuedTransactions, bind, request.
  destruct (get_queued net (queuedUrl address chainKey) (fst s)) as [r w'].
  simpl in Hfail. subst r. reflexivity.
Qed.

Lemma processSafe_empty (options : FormatOptions) (chainKey : ChainName)
    (results : list QueuedTransactionData) (address : string)
    (s : W * list Event) :
  fst (fetchQueuedTransactions net address chainKey s) = [] ->
  fst (processSafe net options chainKey results address s) = results.
Proof.
  intros Hnil.
  destruct (processSafe_cases options chainKey results address s)
    as [[_ H] | [Hne _]]; [assumption | contradiction].
Qed.

(** A property of the entries that every push establishes holds of the
    whole result. *)
Lemma fetchAll_invariant (Q : QueuedTransactionData -> Prop)
    (options : FormatOptions) :
  (forall chainKey results address s,
     Forall Q results ->
     Forall Q (fst (processSafe net options chainKey results address s))) ->
  forall safes s,
    Forall Q (fst (fetchAllQueuedTransactions net safes options s)).
Proof.
  intros Hstep safes s. unfold fetchAllQueuedTransactions.
  apply (forEach_invariant _ (Forall Q)); [|constructor].
  intros b entry s' Hb.
  apply (forEach_invariant _ (Forall Q)); [|assumption].
  intros b' a s'' Hb'. apply Hstep. assumption.
Qed.

End Loops.

Section Aggregation.

Context {W : Type} (net : Net W).

(** Every transaction of the result was converted from a record of the
    service, and keeps its counts. *)
Lemma fetchAll_converted (safes : list SafeAddress) (options : FormatOptions)
    (s : W * list Event) :
  Forall (fun d =>
            transactions d <> []
            /\ Forall (fun tx' =>
                         exists item tx,
                           convertToEnhancedFormat item (qd_address d)
                           = Returned (Some tx)
                           /\ retained tx tx') (transactions d))
    (fst (fetchAllQueuedTransactions net safes options s)).
Proof.
  apply fetchAll_invariant. intros chainKey results address s' Hres.
  destruct (processSafe_cases net options chainKey results address s')
    as [[_ ->] | [Hne (txs' & Hret & ->)]]; [assumption|].
  apply Forall_app. split; [assumption|]. constructor; [|constructor].
  cbn [transactions qd_address]. split.
  - intros ->. inversion Hret as [Hnil|]. congruence.
  - destruct (fetchQueuedTransactions_cases net address chainKey s')
      as [Hnil | (data & _ & Hdata)]; [congruence|].
    rewrite Hdata in Hret. clear Hdata Hne.
    assert (Hall : Forall (fun tx => exists item,
              convertToEnhancedFormat item address = Returned (Some tx))
              (convertResults data address)).
    { apply Forall_forall. intros tx Hin.
      destruct (convertResults_In _ _ _ Hin) as (item & _ & _ & Hc).
      exists item. assumption. }
    induction Hret as [|tx tx' l l' Hr Hrest IH]; [constructor|].
    inversion Hall as [|? ? [item Hitem] Hall']; subst.
    constructor; [|apply IH; assumption].
    exists item, tx. split; assumption.
Qed.

End Aggregation.

Lemma retained_counts (tx tx' : QueuedSafeTransaction) :
  retained tx tx' ->
  signedCount tx' = signedCount tx
  /\ confirmationsRequired tx' = confirmationsRequired tx
  /\ confirmations tx' = confirmations tx
  /\ missingSigners tx' = missingSigners tx
  /\ nonce tx' = nonce tx /\ id tx' = id tx /\ safe tx' = safe tx.
Proof. intros [-> | [text ->]]; repeat split; reflexivity. Qed.

(** The signed count of a fetched transaction is the length of an
    array, so it is below [2 ^ 32]. *)
Lemma fetched_signedCount_bound {W : Type} (net : Net W)
    (safes : list SafeAddress) (options : FormatOptions) (s : W * list Event)
    (d : QueuedTransactionData) (tx : QueuedSafeTransaction) :
  In d (fst (fetchAllQueuedTransactions net safes options s)) ->
  In tx (transactions d) ->
  (signedCount tx < 2 ^ 32)%N.
Proof.
  intros Hd Htx.
  pose proof (fetchAll_converted net safes options s) as Hall.
  rewrite Forall_forall in Hall. destruct (Hall d Hd) as [_ Htxs].
  rewrite Forall_forall in Htxs.
  destruct (Htxs tx Htx) as (item & tx0 & Hconv & Hret).
  destruct (convertToEnhancedFormat_Some _ _ _ Hconv) as (body & _ & _ & Hlt & ->).
  destruct (retained_counts _ _ Hret) as (Hc & _).
  rewrite Hc. exact Hlt.
Qed.

(** The case analysis of [getStatusIcon] against the exact cutoff, for a
    threshold below [2 ^ 49] or a count below [2 ^ 32]. *)
Lemma getStatusIcon_bounded (confirmed required : N) :
  (required < 2 ^ 49)%N \/ (confirmed < 2 ^ 32)%N ->
  getStatusIcon confirmed required =
    if (required <=? confirmed)%N then iconReady
    else if (exactCutoff required <=? Z.of_N confirmed)%Z then iconPartial
    else iconAttention.
Proof.
  intros [Hsmall | Hc]; [|apply getStatusIcon_cases; exact Hc].
  unfold getStatusIcon. rewrite exactCutoff_eq, ceil_mul_0_7 by assumption.
  reflexivity.
Qed.

(** C1, with the bound it needs.  For every transaction whose
    [confirmationsRequired] is below [2 ^ 49] or whose [signedCount] is
    below [2 ^ 32] (as it is for every transaction the monitor fetches,
    [fetched_signedCount_bound]) the status icon depends on [signedCount]
    and [confirmationsRequired] alone: it is the ready icon exactly when
    [signedCount >= confirmationsRequired], the partly-signed icon
    exactly when [signedCount >= ceil (confirmationsRequired * 0.7)] (the
    ceiling taken over the rationals) and
    [signedCount < confirmationsRequired], and the needs-attention icon
    otherwise.  Beyond the bound the double product
    [confirmationsRequired * 0.7] can fall below the exact one. *)
Theorem readiness_tier (tx : QueuedSafeTransaction) :
  (confirmationsRequired tx < 2 ^ 49)%N \/ (signedCount tx < 2 ^ 32)%N ->
  let confirmed := signedCount tx in
  let required := confirmationsRequired tx in
  let ready := (required <= confirmed)%N in
  let nearly :=
    (exactCutoff required <= Z.of_N confirmed)%Z /\ (confirmed < required)%N in
  (getStatusIcon confirmed required = iconReady <-> ready)
  /\ (getStatusIcon confirmed required = iconPartial <-> nearly)
  /\ (getStatusIcon confirmed required = iconAttention <-> ~ ready /\ ~ nearly).
Proof.
  intros Hbound confirmed required ready nearly.
  rewrite (getStatusIcon_bounded confirmed required Hbound).
  destruct icons_distinct as (H12 & H13 & H23).
  unfold ready, nearly.
  destruct (N.leb_spec required confirmed) as [Hle | Hgt].
  - intuition (congruence || lia).
  - destruct (Z.leb_spec (exactCutoff required) (Z.of_N confirmed)) as [Hc | Hc];
      intuition (congruence || lia).
Qed.

Example tier_2_of_3 : getStatusIcon 2 3 = iconAttention.
Proof. reflexivity. Qed.

Example tier_7_of_10 : getStatusIcon 7 10 = iconPartial.
Proof. reflexivity. Qed.

Example exactCutoff_3 : exactCutoff 3 = 3%Z.
Proof. reflexivity. Qed.

(** Beyond [2 ^ 50] the double product can be rounded below the exact
    one. *)
Remark rounding_beyond_2_50 :
  Js.Math_ceil (Js.mul_0_7 1125899906842633) = 788129934789843%Z
  /\ exactCutoff 1125899906842633 = 788129934789844%Z.
Proof. split; reflexivity. Qed.

(** C1 as the specification has it fails on a hand-built transaction:
    with a threshold of 1125899906842633 and 788129934789843 signatures,
    one short of the exact cutoff, the header carries the partly-signed
    icon where the exact rule gives the needs-attention one. *)
Lemma tier_beyond_2_50 :
  let tx := Fixture.beyond in
  let confirmed := signedCount tx in
  let required := confirmationsRequired tx in
  getStatusIcon confirmed required = iconPartial
  /\ (Z.of_N confirmed < exactCutoff required)%Z
  /\ ~ ((exactCutoff required <= Z.of_N confirmed)%Z /\ (confirmed < required)%N)
  /\ headerLine tx mainnet Fixture.allOptions
     = chainIcons mainnet ++ " MAINNET - Tx 1 " ++ iconPartial
       ++ " 788129934789843/1125899906842633" ++ nl.
Proof.
  cbv zeta. destruct rounding_beyond_2_50 as [_ Hexact].
  cbn [Fixture.beyond signedCount confirmationsRequired].
  rewrite Hexact.
  split; [reflexivity|]. split; [reflexivity|]. split; [|reflexivity].
  intros [Hle _]. revert Hle. apply Z.lt_nge. reflexivity.
Qed.

Lemma readiness_tier_witness :
  (confirmationsRequired Fixture.queued15 < 2 ^ 49)%N
  /\ getStatusIcon 1 3 = iconAttention
  /\ (getStatusIcon 1 3 = iconAttention
      <-> ~ (3 <= 1)%N /\ ~ ((exactCutoff 3 <= 1)%Z /\ (1 < 3)%N)).
Proof.
  split; [reflexivity|]. split; [reflexivity|].
  exact (proj2 (proj2 (readiness_tier Fixture.queued15 (or_introl eq_refl)))).
Defined.

(** C6. A wallet whose queued-transaction fetch gives an empty sequence,
    as it does when the request fails, pushes no entry, and every entry
    of the aggregated result, hence of [rawData], has a non-empty
    [transactions] sequence. *)
Theorem no_empty_entry {W : Type} (net : Net W) (options : FormatOptions) :
  (forall address chainKey s,
     fst (get_queued net (queuedUrl address chainKey) (fst s)) = None ->
     fst (fetchQueuedTransactions net address chainKey s) = [])
  /\ (forall chainKey results address s,
        fst (fetchQueuedTransactions net address chainKey s) = [] ->
        fst (processSafe net options chainKey results address s) = results)
  /\ (forall safes s d,
        In d (fst (fetchAllQueuedTransactions net safes options s)) ->
        transactions d <> []).
Proof.
  split; [|split].
  - apply fetchQueuedTransactions_failure.
  - intros chainKey results address s. apply processSafe_empty.
  - intros safes s d Hd.
    pose proof (fetchAll_converted net safes options s) as Hall.
    rewrite Forall_forall in Hall. apply (Hall d Hd).
Qed.

(** C10. Every transaction [fetchQueuedTransactions] makes of an answer
    comes from a record of type TRANSACTION; its [signedCount] is the
    record's [confirmationsSubmitted], its [confirmations] are that many
    placeholders ["signed_0"], ["signed_1"], ..., and its
    [missingSigners] is present.  A record of another type is converted
    to null and is in no result. *)
Theorem conversion_invariant (data : SafeClientApiResponse)
    (safeAddress : string) (tx : QueuedSafeTransaction) :
  In tx (convertResults data safeAddress) ->
  (exists item body,
     In item (results data) /\ type item = TRANSACTION
     /\ transaction item = Some body
     /\ convertToEnhancedFormat item safeAddress = Returned (Some tx)
     /\ signedCount tx = confirmationsSubmitted (executionInfo body)
     /\ missingSigners tx
        = Some (map value (exec_missingSigners (executionInfo body))))
  /\ List.length (confirmations tx) = N.to_nat (signedCount tx)
  /\ (forall i c, nth_error (confirmations tx) i = Some c ->
        owner c = "signed_" ++ Js.show (N.of_nat i))
  /\ (forall other, type other <> TRANSACTION ->
        convertToEnhancedFormat other safeAddress = Returned None
        /\ isTransaction other = false).
Proof.
  intros Hin.
  destruct (convertResults_In _ _ _ Hin) as (item & Hitem & Htype & Hconv).
  destruct (convertToEnhancedFormat_Some _ _ _ Hconv)
    as (body & _ & Hbody & Hlt & Htx).
  split; [|split; [|split]].
  - exists item, body. subst tx. repeat split; assumption.
  - subst tx. cbn [confirmations signedCount]. apply Array_from_length.
  - intros i c Hnth. subst tx. cbn [confirmations] in Hnth.
    apply Array_from_nth in Hnth. subst c. reflexivity.
  - intros other Hother. unfold convertToEnhancedFormat, isTransaction.
    destruct (type other); [contradiction | split; reflexivity].
Qed.

Lemma conversion_invariant_witness :
  let data := Fixture.page
                [Fixture.rawLabel;
                 Fixture.rawTransaction 15 3 2 [Fixture.carol]] in
  exists tx,
    convertResults data "0xSafe" = [tx]
    /\ List.length (confirmations tx) = N.to_nat (signedCount tx)
    /\ map owner (confirmations tx) = ["signed_0"; "signed_1"].
Proof.
  eexists. split; [reflexivity|]. split; [|reflexivity].
  refine (proj1 (proj2
    (conversion_invariant
       (Fixture.page [Fixture.rawLabel;
                      Fixture.rawTransaction 15 3 2 [Fixture.carol]])
       "0xSafe" _ _))).
  left. reflexivity.
Defined.

(** ** The run *)

Section RunFacts.

Context {W : Type} (net : Net W).



Lemma monitor_empty (config : SafeWalletMonitorConfig) (s : W * list Event) :
  safes config = [] ->
  monitorSafeWalletQueue net config s
  = (Thrown (PlainError "No safes provided in configuration"), s).
Proof. intros H. unfold monitorSafeWalletQueue. rewrite H. reflexivity. Qed.

Lemma monitor_nonempty (config : SafeWalletMonitorConfig) (s : W * list Event) :
  safes config <> [] ->
  let fetched :=
    fetchAllQueuedTransactions net (safes config) (formatOptions config) s in
  let formatted :=
    formatTransactionData (fst fetched) (signers config) (formatOptions config) in
  monitorSafeWalletQueue net config s
  = (Returned {| totalTransactions := countTransactions (fst fetched);
                 messages := fst formatted;
                 signerSummary := snd formatted;
                 rawData := fst fetched |},
     if sends config (fst fetched)
     then snd (sendNotifications net (notifications config)
                 (Js.join nl (fst formatted)) (snd fetched))
     else snd fetched).
Proof.
  intros Hne. unfold monitorSafeWalletQueue, sends, countTransactions.
  destruct (safes config) as [|safe0 rest] eqn:Hs; [contradiction|].
  cbn [List.length Nat.eqb]. unfold bind.
  destruct (fetchAllQueuedTransactions net (safe0 :: rest) (formatOptions config) s)
    as [data s1]. cbn [fst snd].
  destruct (formatTransactionData data (signers config) (formatOptions config))
    as [msgs summary]. cbn [fst snd].
  destruct (_ && _).
  - destruct (sendNotifications net (notifications config) (Js.join nl msgs) s1)
      as [errors s2]. reflexivity.
  - reflexivity.
Qed.

End RunFacts.

(** C8. The run throws, and then the configuration error, exactly when
    the list of wallets is empty; it does so before any request, the
    world and the trace being as they were.  For a non-empty list it
    returns a result, also when no transaction at all is queued. *)
Theorem configuration_error {W : Type} (net : Net W)
    (config : SafeWalletMonitorConfig) (s : W * list Event) :
  (safes config = [] ->
   monitorSafeWalletQueue net config s
   = (Thrown (PlainError "No safes provided in configuration"), s))
  /\ (safes config <> [] ->
      exists r, fst (monitorSafeWalletQueue net config s) = Returned r)
  /\ ((exists e, fst (monitorSafeWalletQueue net config s) = Thrown e)
      <-> safes config = [])
  /\ (safes config <> [] ->
      (forall url w, fst (get_queued net url w) = None) ->
      exists r, fst (monitorSafeWalletQueue net config s) = Returned r
                /\ totalTransactions r = 0%nat /\ rawData r = []).
Proof.
  split; [|split; [|split]].
  - apply monitor_empty.
  - intros Hne. rewrite (monitor_nonempty net config s Hne). eexists. reflexivity.
  - split.
    + intros [e He]. destruct (safes config) as [|safe0 rest] eqn:Hs; [reflexivity|].
      rewrite (monitor_nonempty net config s) in He by (rewrite Hs; discriminate).
      discriminate.
    + intros Hs. rewrite (monitor_empty net config s Hs). eexists. reflexivity.
  - intros Hne Hfail. rewrite (monitor_nonempty net config s Hne). cbn [fst].
    eexists. split; [reflexivity|]. cbn [totalTransactions rawData].
    assert (Hnil : fst (fetchAllQueuedTransactions net (safes config)
                          (formatOptions config) s) = []).
    { unfold fetchAllQueuedTransactions.
      apply (forEach_invariant _ (fun b => b = [])); [|reflexivity].
      intros b entry s' ->.
      apply (forEach_invariant _ (fun b => b = [])); [|reflexivity].
      intros b a s'' ->.
      apply processSafe_empty, fetchQueuedTransactions_failure, Hfail. }
    rewrite Hnil. split; reflexivity.
Qed.

(** ** Traces *)

Section Traces.

Context {W : Type} (net : Net W).

Lemma emits_ret {A} (a : A) (P : Event -> Prop) : emits (@ret W A a) P.
Proof. intros s. exists []. split; [symmetry; apply app_nil_r | constructor]. Qed.

Lemma emits_bind {A B} (c : M W A) (k : A -> M W B) (P : Event -> Prop) :
  emits c P -> (forall a, emits (k a) P) -> emits (bind c k) P.
Proof.
  intros Hc Hk s. unfold bind.
  destruct (Hc s) as (ev1 & H1 & HP1).
  destruct (c s) as [a s1]. cbn [snd] in H1.
  destruct (Hk a s1) as (ev2 & H2 & HP2).
  exists (ev1 ++ ev2)%list. split.
  - rewrite H2, H1. symmetry. apply app_assoc.
  - apply Forall_app. split; assumption.
Qed.

Lemma emits_request {A} (f : W -> A * W) (e : Event) (P : Event -> Prop) :
  P e -> emits (request f e) P.
Proof.
  intros He s. unfold request. destruct (f (fst s)) as [a w'].
  exists [e]. split; [reflexivity | repeat constructor; assumption].
Qed.

Lemma emits_emit (e : Event) (P : Event -> Prop) : P e -> emits (@emit W e) P.
Proof.
  intros He s. exists [e]. split; [reflexivity | repeat constructor; assumption].
Qed.

Lemma emits_forEach {A B} (f : B -> A -> M W B) (l : list A) (P : Event -> Prop) :
  (forall b a, In a l -> emits (f b a) P) -> forall b, emits (forEach f l b) P.
Proof.
  induction l as [|x l IH]; intros Hf b; simpl.
  - apply emits_ret.
  - apply emits_bind; [apply Hf; left; reflexivity|].
    intros b'. apply IH. intros b'' a Ha. apply Hf. right. assumption.
Qed.

Lemma emits_weaken {A} (c : M W A) (P Q : Event -> Prop) :
  (forall e, P e -> Q e) -> emits c P -> emits c Q.
Proof.
  intros HPQ Hc s. destruct (Hc s) as (ev & H & HP).
  exists ev. split; [assumption | eapply Forall_impl; eassumption].
Qed.

Local Ltac step :=
  repeat first
    [ apply emits_ret
    | apply emits_request; reflexivity
    | apply emits_bind; [|intros ?]
    | match goal with |- emits (match ?x with _ => _ end) _ => destruct x end ].

Lemma fetchQueuedTransactions_emits (address : string) (chainKey : ChainName) :
  emits (fetchQueuedTransactions net address chainKey) (fun e => isGet e = true).
Proof. unfold fetchQueuedTransactions. step. Qed.

Lemma fetchSafeInfo_emits (address : string) (chainKey : ChainName) :
  emits (fetchSafeInfo net address chainKey) (fun e => isGet e = true).
Proof. unfold fetchSafeInfo. step. Qed.

Lemma fetchTransactionDetails_emits (transactionId : string) (chainKey : ChainName) :
  emits (fetchTransactionDetails net transactionId chainKey)
    (fun e => isGet e = true).
Proof. unfold fetchTransactionDetails. step. Qed.

Lemma attachNotes_emits (chainKey : ChainName) (txs : list QueuedSafeTransaction) :
  emits (attachNotes net chainKey txs) (fun e => isGet e = true).
Proof.
  induction txs as [|tx rest IH]; simpl.
  - apply emits_ret.
  - apply emits_bind; [apply fetchTransactionDetails_emits|]. intros d.
    apply emits_bind; [exact IH|]. intros rest'. apply emits_ret.
Qed.

Lemma processSafe_emits (options : FormatOptions) (chainKey : ChainName)
    (results : list QueuedTransactionData) (address : string) :
  emits (processSafe net options chainKey results address)
    (fun e => isGet e = true).
Proof.
  unfold processSafe.
  apply emits_bind; [apply fetchQueuedTransactions_emits|]. intros txs.
  apply emits_bind.
  { destruct (_ || _); [apply fetchSafeInfo_emits | apply emits_ret]. }
  intros info. destruct (_ =? _)%nat; [apply emits_ret|].
  apply emits_bind; [|intros ?; apply emits_ret].
  destruct (Js.truthy _); [apply attachNotes_emits | apply emits_ret].
Qed.

(** The aggregation only sends GET requests. *)
Lemma fetchAll_emits (safes : list SafeAddress) (options : FormatOptions) :
  emits (fetchAllQueuedTransactions net safes options) (fun e => isGet e = true).
Proof.
  unfold fetchAllQueuedTransactions.
  apply emits_forEach. intros b entry _.
  apply emits_forEach. intros b' a _. apply processSafe_emits.
Qed.

(** A channel delivers only when it is enabled. *)
Lemma sendOne_emits (config : NotificationConfig) (message : string) :
  emits (sendOne net config message)
    (fun e => isDelivery e = true /\ enabled config = true).
Proof.
  destruct config as [e colored | e botToken chatId dn pm | e url headers];
    cbn [sendOne enabled];
    unfold sendConsoleNotification, sendTelegramNotification,
      sendWebhookNotification;
    destruct e; cbn [negb]; try apply emits_ret.
  - destruct colored as [[|]|];
      (apply emits_bind; [apply emits_emit; split; reflexivity
                         | intros ?; apply emits_ret]).
  - destruct (negb (Js.nonEmpty botToken)); [apply emits_ret|].
    destruct (negb (Js.nonEmpty chatId)); [apply emits_ret|].
    apply emits_bind; [apply emits_request; split; reflexivity|].
    intros [|]; apply emits_ret.
  - apply emits_bind; [apply emits_request; split; reflexivity|].
    intros [|]; apply emits_ret.
Qed.

(** The dispatcher records its call and then the deliveries of the
    enabled channels. *)
Lemma sendNotifications_trace (configs : list NotificationConfig)
    (message : string) (s : W * list Event) :
  exists ev,
    snd (snd (sendNotifications net configs message s))
    = (snd s ++ Dispatch configs message :: ev)%list
    /\ Forall (fun e => isDelivery e = true
                        /\ exists c, In c configs /\ enabled c = true) ev.
Proof.
  unfold sendNotifications.
  match goal with |- context [forEach ?f configs []] => set (body := f) end.
  set (s1 := (fst s, (snd s ++ [Dispatch configs message])%list)).
  assert (Hloop : emits (forEach body configs [])
    (fun e => isDelivery e = true /\ exists c, In c configs /\ enabled c = true)).
  { apply emits_forEach. intros b c Hc. unfold body.
    apply emits_bind.
    - eapply emits_weaken; [|apply sendOne_emits].
      intros e [Hd He]. split; [assumption | exists c; split; assumption].
    - intros [u | err]; apply emits_ret. }
  destruct (Hloop s1) as (ev & Htr & Hev).
  exists ev. split; [|assumption].
  change (snd (snd (forEach body configs [] s1))
          = (snd s ++ Dispatch configs message :: ev)%list).
  rewrite Htr. unfold s1. cbn [snd]. rewrite <- app_assoc. reflexivity.
Qed.

End Traces.

Lemma sends_true (config : SafeWalletMonitorConfig)
    (data : list QueuedTransactionData) :
  sends config data = true
  <-> (0 < countTransactions data)%nat /\ notifications config <> [].
Proof.
  unfold sends. rewrite andb_true_iff, !Nat.ltb_lt.
  destruct (notifications config); simpl; split; intros [H1 H2];
    split; try assumption; try lia; congruence.
Qed.

(** C5, as the code has it.  In a run that starts with an empty trace,
    the dispatcher is called exactly when [totalTransactions > 0] and the
    list of channels is non-empty, whether or not a channel is enabled;
    it is called with the whole list and the joined message.  A channel
    delivers (a console line, a POST request) only when
    [totalTransactions > 0] and that channel is enabled; so with no
    transaction, no channel, or only disabled channels nothing is
    delivered. *)
Theorem dispatch_guard {W : Type} (net : Net W)
    (config : SafeWalletMonitorConfig) (w w' : W)
    (r : SafeWalletMonitorResult) (tr : list Event) :
  monitorSafeWalletQueue net config (w, []) = (Returned r, (w', tr)) ->
  ((exists configs message, In (Dispatch configs message) tr)
   <-> (0 < totalTransactions r)%nat /\ notifications config <> [])
  /\ (forall configs message,
        In (Dispatch configs message) tr ->
        configs = notifications config
        /\ message = Js.join nl (messages r))
  /\ (forall e, In e tr -> isDelivery e = true ->
        (0 < totalTransactions r)%nat
        /\ exists c, In c (notifications config) /\ enabled c = true).
Proof.
  intros Hrun.
  destruct (safes config) as [|safe0 rest] eqn:Hs.
  { rewrite (monitor_empty net config _ Hs) in Hrun. discriminate. }
  rewrite (monitor_nonempty net config (w, [])) in Hrun
    by (rewrite Hs; discriminate).
  rewrite Hs in Hrun.
  destruct (fetchAll_emits net (safe0 :: rest) (formatOptions config) (w, []))
    as (gets & Hgets & Hall).
  destruct (fetchAllQueuedTransactions net (safe0 :: rest) (formatOptions config)
              (w, [])) as [data s1].
  cbn [fst snd] in Hrun, Hgets. cbn [app] in Hgets.
  assert (HnoD : forall configs message, ~ In (Dispatch configs message) gets).
  { intros configs message Hin. rewrite Forall_forall in Hall.
    specialize (Hall _ Hin). discriminate. }
  assert (HnoDel : forall e, In e gets -> isDelivery e = true -> False).
  { intros e Hin Hd. rewrite Forall_forall in Hall. specialize (Hall _ Hin).
    destruct e; discriminate. }
  pose proof (sends_true config data) as Hsends.
  destruct (sends config data).
  - destruct (sendNotifications_trace net (notifications config)
                (Js.join nl (fst (formatTransactionData data (signers config)
                                    (formatOptions config)))) s1)
      as (ev & Htr & Hev).
    rewrite Hgets in Htr.
    injection Hrun as Hr Hst. subst r. cbn [totalTransactions messages].
    apply (f_equal snd) in Hst. cbn [snd] in Hst. rewrite Htr in Hst. subst tr.
    rewrite Forall_forall in Hev.
    split; [|split].
    + split; [intros _; apply Hsends; reflexivity|].
      intros _. eexists. eexists. apply in_or_app. right. left. reflexivity.
    + intros configs message Hin. apply in_app_or in Hin.
      destruct Hin as [Hin | [Heq | Hin]].
      * destruct (HnoD _ _ Hin).
      * injection Heq as <- <-. split; reflexivity.
      * destruct (Hev _ Hin) as [Hd _]. discriminate.
    + intros e Hin Hd. apply in_app_or in Hin.
      destruct Hin as [Hin | [Heq | Hin]].
      * destruct (HnoDel e Hin Hd).
      * subst e. discriminate.
      * split; [apply Hsends; reflexivity | apply (Hev _ Hin)].
  - injection Hrun as Hr Hst. subst r. cbn [totalTransactions messages].
    apply (f_equal snd) in Hst. cbn [snd] in Hst. rewrite Hgets in Hst. subst tr.
    split; [|split].
    + split.
      * intros (configs & message & Hin). destruct (HnoD _ _ Hin).
      * intros H. apply Hsends in H. discriminate.
    + intros configs message Hin. destruct (HnoD _ _ Hin).
    + intros e Hin Hd. destruct (HnoDel e Hin Hd).
Qed.

(** ** The signed and the unsigned owners *)

Lemma includes_In (l : list string) (x : string) :
  Js.includes l x = true <-> In x l.
Proof.
  induction l as [|y l IH]; simpl.
  - split; [discriminate | tauto].
  - rewrite orb_true_iff, IH, String.eqb_eq. tauto.
Qed.

Lemma includes_lower (l : list string) (o : string) :
  Js.includes (map Js.toLowerCase l) (Js.toLowerCase o) = true
  <-> exists m, In m l /\ compareAddresses m o = true.
Proof.
  rewrite includes_In, in_map_iff. unfold compareAddresses.
  split; intros (m & H1 & H2); exists m.
  - split; [assumption | apply String.eqb_eq; assumption].
  - split; [apply String.eqb_eq; assumption | assumption].
Qed.

Lemma filter_split {A} (p : A -> bool) (l : list A) :
  Permutation (filter p l ++ filter (fun x => negb (p x)) l) l.
Proof.
  induction l as [|x l IH]; simpl; [constructor|].
  destruct (p x); simpl.
  - constructor. assumption.
  - symmetry. apply Permutation_cons_app. symmetry. assumption.
Qed.

Lemma append_empty_r (s : string) : s ++ "" = s.
Proof. induction s as [|c s IH]; simpl; [reflexivity | rewrite IH; reflexivity]. Qed.

Lemma append_assoc (a b c : string) : (a ++ b) ++ c = a ++ (b ++ c).
Proof. induction a as [|x a IH]; simpl; [reflexivity | rewrite IH; reflexivity]. Qed.

Lemma addSignerLine_append (signers : list SignerInfo) (l : list string)
    (label icon message : string) :
  addSignerLine signers l label icon message
  = message ++ addSignerLine signers l label icon "".
Proof.
  unfold addSignerLine. destruct (0 <? List.length l)%nat.
  - reflexivity.
  - symmetry. apply append_empty_r.
Qed.

(** C9. When [missingSigners] is absent or empty, the signed and the
    unsigned owners, found by case-insensitive membership in the
    confirmations, partition the owner list: together they are the
    owners, and no signed owner is, even up to case, an unsigned one. *)
Theorem fallback_partition (transaction : QueuedSafeTransaction)
    (safeOwners : list string) :
  missingSigners transaction = None \/ missingSigners transaction = Some [] ->
  let signed := fst (signerSets transaction safeOwners) in
  let notSigned := snd (signerSets transaction safeOwners) in
  Permutation (signed ++ notSigned) safeOwners
  /\ (forall o, In o safeOwners <-> In o signed \/ In o notSigned)
  /\ (forall o o', In o signed -> In o' notSigned ->
        o <> o' /\ compareAddresses o o' = false)
  /\ (forall o, In o signed <->
        In o safeOwners
        /\ exists c, In c (confirmations transaction)
                     /\ compareAddresses (owner c) o = true).
Proof.
  intros Hmiss.
  assert (Hhas : hasMissingSigners transaction = false).
  { unfold hasMissingSigners. destruct Hmiss as [-> | ->]; reflexivity. }
  unfold signerSets. rewrite Hhas. cbn [fst snd].
  set (signedAddresses :=
         map (fun c => Js.toLowerCase (owner c)) (confirmations transaction)).
  set (p := fun o => Js.includes signedAddresses (Js.toLowerCase o)).
  assert (Hperm : Permutation
            (filter p safeOwners ++ filter (fun o => negb (p o)) safeOwners)
            safeOwners) by apply filter_split.
  split; [exact Hperm|]. split; [|split].
  - intros o. rewrite <- in_app_iff. split; intros H.
    + eapply Permutation_in; [symmetry; exact Hperm | exact H].
    + eapply Permutation_in; [exact Hperm | exact H].
  - intros o o' Ho Ho'.
    apply filter_In in Ho. destruct Ho as [_ Ho].
    apply filter_In in Ho'. destruct Ho' as [_ Ho'].
    apply negb_true_iff in Ho'. unfold p in Ho, Ho'. split.
    + intros ->. congruence.
    + unfold compareAddresses. destruct (String.eqb_spec (Js.toLowerCase o)
                                           (Js.toLowerCase o')) as [Heq | _];
        [|reflexivity].
      rewrite Heq in Ho. congruence.
  - intros o. rewrite filter_In. unfold p, signedAddresses.
    rewrite <- (map_map owner Js.toLowerCase), includes_lower.
    split; intros [Ho (m & Hm & Hcmp)]; (split; [exact Ho|]).
    + apply in_map_iff in Hm. destruct Hm as (c & <- & Hc). exists c. auto.
    + exists (owner m). split; [apply in_map; assumption | assumption].
Qed.

Lemma fallback_partition_witness :
  let tx := setConfirmations Fixture.queued15
              [{| owner := Js.toLowerCase Fixture.bob; submissionDate := 0;
                  signature := ""; signatureType := "ETH_SIGN" |}] in
  let tx := {| nonce := nonce tx; signedCount := signedCount tx;
               confirmationsRequired := confirmationsRequired tx;
               confirmations := confirmations tx; missingSigners := Some [];
               id := id tx; note := note tx; safe := safe tx |} in
  let owners := [Fixture.alice; Fixture.bob; Fixture.carol] in
  signerSets tx owners = ([Fixture.bob], [Fixture.alice; Fixture.carol])
  /\ Permutation (fst (signerSets tx owners) ++ snd (signerSets tx owners)) owners.
Proof.
  split; [reflexivity|].
  refine (proj1 (fallback_partition _ _ _)). right. reflexivity.
Defined.

(** C2. When [missingSigners] is present and non-empty and the owners
    are known, the unsigned owners the formatter renders are
    [missingSigners] itself, entry for entry (so also after case
    normalisation), whatever the confirmations hold; the signed owners
    are the owners that no entry of [missingSigners] equals up to
    case. *)
Theorem missing_signers_authoritative (transaction : QueuedSafeTransaction)
    (safeOwners missing : list string) :
  missingSigners transaction = Some missing -> missing <> [] ->
  let signed := fst (signerSets transaction safeOwners) in
  let notSigned := snd (signerSets transaction safeOwners) in
  notSigned = missing
  /\ map Js.toLowerCase notSigned = map Js.toLowerCase missing
  /\ (forall o, In o signed <->
        In o safeOwners
        /\ forall m, In m missing -> compareAddresses m o = false)
  /\ (forall confs,
        signerSets (setConfirmations transaction confs) safeOwners
        = signerSets transaction safeOwners)
  /\ (forall chain signers options,
        safeOwners <> [] ->
        Js.truthy (showPendingSigner options) = true ->
        formatTransactionMessage transaction chain (Some safeOwners) signers options
        = headerLine transaction chain options ++ noteLine transaction options
          ++ (if Js.truthy (showConfirmedSigner options)
              then addSignerLine signers signed "Signed" iconSigned ""
              else "")
          ++ "    " ++ iconPending ++ " Not Signed: "
          ++ Js.join ", "
               (map (fun addr => getSignerHandle addr signers None) missing)
          ++ nl).
Proof.
  intros Hmiss Hne.
  assert (Hhas : forall confs,
            hasMissingSigners (setConfirmations transaction confs) = true).
  { intros confs. unfold hasMissingSigners. cbn [setConfirmations missingSigners].
    rewrite Hmiss. destruct missing; [contradiction | reflexivity]. }
  assert (Hhas0 : hasMissingSigners transaction = true).
  { unfold hasMissingSigners. rewrite Hmiss.
    destruct missing; [contradiction | reflexivity]. }
  assert (Hsets : signerSets transaction safeOwners
                  = (filter (fun o => negb (Js.includes (map Js.toLowerCase missing)
                                              (Js.toLowerCase o))) safeOwners,
                     missing)).
  { unfold signerSets. rewrite Hhas0, Hmiss. reflexivity. }
  rewrite Hsets. cbn [fst snd].
  split; [reflexivity|]. split; [reflexivity|]. split; [|split].
  - intros o. rewrite filter_In, negb_true_iff. split; intros [Ho Hno]; (split; [exact Ho|]).
    + intros m Hm. destruct (compareAddresses m o) eqn:Hc; [|reflexivity].
      assert (Hin : Js.includes (map Js.toLowerCase missing) (Js.toLowerCase o) = true)
        by (apply includes_lower; exists m; auto).
      congruence.
    + destruct (Js.includes _ _) eqn:Hi; [|reflexivity].
      apply includes_lower in Hi. destruct Hi as (m & Hm & Hc).
      rewrite (Hno m Hm) in Hc. discriminate.
  - intros confs. unfold signerSets at 1. rewrite Hhas.
    cbn [setConfirmations missingSigners]. rewrite Hmiss. reflexivity.
  - intros chain signers options Hown Hpend.
    unfold formatTransactionMessage. rewrite Hpend, orb_true_r.
    destruct safeOwners as [|o0 rest] eqn:Ho; [contradiction|].
    cbn [List.length Nat.ltb Nat.leb andb]. rewrite <- Ho in *. rewrite Hsets.
    rewrite addSignerLine_append.
    assert (Hline : addSignerLine signers missing "Not Signed" iconPending ""
                    = "    " ++ iconPending ++ " Not Signed: "
                      ++ Js.join ", "
                           (map (fun addr => getSignerHandle addr signers None) missing)
                      ++ nl).
    { unfold addSignerLine. destruct missing; [contradiction | reflexivity]. }
    rewrite Hline.
    destruct (Js.truthy (showConfirmedSigner options)).
    + rewrite (addSignerLine_append _ _ "Signed"). rewrite !append_assoc. reflexivity.
    + rewrite !append_assoc. reflexivity.
Qed.

Lemma missing_signers_authoritative_witness :
  let owners := [Fixture.alice; Fixture.bob; Fixture.carol] in
  signerSets Fixture.queued15 owners = ([Fixture.alice], [Fixture.bob; Fixture.carol])
  /\ snd (signerSets Fixture.queued15 owners) = [Fixture.bob; Fixture.carol].
Proof.
  split; [reflexivity|].
  refine (proj1 (missing_signers_authoritative Fixture.queued15 _
                   [Fixture.bob; Fixture.carol] _ _)).
  - reflexivity.
  - discriminate.
Defined.

(** ** The signer summary *)

Lemma lookup_increment (k k' : string) (o : Summary) :
  lookup k (increment k' o)
  = if String.eqb k' k then Some (countOf k o + 1)%N else lookup k o.
Proof.
  unfold countOf. induction o as [|[k0 n] o IH]; simpl.
  - destruct (String.eqb_spec k' k); reflexivity.
  - destruct (String.eqb_spec k0 k') as [-> | Hne]; simpl.
    + destruct (String.eqb_spec k' k); reflexivity.
    + destruct (String.eqb_spec k0 k) as [-> | Hne'].
      * destruct (String.eqb_spec k' k); [congruence | reflexivity].
      * exact IH.
Qed.

Lemma countOf_increment (k k' : string) (o : Summary) :
  countOf k (increment k' o)
  = (countOf k o + if String.eqb k' k then 1 else 0)%N.
Proof.
  unfold countOf at 1. rewrite lookup_increment.
  destruct (String.eqb k' k); [reflexivity|].
  fold (countOf k o). lia.
Qed.

Lemma positive_increment (k' : string) (o : Summary) :
  positive o -> positive (increment k' o).
Proof.
  intros Hpos k n. rewrite lookup_increment.
  destruct (String.eqb k' k).
  - intros H. injection H as <-. lia.
  - apply Hpos.
Qed.

Lemma tally_count (k : string) (l : list string) (o : Summary) :
  countOf k (tally l o)
  = (countOf k o + N.of_nat (count_occ string_dec (map Js.toLowerCase l) k))%N
  /\ (positive o -> positive (tally l o)).
Proof.
  revert o. induction l as [|a l IH]; intros o; simpl.
  - split; [lia | auto].
  - destruct (IH (increment (Js.toLowerCase a) o)) as [Hc Hp]. split.
    + rewrite Hc, countOf_increment.
      destruct (string_dec (Js.toLowerCase a) k) as [-> | Hne].
      * rewrite String.eqb_refl. lia.
      * destruct (String.eqb_spec (Js.toLowerCase a) k); [contradiction | lia].
    + intros H. apply Hp, positive_increment, H.
Qed.

Lemma countMissing_count (k : string) (txs : list QueuedSafeTransaction)
    (o : Summary) :
  countOf k (countMissing o txs)
  = (countOf k o
     + N.of_nat (count_occ string_dec
                   (map Js.toLowerCase (flat_map missingOf txs)) k))%N
  /\ (positive o -> positive (countMissing o txs)).
Proof.
  unfold countMissing. revert o. induction txs as [|tx txs IH]; intros o; simpl.
  - split; [lia | auto].
  - set (o' := match missingSigners tx with
               | Some l => fold_left _ l o
               | None => o
               end).
    assert (Ho' : o' = tally (missingOf tx) o).
    { unfold o', missingOf, tally. destruct (missingSigners tx); reflexivity. }
    destruct (IH o') as [Hc Hp]. rewrite Ho' in *.
    destruct (tally_count k (missingOf tx) o) as [Hc' Hp']. split.
    + rewrite Hc, Hc', map_app, count_occ_app. lia.
    + intros H. apply Hp, Hp', H.
Qed.

Lemma formatTransactionData_summary (data : list QueuedTransactionData)
    (signers : list SignerInfo) (options : FormatOptions) :
  snd (formatTransactionData data signers options)
  = fold_left (fun summary d => countMissing summary (transactions d)) data [].
Proof.
  unfold formatTransactionData.
  match goal with |- context [fold_left ?f data ([], [])] => set (step := f) end.
  assert (H : forall acc,
            snd (fold_left step data acc)
            = fold_left (fun summary d => countMissing summary (transactions d))
                data (snd acc)).
  { induction data as [|d data IH]; intros acc; simpl; [reflexivity|].
    rewrite IH. reflexivity. }
  specialize (H ([], [])). destruct (fold_left step data ([], [])) as [m sm].
  exact H.
Qed.

Lemma summary_count (k : string) (data : list QueuedTransactionData)
    (o : Summary) :
  countOf k (fold_left (fun summary d => countMissing summary (transactions d))
               data o)
  = (countOf k o
     + N.of_nat (count_occ string_dec
                   (map Js.toLowerCase
                      (flat_map missingOf (flat_map transactions data))) k))%N
  /\ (positive o ->
      positive (fold_left (fun summary d => countMissing summary (transactions d))
                  data o)).
Proof.
  revert o. induction data as [|d data IH]; intros o; simpl.
  - split; [lia | auto].
  - destruct (IH (countMissing o (transactions d))) as [Hc Hp].
    destruct (countMissing_count k (transactions d) o) as [Hc' Hp']. split.
    + rewrite Hc, Hc', flat_map_app, map_app, count_occ_app. lia.
    + intros H. apply Hp, Hp', H.
Qed.

(** Without a repeated address in a list, entries and transactions
    count the same. *)
Lemma occurrences_transactions (k : string) (txs : list QueuedSafeTransaction) :
  Forall (fun tx => NoDup (map Js.toLowerCase (missingOf tx))) txs ->
  count_occ string_dec (map Js.toLowerCase (flat_map missingOf txs)) k
  = List.length
      (filter (fun tx => Js.includes (map Js.toLowerCase (missingOf tx)) k) txs).
Proof.
  induction 1 as [|tx txs Hnd _ IH]; simpl; [reflexivity|].
  rewrite map_app, count_occ_app, IH.
  destruct (Js.includes (map Js.toLowerCase (missingOf tx)) k) eqn:Hi.
  - apply includes_In in Hi.
    rewrite (proj1 (NoDup_count_occ' string_dec _) Hnd k Hi). reflexivity.
  - assert (Hn : ~ In k (map Js.toLowerCase (missingOf tx))).
    { intros Hin. apply includes_In in Hin. congruence. }
    rewrite (proj1 (count_occ_not_In string_dec _ _) Hn). reflexivity.
Qed.

(** C3, as the code has it.  For a case-normalised address [k] that is
    not the name of a property every object inherits ([__proto__],
    [constructor]), the summary assigns to [k] the number of entries of
    the [missingSigners] lists, over all transactions of all wallets,
    that are this address up to case; it has a key for the address
    exactly when there is such an entry.  When no list names an address
    twice, that number is the number of transactions whose
    [missingSigners] holds the address. *)
Theorem signer_summary_counts (data : list QueuedTransactionData)
    (signers : list SignerInfo) (options : FormatOptions) (k : string) :
  plainKey k ->
  let summary := snd (formatTransactionData data signers options) in
  lookup k summary
  = (if (occurrences k data =? 0)%N then None else Some (occurrences k data))
  /\ (lookup k summary <> None <->
      exists d tx a, In d data /\ In tx (transactions d)
                     /\ In a (missingOf tx) /\ Js.toLowerCase a = k)
  /\ (Forall (fun tx => NoDup (map Js.toLowerCase (missingOf tx)))
        (flat_map transactions data) ->
      occurrences k data = transactionsMissing k data).
Proof.
  intros _.
  intros summary. unfold summary. rewrite formatTransactionData_summary.
  destruct (summary_count k data []) as [Hc Hp].
  assert (Hpos : positive []) by (intros ? ? H; discriminate).
  specialize (Hp Hpos). cbn [countOf lookup] in Hc. rewrite N.add_0_l in Hc.
  fold (allMissing data) in Hc. fold (occurrences k data) in Hc.
  match type of Hp with positive ?f => set (final := f) in * end.
  assert (Hlook : lookup k final
            = if (occurrences k data =? 0)%N then None
              else Some (occurrences k data)).
  { unfold countOf in Hc. destruct (lookup k final) as [n|] eqn:Hl.
    - pose proof (Hp k n Hl). subst n.
      destruct (N.eqb_spec (occurrences k data) 0); [lia | reflexivity].
    - rewrite <- Hc. reflexivity. }
  split; [exact Hlook|]. split.
  - rewrite Hlook. unfold occurrences, allMissing.
    destruct (N.eqb_spec (N.of_nat (count_occ string_dec
                (map Js.toLowerCase (flat_map missingOf (flat_map transactions data))) k)) 0)
      as [Hz | Hnz].
    + split; [congruence|]. intros (d & tx & a & Hd & Htx & Ha & Hk). exfalso.
      assert (Hin : In k (map Js.toLowerCase
                            (flat_map missingOf (flat_map transactions data)))).
      { apply in_map_iff. exists a. split; [assumption|].
        apply in_flat_map. exists tx. split; [|assumption].
        apply in_flat_map. exists d. split; assumption. }
      apply (count_occ_In string_dec) in Hin. lia.
    + split; [|discriminate]. intros _.
      assert (Hin : In k (map Js.toLowerCase
                            (flat_map missingOf (flat_map transactions data)))).
      { apply (count_occ_In string_dec). lia. }
      apply in_map_iff in Hin. destruct Hin as (a & Hk & Ha).
      apply in_flat_map in Ha. destruct Ha as (tx & Htx & Ha).
      apply in_flat_map in Htx. destruct Htx as (d & Hd & Htx).
      exists d, tx, a. auto.
  - intros Hnd. unfold occurrences, transactionsMissing, allMissing.
    rewrite (occurrences_transactions k _ Hnd). reflexivity.
Qed.

(** ** A wallet whose ownership lookup fails *)

Lemma ChainName_eqb_eq (a b : ChainName) : ChainName_eqb a b = true <-> a = b.
Proof. destruct a, b; split; intros H; try reflexivity; discriminate. Qed.

Lemma pushAddress_new (acc : list (ChainName * list string)) (c : ChainName)
    (a : string) :
  exists l, In (c, l) (pushAddress acc c a) /\ In a l.
Proof.
  induction acc as [|[c' l'] acc IH]; simpl.
  - exists [a]. split; left; reflexivity.
  - destruct (ChainName_eqb c' c) eqn:Hc.
    + apply ChainName_eqb_eq in Hc. subst c'.
      exists (l' ++ [a])%list. split; [left; reflexivity|].
      apply in_or_app. right. left. reflexivity.
    + destruct IH as (l & Hl & Ha). exists l. split; [right|]; assumption.
Qed.

Lemma pushAddress_old (acc : list (ChainName * list string)) (c c0 : ChainName)
    (a a0 : string) (l0 : list string) :
  In (c0, l0) acc -> In a0 l0 ->
  exists l, In (c0, l) (pushAddress acc c a) /\ In a0 l.
Proof.
  induction acc as [|[c' l'] acc IH]; simpl; [intros []|].
  intros [Heq | Hin] Ha0.
  - injection Heq as -> ->. destruct (ChainName_eqb c0 c).
    + exists (l0 ++ [a])%list. split; [left; reflexivity|].
      apply in_or_app. left. assumption.
    + exists l0. split; [left; reflexivity | assumption].
  - destruct (IH Hin Ha0) as (l & Hl & Ha).
    destruct (ChainName_eqb c' c).
    + exists l0. split; [right|]; assumption.
    + exists l. split; [right|]; assumption.
Qed.

(** Every configured wallet is in the group of its chain. *)
Lemma safesByChain_In (safes : list SafeAddress) (safe0 : SafeAddress) :
  In safe0 safes ->
  exists l, In (chain safe0, l) (safesByChain safes) /\ In (address safe0) l.
Proof.
  unfold safesByChain.
  assert (H : forall acc,
            (exists l, In (chain safe0, l) acc /\ In (address safe0) l)
            \/ In safe0 safes ->
            exists l,
              In (chain safe0, l)
                (fold_left (fun acc safe =>
                              pushAddress acc (chain safe) (address safe))
                   safes acc)
              /\ In (address safe0) l).
  { induction safes as [|x safes IH]; intros acc; simpl.
    - intros [H | []]. exact H.
    - intros [(l & Hl & Ha) | [-> | Hin]]; apply IH.
      + left. eapply pushAddress_old; eassumption.
      + left. apply pushAddress_new.
      + right. assumption. }
  intros Hin. apply H. right. assumption.
Qed.

Section Reach.

Context {W : Type} (net : Net W).

Lemma forEach_reaches {A B} (f : B -> A -> M W B) (P : B -> Prop) (x : A)
    (l : list A) :
  (forall b s, P (fst (f b x s))) ->
  (forall b a s, P b -> P (fst (f b a s))) ->
  In x l -> forall b s, P (fst (forEach f l b s)).
Proof.
  intros Hx Hkeep. induction l as [|y l IH]; intros Hin b s; [destruct Hin|].
  simpl. unfold bind. destruct Hin as [-> | Hin].
  - specialize (Hx b s). destruct (f b x s) as [b' s'].
    apply forEach_invariant; assumption.
  - destruct (f b y s) as [b' s']. apply IH. assumption.
Qed.

Lemma processSafe_keeps (options : FormatOptions) (chainKey : ChainName)
    (results : list QueuedTransactionData) (address : string)
    (s : W * list Event) (d : QueuedTransactionData) :
  In d results ->
  In d (fst (processSafe net options chainKey results address s)).
Proof.
  intros Hd.
  destruct (processSafe_cases net options chainKey results address s)
    as [[_ ->] | [_ (txs' & _ & ->)]]; [assumption|].
  apply in_or_app. left. assumption.
Qed.

Lemma fetchQueuedTransactions_answer (address : string) (chainKey : ChainName)
    (data : SafeClientApiResponse) (s : W * list Event) :
  fst (get_queued net (queuedUrl address chainKey) (fst s)) = Some data ->
  fst (fetchQueuedTransactions net address chainKey s)
  = convertResults data address.
Proof.
  intros H. unfold fetchQueuedTransactions, bind, request.
  destruct (get_queued net (queuedUrl address chainKey) (fst s)) as [r w'].
  simpl in H. subst r. reflexivity.
Qed.

Lemma fetchSafeInfo_failure (address : string) (chainKey : ChainName)
    (s : W * list Event) :
  fst (get_safe net (safeInfoUrl address chainKey) (fst s)) = None ->
  fst (fetchSafeInfo net address chainKey s) = None.
Proof.
  intros H. unfold fetchSafeInfo, bind, request.
  destruct (get_safe net (safeInfoUrl address chainKey) (fst s)) as [r w'].
  simpl in H. subst r. reflexivity.
Qed.

End Reach.

Lemma formatTransactionMessage_no_owners (transaction : QueuedSafeTransaction)
    (chain : ChainName) (signers : list SignerInfo) (options : FormatOptions) :
  formatTransactionMessage transaction chain None signers options
  = headerLine transaction chain options ++ noteLine transaction options.
Proof.
  unfold formatTransactionMessage. cbn [List.length Nat.ltb Nat.leb].
  rewrite andb_false_r. reflexivity.
Qed.

(** C7. When the ownership lookup of a configured wallet fails while
    its queued-transaction lookup answers with a non-empty list, the
    wallet has an entry in the result, with [safeInfo] null and the
    transactions retained; for them the formatter writes the header
    line, with the status icon when that is enabled, and the note line,
    and neither the signed nor the unsigned line. *)
Theorem ownership_failure {W : Type} (net : Net W) (safes : list SafeAddress)
    (options : FormatOptions) (a : string) (c : ChainName)
    (data : SafeClientApiResponse) (s : W * list Event) :
  In {| address := a; chain := c |} safes ->
  (forall w, fst (get_safe net (safeInfoUrl a c) w) = None) ->
  (forall w, fst (get_queued net (queuedUrl a c) w) = Some data) ->
  convertResults data a <> [] ->
  exists d,
    In d (fst (fetchAllQueuedTransactions net safes options s))
    /\ qd_address d = a /\ qd_chain d = c /\ safeInfo d = None
    /\ Forall2 retained (convertResults data a) (transactions d)
    /\ (forall tx signers,
          formatTransactionMessage tx c (option_map owners (safeInfo d))
            signers options
          = headerLine tx c options ++ noteLine tx options)
    /\ (forall tx,
          Js.truthy (showStatusIcon options) = true ->
          headerLine tx c options
          = (if Js.truthy (showChainIcon options) then getChainIcon c else "")
            ++ " " ++ Js.toUpperCase (chainString c) ++ " - Tx "
            ++ Js.show (nonce tx) ++ " "
            ++ getStatusIcon (signedCount tx) (confirmationsRequired tx)
            ++ " " ++ Js.show (signedCount tx) ++ "/"
            ++ Js.show (confirmationsRequired tx) ++ nl).
Proof.
  intros Hin Hsafe Hqueued Hne.
  set (good := fun d : QueuedTransactionData =>
         qd_address d = a /\ qd_chain d = c /\ safeInfo d = None
         /\ Forall2 retained (convertResults data a) (transactions d)).
  assert (Hreach : exists d,
            In d (fst (fetchAllQueuedTransactions net safes options s)) /\ good d).
  { destruct (safesByChain_In safes _ Hin) as (l & Hl & Ha).
    cbn [chain address] in Hl, Ha.
    unfold fetchAllQueuedTransactions.
    apply (forEach_reaches
             (fun results entry =>
                forEach (processSafe net options (fst entry)) (snd entry) results)
             (fun results => exists d, In d results /\ good d) (c, l));
      [| |exact Hl].
    - intros b s'. cbn [fst snd].
      apply (forEach_reaches (processSafe net options c)
               (fun results => exists d, In d results /\ good d) a);
        [| |exact Ha].
      + intros b' s''.
        destruct (processSafe_cases net options c b' a s'')
          as [[Hnil _] | [_ (txs' & Hret & ->)]].
        * rewrite (fetchQueuedTransactions_answer net a c data s'' (Hqueued _))
            in Hnil. contradiction.
        * eexists. split; [apply in_or_app; right; left; reflexivity|].
          unfold good. cbn [qd_address qd_chain safeInfo transactions].
          repeat split.
          -- unfold safeInfoAt. destruct (_ || _); [|reflexivity].
             apply fetchSafeInfo_failure, Hsafe.
          -- rewrite (fetchQueuedTransactions_answer net a c data s'' (Hqueued _))
               in Hret. exact Hret.
      + intros b' a' s'' (d & Hd & Hgood). exists d.
        split; [apply processSafe_keeps|]; assumption.
    - intros b entry s' Hb.
      apply (forEach_invariant (processSafe net options (fst entry))
               (fun results => exists d, In d results /\ good d));
        [|exact Hb].
      intros b' a' s'' (d & Hd & Hgood). exists d.
      split; [apply processSafe_keeps|]; assumption. }
  destruct Hreach as (d & Hd & Ha & Hc & Hinfo & Hret).
  exists d. repeat split; try assumption.
  - intros tx signers. rewrite Hinfo. apply formatTransactionMessage_no_owners.
  - intros tx Hstatus. unfold headerLine. rewrite Hstatus. reflexivity.
Qed.

Lemma ownership_failure_witness :
  let net := Fixture.answers
               (Some (Fixture.page
                        [Fixture.rawTransaction 15 3 1
                           [Fixture.bob; Fixture.carol]]))
               None None in
  exists d,
    In d (fst (fetchAllQueuedTransactions net [Fixture.treasury]
                 Fixture.allOptions Fixture.start))
    /\ qd_address d = address Fixture.treasury /\ qd_chain d = mainnet
    /\ safeInfo d = None.
Proof.
  intros net.
  destruct (ownership_failure net [Fixture.treasury] Fixture.allOptions
              (address Fixture.treasury) mainnet
              (Fixture.page
                 [Fixture.rawTransaction 15 3 1 [Fixture.bob; Fixture.carol]])
              Fixture.start)
    as (d & Hd & Ha & Hc & Hi & _).
  - left. reflexivity.
  - intros w. reflexivity.
  - intros w. reflexivity.
  - discriminate.
  - exists d. auto.
Defined.

Lemma dispatch_guard_witness :
  let config := Fixture.config Fixture.allOptions
                  [ConsoleNotificationConfig true (Some false)] in
  let run := monitorSafeWalletQueue Fixture.oneQueued config Fixture.start in
  exists configs message,
    In (Dispatch configs message) (snd (snd run))
    /\ configs = notifications config.
Proof.
  intros config run.
  pose proof (dispatch_guard Fixture.oneQueued config tt (fst (snd run))
                (match fst run with
                 | Returned r => r
                 | Thrown _ =>
                     {| totalTransactions := 0; messages := [];
                        signerSummary := []; rawData := [] |}
                 end)
                (snd (snd run))) as H.
  destruct H as (Hcall & Hwith & _); [vm_compute; reflexivity|].
  destruct (proj2 Hcall) as (configs & message & Hin).
  - split; [vm_compute; lia | discriminate].
  - exists configs, message. split; [exact Hin | exact (proj1 (Hwith _ _ Hin))].
Defined.

(** The dispatcher is called although no channel is enabled. *)
Lemma dispatch_all_disabled :
  let config := Fixture.config Fixture.allOptions
                  [ConsoleNotificationConfig false None] in
  let tr := snd (snd (monitorSafeWalletQueue Fixture.oneQueued config
                        Fixture.start)) in
  ~ ((exists configs message, In (Dispatch configs message) tr) ->
     exists c, In c (notifications config) /\ enabled c = true).
Proof.
  intros config tr Honly.
  destruct Honly as (c & Hc & He).
  - eexists. eexists. vm_compute. do 3 right. left. reflexivity.
  - destruct Hc as [<- | []]. discriminate.
Qed.

(** One transaction, two entries: the summary says two. *)
Lemma summary_counts_entries :
  let summary := snd (formatTransactionData Fixture.twiceMissing []
                        Fixture.emptyOptions) in
  lookup "0xab" summary = Some 2%N
  /\ transactionsMissing "0xab" Fixture.twiceMissing = 1%N
  /\ lookup "0xab" summary
     <> Some (transactionsMissing "0xab" Fixture.twiceMissing).
Proof. repeat split. discriminate. Qed.

Lemma formatTransactionMessage_explicit (transaction : QueuedSafeTransaction)
    (chain : ChainName) (safeOwners : option (list string))
    (signers : list SignerInfo) (options : FormatOptions) :
  formatTransactionMessage transaction chain safeOwners signers options
  = formatTransactionMessage transaction chain safeOwners signers
      (explicitOptions options).
Proof.
  unfold formatTransactionMessage, headerLine, noteLine, explicitOptions.
  cbn [showConfirmedSigner showPendingSigner showStatusIcon showChainIcon
       showTxNote].
  destruct (showConfirmedSigner options) as [[|]|],
           (showPendingSigner options) as [[|]|],
           (showStatusIcon options) as [[|]|],
           (showChainIcon options) as [[|]|],
           (showTxNote options) as [[|]|]; reflexivity.
Qed.

(** C4.  With an empty options object the code writes no chain icon, no
    note line and no unsigned-signer line, and asks neither for the note
    nor for the owners: an omitted option is off, for all five options.
    The defaults the field comments of [FormatOptions] give for
    [showPendingSigner], [showChainIcon] and [showTxNote] are not
    applied. *)
Theorem omitted_options_are_off :
  formatTransactionMessage Fixture.queued15 mainnet
    (Some [Fixture.alice; Fixture.bob; Fixture.carol])
    [{| signer_address := Fixture.bob; handle := "bob" |}] Fixture.emptyOptions
  = " MAINNET - Tx 15  1/3" ++ nl
  /\ formatTransactionMessage Fixture.queued15 mainnet
       (Some [Fixture.alice; Fixture.bob; Fixture.carol])
       [{| signer_address := Fixture.bob; handle := "bob" |}]
       (Fixture.options None (Some true) None (Some true) (Some true))
     = getChainIcon mainnet ++ " MAINNET - Tx 15  1/3" ++ nl
       ++ "    " ++ iconNote ++ " Note: Pay grants" ++ nl
       ++ "    " ++ iconPending ++ " Not Signed: bob, 0xCCCC...0003" ++ nl
  /\ snd (snd (fetchAllQueuedTransactions Fixture.oneQueued [Fixture.treasury]
                 Fixture.emptyOptions Fixture.start))
     = [Get (queuedUrl (address Fixture.treasury) mainnet)]
  /\ forall tx chain safeOwners signers,
       formatTransactionMessage tx chain safeOwners signers Fixture.emptyOptions
       = formatTransactionMessage tx chain safeOwners signers
           (Fixture.options (Some false) (Some false) (Some false) (Some false)
              (Some false)).
Proof.
  split; [reflexivity|]. split; [reflexivity|]. split; [reflexivity|].
  intros tx chain safeOwners signers.
  apply (formatTransactionMessage_explicit tx chain safeOwners signers
           Fixture.emptyOptions).
Qed.

Lemma signer_summary_counts_witness :
  let data := fst (fetchAllQueuedTransactions Fixture.oneQueued
                     [Fixture.treasury] Fixture.allOptions Fixture.start) in
  plainKey (Js.toLowerCase Fixture.bob)
  /\ lookup (Js.toLowerCase Fixture.bob)
       (snd (formatTransactionData data [] Fixture.allOptions)) = Some 1%N
  /\ occurrences (Js.toLowerCase Fixture.bob) data
     = transactionsMissing (Js.toLowerCase Fixture.bob) data.
Proof.
  intros data.
  assert (Hplain : plainKey (Js.toLowerCase Fixture.bob))
    by (split; discriminate).
  split; [exact Hplain|]. split; [reflexivity|].
  refine (proj2 (proj2 (signer_summary_counts data [] Fixture.allOptions
                          (Js.toLowerCase Fixture.bob) Hplain)) _).
  repeat constructor; simpl; intuition discriminate.
Defined.

Lemma configuration_error_witness :
  let config := Fixture.config Fixture.allOptions [] in
  exists r,
    fst (monitorSafeWalletQueue (Fixture.answers None None None) config
           Fixture.start) = Returned r
    /\ totalTransactions r = 0%nat /\ rawData r = [].
Proof.
  intros config.
  refine (proj2 (proj2 (proj2
    (configuration_error (Fixture.answers None None None) config Fixture.start)))
    _ _).
  - discriminate.
  - intros url w. reflexivity.
Defined.

Lemma no_empty_entry_witness :
  Forall (fun d => transactions d <> [])
    (fst (fetchAllQueuedTransactions Fixture.oneQueued [Fixture.treasury]
            Fixture.allOptions Fixture.start)).
Proof.
  apply Forall_forall.
  exact (proj2 (proj2 (no_empty_entry Fixture.oneQueued Fixture.allOptions))
           [Fixture.treasury] Fixture.start).
Defined.

(** * Further properties of the code *)

(** ** Addresses and handles *)

Lemma lower_ascii_idempotent (c : ascii) :
  Js.lower_ascii (Js.lower_ascii c) = Js.lower_ascii c.
Proof. destruct c as [[] [] [] [] [] [] [] []]; reflexivity. Qed.

Lemma lower_upper_ascii (c : ascii) :
  Js.lower_ascii (Js.upper_ascii c) = Js.lower_ascii c.
Proof. destruct c as [[] [] [] [] [] [] [] []]; reflexivity. Qed.

Lemma toLowerCase_idempotent (s : string) :
  Js.toLowerCase (Js.toLowerCase s) = Js.toLowerCase s.
Proof.
  unfold Js.toLowerCase. induction s as [|c s IH]; simpl; [reflexivity|].
  rewrite lower_ascii_idempotent, IH. reflexivity.
Qed.

Lemma toLowerCase_toUpperCase (s : string) :
  Js.toLowerCase (Js.toUpperCase s) = Js.toLowerCase s.
Proof.
  unfold Js.toLowerCase, Js.toUpperCase.
  induction s as [|c s IH]; simpl; [reflexivity|].
  rewrite lower_upper_ascii, IH. reflexivity.
Qed.

(** X1. [compareAddresses] is an equivalence relation on strings, and
    it ignores the case of ASCII letters: an address of ASCII characters
    compares equal to its lower-case and to its upper-case spelling. *)
Theorem compareAddresses_equivalence :
  (forall a, compareAddresses a a = true)
  /\ (forall a b, compareAddresses a b = compareAddresses b a)
  /\ (forall a b c,
        compareAddresses a b = true -> compareAddresses b c = true ->
        compareAddresses a c = true)
  /\ (forall a, isAscii a = true ->
                compareAddresses (Js.toLowerCase a) a = true
                /\ compareAddresses (Js.toUpperCase a) a = true).
Proof.
  unfold compareAddresses. repeat split.
  - intros a. apply String.eqb_refl.
  - intros a b. apply String.eqb_sym.
  - intros a b c Hab Hbc. apply String.eqb_eq in Hab, Hbc.
    apply String.eqb_eq. congruence.
  - rewrite toLowerCase_idempotent. apply String.eqb_refl.
  - rewrite toLowerCase_toUpperCase. apply String.eqb_refl.
Qed.

Lemma compareAddresses_equivalence_witness :
  isAscii Fixture.bob = true
  /\ compareAddresses (Js.toLowerCase Fixture.bob) Fixture.bob = true
  /\ compareAddresses (Js.toUpperCase Fixture.bob) Fixture.bob = true
  /\ Js.toUpperCase Fixture.bob <> Js.toLowerCase Fixture.bob.
Proof.
  split; [reflexivity|].
  destruct (proj2 (proj2 (proj2 compareAddresses_equivalence)) Fixture.bob
              eq_refl) as [Hlower Hupper].
  split; [exact Hlower|]. split; [exact Hupper|]. discriminate.
Defined.

Lemma length_append (a b : string) :
  String.length (a ++ b) = (String.length a + String.length b)%nat.
Proof. induction a as [|c a IH]; simpl; [reflexivity | rewrite IH; reflexivity]. Qed.

Lemma substring_0_append (p r : string) :
  substring 0 (String.length p) (p ++ r) = p.
Proof.
  induction p as [|c p IH]; simpl.
  - destruct r; reflexivity.
  - rewrite IH. reflexivity.
Qed.

Lemma substring_skip (p s : string) (n : nat) :
  substring (String.length p) n (p ++ s) = substring 0 n s.
Proof. induction p as [|c p IH]; simpl; [reflexivity | exact IH]. Qed.

Lemma substring_0_all (q : string) : substring 0 (String.length q) q = q.
Proof.
  induction q as [|c q IH]; simpl; [reflexivity | rewrite IH; reflexivity].
Qed.

Lemma string_split (n : nat) (s : string) :
  (n <= String.length s)%nat ->
  exists p r, s = p ++ r /\ String.length p = n.
Proof.
  revert s. induction n as [|n IH]; intros s Hn.
  - exists "", s. split; reflexivity.
  - destruct s as [|c s]; simpl in Hn; [lia|].
    destruct (IH s ltac:(lia)) as (p & r & -> & Hp).
    exists (String c p), r. split; [reflexivity | simpl; rewrite Hp; reflexivity].
Qed.

(** The two ends [shortenAddress] keeps of a long address. *)
Lemma shortenAddress_ends (a : string) :
  (10 <= String.length a)%nat ->
  exists p m q,
    a = p ++ m ++ q /\ String.length p = 6%nat /\ String.length q = 4%nat
    /\ shortenAddress a = p ++ "..." ++ q.
Proof.
  intros Hlen.
  destruct (string_split 6 a ltac:(lia)) as (p & r & -> & Hp).
  rewrite length_append, Hp in Hlen.
  assert (Hr : (String.length r - 4 <= String.length r)%nat) by lia.
  destruct (string_split (String.length r - 4) r Hr) as (m & q & Hmq & Hm).
  subst r. clear Hr.
  assert (Hq : String.length q = 4%nat) by (rewrite length_append in Hm, Hlen; lia).
  exists p, m, q. repeat split; try assumption.
  unfold shortenAddress, Js.slice_front, Js.slice_back.
  assert (Htot : String.length (p ++ m ++ q) = (10 + String.length m)%nat)
    by (rewrite !length_append; lia).
  rewrite Htot.
  destruct (Nat.ltb_spec (10 + String.length m) 10) as [Hlt | _]; [lia|].
  rewrite <- Hp at 1. rewrite substring_0_append.
  replace (10 + String.length m - 4)%nat with (String.length (p ++ m))
    by (rewrite length_append; lia).
  rewrite <- (append_assoc p m q), substring_skip, <- Hq, substring_0_all.
  reflexivity.
Qed.

(** X2. [shortenAddress] leaves an address of fewer than ten characters
    as it is; a longer one becomes thirteen characters: its first six,
    three dots, its last four.  Shortening twice is shortening once. *)
Theorem shortenAddress_shape (a : string) :
  ((String.length a < 10)%nat -> shortenAddress a = a)
  /\ ((10 <= String.length a)%nat ->
      String.length (shortenAddress a) = 13%nat
      /\ exists p m q,
           a = p ++ m ++ q /\ String.length p = 6%nat
           /\ String.length q = 4%nat
           /\ shortenAddress a = p ++ "..." ++ q)
  /\ shortenAddress (shortenAddress a) = shortenAddress a.
Proof.
  assert (Hshort : forall b, (String.length b < 10)%nat -> shortenAddress b = b).
  { intros b Hb. unfold shortenAddress.
    destruct (Nat.ltb_spec (String.length b) 10); [reflexivity | lia]. }
  split; [apply Hshort|]. split.
  - intros Hlen. destruct (shortenAddress_ends a Hlen) as (p & m & q & Ha & Hp & Hq & Hs).
    split; [|exists p, m, q; auto].
    rewrite Hs, !length_append, Hp, Hq. reflexivity.
  - destruct (Nat.lt_ge_cases (String.length a) 10) as [Hlt | Hge].
    + rewrite !(Hshort a Hlt). reflexivity.
    + destruct (shortenAddress_ends a Hge) as (p & m & q & Ha & Hp & Hq & Hs).
      rewrite Hs.
      destruct (shortenAddress_ends (p ++ "..." ++ q)) as (p' & m' & q' & Ha' & Hp' & Hq' & Hs').
      { rewrite !length_append, Hp, Hq. simpl. lia. }
      rewrite Hs'.
      assert (Hpp : p' = p).
      { apply (f_equal (substring 0 6)) in Ha'.
        rewrite <- Hp in Ha' at 1. rewrite substring_0_append in Ha'.
        rewrite <- Hp' in Ha'. rewrite substring_0_append in Ha'. congruence. }
      subst p'.
      assert (Hm' : String.length m' = 3%nat).
      { apply (f_equal String.length) in Ha'.
        rewrite !length_append, Hp, Hq, Hq' in Ha'. simpl in Ha'. lia. }
      assert (Hqq : q' = q).
      { assert (Hrest : "..." ++ q = m' ++ q').
        { clear - Ha'. induction p as [|c p IH]; simpl in Ha';
            [exact Ha' | injection Ha' as Ha'; auto]. }
        destruct m' as [|c1 [|c2 [|c3 [|c4 m']]]]; simpl in Hm'; try lia.
        simpl in Hrest. injection Hrest as _ _ _ Hrest. congruence. }
      subst q'. reflexivity.
Qed.

Lemma shortenAddress_shape_witness :
  shortenAddress Fixture.carol = "0xCCCC...0003"
  /\ String.length (shortenAddress Fixture.carol) = 13%nat.
Proof.
  split; [reflexivity|].
  refine (proj1 (proj1 (proj2 (shortenAddress_shape Fixture.carol)) _)).
  simpl. lia.
Defined.

Lemma append_cancel (p a b : string) : p ++ a = p ++ b -> a = b.
Proof.
  induction p as [|c p IH]; simpl; intros H; [exact H|].
  injection H as H. auto.
Qed.

(** X3. [generateSafeUrl] gives different wallets different URLs: the
    URL determines the address and the chain. *)
Theorem generateSafeUrl_injective (a a' : string) (c c' : ChainName) :
  generateSafeUrl a c = generateSafeUrl a' c' -> a = a' /\ c = c'.
Proof.
  unfold generateSafeUrl. intros H. apply append_cancel in H.
  destruct c, c'; cbn in H; try discriminate H;
    (split; [|reflexivity]);
    repeat (injection H as H); exact H.
Qed.

Lemma generateSafeUrl_injective_witness :
  generateSafeUrl "0x01" mainnet = "https://app.safe.global/home?safe=eth:0x01"
  /\ ("0x01" = "0x01" /\ mainnet = mainnet).
Proof.
  split; [reflexivity|].
  apply (generateSafeUrl_injective "0x01" "0x01" mainnet mainnet). reflexivity.
Defined.

Lemma find_compare (a a' : string) (signers : list SignerInfo) :
  compareAddresses a a' = true ->
  Js.find (fun s => compareAddresses (signer_address s) a) signers
  = Js.find (fun s => compareAddresses (signer_address s) a') signers.
Proof.
  intros Heq. unfold compareAddresses in *. apply String.eqb_eq in Heq.
  rewrite Heq. reflexivity.
Qed.

(** X4. The handle of an address is found without regard to case: when
    some alias bears the address, every spelling of it gets the same
    handle, the optional prefix followed by the handle of the first such
    alias.  When no alias bears it, the result is the shortened address,
    to which the prefix is not applied. *)
Theorem getSignerHandle_alias (address : string) (signers : list SignerInfo)
    (prefix0 : option string) :
  ((forall s, In s signers -> compareAddresses (signer_address s) address = false) ->
   getSignerHandle address signers prefix0 = shortenAddress address)
  /\ ((exists s, In s signers /\ compareAddresses (signer_address s) address = true) ->
      (exists before s after,
         signers = (before ++ s :: after)%list
         /\ compareAddresses (signer_address s) address = true
         /\ (forall s', In s' before ->
               compareAddresses (signer_address s') address = false)
         /\ getSignerHandle address signers prefix0
            = match prefix0 with Some p => p | None => "" end ++ handle s)
      /\ forall address',
           compareAddresses address address' = true ->
           getSignerHandle address' signers prefix0
           = getSignerHandle address signers prefix0).
Proof.
  split.
  - intros Hnone. unfold getSignerHandle.
    assert (Hfind : Js.find (fun s => compareAddresses (signer_address s) address)
                      signers = None).
    { induction signers as [|s signers IH]; simpl; [reflexivity|].
      rewrite (Hnone s (or_introl eq_refl)). apply IH.
      intros s' Hs'. apply Hnone. right. assumption. }
    rewrite Hfind. reflexivity.
  - intros Hsome. split.
    + unfold getSignerHandle.
      induction signers as [|s signers IH]; [destruct Hsome as (s & [] & _)|].
      simpl. destruct (compareAddresses (signer_address s) address) eqn:Hs.
      * exists [], s, signers. repeat split; [assumption | intros s' []].
      * destruct IH as (before & s0 & after & -> & Hs0 & Hbefore & Hh).
        { destruct Hsome as (s1 & [-> | Hin] & Hs1); [congruence|].
          exists s1. split; assumption. }
        exists (s :: before), s0, after. repeat split; try assumption.
        intros s' [<- | Hin]; [assumption | apply Hbefore; assumption].
    + intros address' Hcmp. unfold getSignerHandle.
      rewrite (find_compare address address' signers Hcmp).
      destruct (Js.find _ signers) as [s|] eqn:Hfind; [reflexivity|].
      exfalso. destruct Hsome as (s & Hin & Hs).
      assert (Hcmp' : compareAddresses (signer_address s) address' = true).
      { unfold compareAddresses in *. apply String.eqb_eq in Hcmp, Hs.
        apply String.eqb_eq. congruence. }
      clear - Hfind Hin Hcmp'.
      induction signers as [|s0 signers IH]; [destruct Hin|].
      simpl in Hfind. destruct Hin as [-> | Hin].
      * rewrite Hcmp' in Hfind. discriminate.
      * destruct (compareAddresses (signer_address s0) address');
          [discriminate | auto].
Qed.

(** ** The status icon on any record *)

(** X5. For a threshold below [2 ^ 49] and any count at all, also on a
    hand-built record, the status icon is the one the exact cutoff
    [ceil (7 * required / 10)] gives: the double product loses nothing
    there. *)
Theorem getStatusIcon_exact (confirmed required : N) :
  (required < 2 ^ 49)%N ->
  getStatusIcon confirmed required
  = if (required <=? confirmed)%N then iconReady
    else if ((7 * Z.of_N required + 9) / 10 <=? Z.of_N confirmed)%Z
         then iconPartial
         else iconAttention.
Proof.
  intros Hr. unfold getStatusIcon. rewrite (ceil_mul_0_7 required Hr).
  reflexivity.
Qed.

Lemma getStatusIcon_exact_witness :
  getStatusIcon 7 10 = iconPartial /\ getStatusIcon 6 10 = iconAttention.
Proof.
  split.
  - rewrite (getStatusIcon_exact 7 10); [reflexivity | reflexivity].
  - reflexivity.
Defined.

(** X6. Below [2 ^ 49] the middle tier exists exactly for the thresholds
    from four on: up to three every transaction is either ready or needs
    attention. *)
Theorem middle_tier_from_four (required : N) :
  (required < 2 ^ 49)%N ->
  ((exists confirmed, getStatusIcon confirmed required = iconPartial)
   <-> (4 <= required)%N).
Proof.
  intros Hr. destruct icons_distinct as (H12 & H13 & H23).
  unfold getStatusIcon. rewrite (ceil_mul_0_7 required Hr). split.
  - intros [confirmed Hicon].
    destruct (N.leb_spec required confirmed) as [Hle | Hgt]; [congruence|].
    destruct (Z.leb_spec ((7 * Z.of_N required + 9) / 10) (Z.of_N confirmed))
      as [Hc | Hc]; [|congruence].
    pose proof (Z.div_mod (7 * Z.of_N required + 9) 10 ltac:(lia)) as Hd.
    pose proof (Z.mod_pos_bound (7 * Z.of_N required + 9) 10 ltac:(lia)) as Hm.
    lia.
  - intros H4. exists (required - 1)%N.
    destruct (N.leb_spec required (required - 1)) as [Hle | _]; [lia|].
    destruct (Z.leb_spec ((7 * Z.of_N required + 9) / 10)
                (Z.of_N (required - 1))) as [_ | Hc]; [reflexivity|].
    exfalso.
    assert (Hup : ((7 * Z.of_N required + 9) / 10 < Z.of_N required)%Z).
    { apply Z.div_lt_upper_bound; lia. }
    lia.
Qed.

Lemma middle_tier_from_four_witness :
  (exists confirmed, getStatusIcon confirmed 4 = iconPartial) <-> (4 <= 4)%N.
Proof. apply (middle_tier_from_four 4). reflexivity. Defined.

(** X7. One more signature never lowers the tier, on any record: a ready
    transaction stays ready, and one that is partly signed does not fall
    back to needing attention. *)
Theorem getStatusIcon_monotone (confirmed confirmed' required : N) :
  (confirmed <= confirmed')%N ->
  (getStatusIcon confirmed required = iconReady ->
   getStatusIcon confirmed' required = iconReady)
  /\ (getStatusIcon confirmed required = iconPartial ->
      getStatusIcon confirmed' required <> iconAttention)
  /\ (getStatusIcon confirmed' required = iconAttention ->
      getStatusIcon confirmed required = iconAttention).
Proof.
  intros Hle. destruct icons_distinct as (H12 & H13 & H23).
  unfold getStatusIcon.
  destruct (N.leb_spec required confirmed), (N.leb_spec required confirmed');
    try lia;
    destruct (Z.leb_spec (Js.Math_ceil (Js.mul_0_7 required)) (Z.of_N confirmed)),
             (Z.leb_spec (Js.Math_ceil (Js.mul_0_7 required)) (Z.of_N confirmed'));
    try lia; repeat split; intros; congruence.
Qed.

Lemma getStatusIcon_monotone_witness :
  getStatusIcon 7 10 = iconPartial /\ getStatusIcon 8 10 <> iconAttention.
Proof.
  split; [reflexivity|].
  refine (proj1 (proj2 (getStatusIcon_monotone 7 8 10 _)) _);
    [discriminate | reflexivity].
Defined.

(** ** Conversion, all or nothing *)

(** X8. [convertToEnhancedFormat] returns null exactly for a record that
    is no TRANSACTION or has no body; it throws, and then a RangeError,
    exactly for a TRANSACTION whose [confirmationsSubmitted] is no array
    length ([2 ^ 32] or more) or is positive while the time stamp is
    beyond what a [Date] holds; in every other case it returns a
    transaction. *)
Theorem convertToEnhancedFormat_outcomes (item : SafeClientTransaction)
    (safeAddress : string) :
  (convertToEnhancedFormat item safeAddress = Returned None
   <-> type item = LABEL \/ transaction item = None)
  /\ ((exists e, convertToEnhancedFormat item safeAddress = Thrown e)
      <-> type item = TRANSACTION
          /\ exists body,
               transaction item = Some body
               /\ ((2 ^ 32 <= confirmationsSubmitted (executionInfo body))%N
                   \/ ((0 < confirmationsSubmitted (executionInfo body))%N
                       /\ (maxTimeValue < timestamp body)%N)))
  /\ (forall e, convertToEnhancedFormat item safeAddress = Thrown e ->
        e = RangeError).
Proof.
  unfold convertToEnhancedFormat.
  destruct (type item) eqn:Ht; [destruct (transaction item) as [body|] eqn:Hb|].
  - assert (Hthrown :
      forall r : outcome (option QueuedSafeTransaction),
        r = Thrown RangeError ->
        ((2 ^ 32 <= confirmationsSubmitted (executionInfo body))%N
         \/ ((0 < confirmationsSubmitted (executionInfo body))%N
             /\ (maxTimeValue < timestamp body)%N)) ->
        (r = Returned None <-> TRANSACTION = LABEL \/ Some body = None)
        /\ ((exists e, r = Thrown e)
            <-> TRANSACTION = TRANSACTION
                /\ exists body0,
                     Some body = Some body0
                     /\ ((2 ^ 32 <= confirmationsSubmitted (executionInfo body0))%N
                         \/ ((0 < confirmationsSubmitted (executionInfo body0))%N
                             /\ (maxTimeValue < timestamp body0)%N)))
        /\ (forall e, r = Thrown e -> e = RangeError)).
    { intros r -> Hcase. split; [|split].
      - split; [discriminate | intros [H | H]; discriminate].
      - split; [|intros _; eexists; reflexivity].
        intros _. split; [reflexivity | exists body; auto].
      - intros e He. injection He as <-. reflexivity. }
    destruct (N.leb_spec (2 ^ 32) (confirmationsSubmitted (executionInfo body)))
      as [Hbig | Hsmall]; [apply Hthrown; auto|].
    destruct (N.ltb_spec 0 (confirmationsSubmitted (executionInfo body)))
      as [Hpos | Hzero];
      destruct (N.ltb_spec maxTimeValue (timestamp body)) as [Hlate | Hok];
      cbn [andb]; [apply Hthrown; auto| | |];
      (split; [|split];
       [ split; [discriminate | intros [H | H]; discriminate]
       | split; [intros [e He]; discriminate|];
         intros (_ & body0 & Hb0 & Hcase); injection Hb0 as <-; lia
       | intros e He; discriminate ]).
  - split; [|split].
    + split; [auto | reflexivity].
    + split; [intros [e He]; discriminate|].
      intros (_ & body0 & Hb0 & _). discriminate.
    + intros e He. discriminate.
  - split; [|split].
    + split; [auto | reflexivity].
    + split; [intros [e He]; discriminate|].
      intros (Hl & _). discriminate.
    + intros e He. discriminate.
Qed.

Lemma mapOutcome_Thrown {A B} (f : A -> outcome B) (l : list A) (x : A)
    (e : Error) :
  In x l -> f x = Thrown e -> exists e', mapOutcome f l = Thrown e'.
Proof.
  induction l as [|y l IH]; intros Hin Hx; [destruct Hin|].
  simpl. destruct Hin as [-> | Hin].
  - rewrite Hx. eexists. reflexivity.
  - destruct (f y); [|eexists; reflexivity].
    destruct (IH Hin Hx) as [e' ->]. eexists. reflexivity.
Qed.

(** X9. One record whose conversion throws empties the whole list of the
    wallet: [fetchQueuedTransactions] then returns no transaction at
    all.  When no record throws, it returns one transaction for each
    TRANSACTION record with a body, in the order of the answer, each
    with the asked address as [safe] and without a note. *)
Theorem convertResults_all_or_nothing (data : SafeClientApiResponse)
    (safeAddress : string) :
  ((exists item e,
      In item (results data)
      /\ convertToEnhancedFormat item safeAddress = Thrown e) ->
   convertResults data safeAddress = [])
  /\ ((forall item e,
         In item (results data) ->
         convertToEnhancedFormat item safeAddress <> Thrown e) ->
      map (fun tx => (id tx, nonce tx, signedCount tx, confirmationsRequired tx))
        (convertResults data safeAddress)
      = map (fun b => (tx_id b, exec_nonce (executionInfo b),
                       confirmationsSubmitted (executionInfo b),
                       exec_confirmationsRequired (executionInfo b)))
          (bodies data)
      /\ Forall (fun tx => safe tx = safeAddress /\ note tx = None)
           (convertResults data safeAddress)).
Proof.
  unfold convertResults, bodies. split.
  - intros (item & e & Hin & Hthrow).
    assert (Hfilter : In item (filter isTransaction (results data))).
    { apply filter_In. split; [assumption|].
      unfold isTransaction. pose proof Hthrow as Hcopy.
      unfold convertToEnhancedFormat in Hcopy.
      destruct (type item); [reflexivity | discriminate]. }
    destruct (mapOutcome_Thrown
                (fun item0 => convertToEnhancedFormat item0 safeAddress)
                _ item e Hfilter Hthrow) as [e' ->].
    reflexivity.
  - generalize (results data). intros l Hok.
    assert (H : exists ys,
              mapOutcome (fun item => convertToEnhancedFormat item safeAddress)
                (filter isTransaction l) = Returned ys
              /\ map (fun tx => (id tx, nonce tx, signedCount tx,
                                 confirmationsRequired tx)) (dropNull ys)
                 = map (fun b => (tx_id b, exec_nonce (executionInfo b),
                                  confirmationsSubmitted (executionInfo b),
                                  exec_confirmationsRequired (executionInfo b)))
                     (flat_map (fun item =>
                                  match type item, transaction item with
                                  | TRANSACTION, Some body => [body]
                                  | _, _ => []
                                  end) l)
              /\ Forall (fun tx => safe tx = safeAddress /\ note tx = None)
                   (dropNull ys)).
    { induction l as [|item l IH].
      - exists []. repeat split. constructor.
      - destruct IH as (ys & Hys & Hmap & Hall).
        { intros item0 e Hin. apply Hok. right. assumption. }
        simpl. unfold isTransaction at 1.
        destruct (type item) eqn:Ht; [|exists ys; auto].
        simpl. rewrite Hys.
        destruct (convertToEnhancedFormat item safeAddress) as [[tx|]|e] eqn:Hc.
        + destruct (convertToEnhancedFormat_Some _ _ _ Hc)
            as (body & _ & Hb & _ & ->).
          rewrite Hb. eexists. split; [reflexivity|]. simpl. split.
          * rewrite Hmap. reflexivity.
          * constructor; [split; reflexivity | assumption].
        + assert (Hb : transaction item = None).
          { unfold convertToEnhancedFormat in Hc. rewrite Ht in Hc.
            destruct (transaction item) as [body|]; [|reflexivity].
            destruct (_ <=? _)%N; [discriminate|].
            destruct (_ && _); discriminate. }
          rewrite Hb. eexists. split; [reflexivity|]. simpl. auto.
        + exfalso. apply (Hok item e); [left; reflexivity | assumption]. }
    destruct H as (ys & -> & Hmap & Hall). split; assumption.
Qed.

(** ** Grouping the wallets by chain *)

Lemma ChainName_eqb_refl (c : ChainName) : ChainName_eqb c c = true.
Proof. apply ChainName_eqb_eq. reflexivity. Qed.

Lemma ChainName_eqb_neq (a b : ChainName) : ChainName_eqb a b = false <-> a <> b.
Proof.
  split.
  - intros H ->. rewrite ChainName_eqb_refl in H. discriminate.
  - intros H. destruct (ChainName_eqb a b) eqn:E; [|reflexivity].
    apply ChainName_eqb_eq in E. contradiction.
Qed.

Lemma groupOf_pushAddress (c c0 : ChainName) (a : string)
    (acc : list (ChainName * list string)) :
  groupOf c (pushAddress acc c0 a)
  = if ChainName_eqb c0 c then (groupOf c acc ++ [a])%list else groupOf c acc.
Proof.
  induction acc as [|[c' l] acc IH]; simpl.
  - reflexivity.
  - destruct (ChainName_eqb c' c0) eqn:E0; simpl.
    + apply ChainName_eqb_eq in E0. subst c'.
      destruct (ChainName_eqb c0 c); reflexivity.
    + rewrite IH. destruct (ChainName_eqb c' c) eqn:E; [|reflexivity].
      apply ChainName_eqb_eq in E. subst c'.
      assert (E1 : ChainName_eqb c0 c = false).
      { apply ChainName_eqb_neq. apply ChainName_eqb_neq in E0. congruence. }
      rewrite E1. reflexivity.
Qed.

Lemma pushAddress_keys (acc : list (ChainName * list string)) (c : ChainName)
    (a : string) :
  (forall c', In c' (map fst (pushAddress acc c a)) ->
              c' = c \/ In c' (map fst acc))
  /\ (NoDup (map fst acc) -> NoDup (map fst (pushAddress acc c a)))
  /\ (Forall (fun g => snd g <> []) acc ->
      Forall (fun g => snd g <> []) (pushAddress acc c a)).
Proof.
  induction acc as [|[c' l] acc (IH1 & IH2 & IH3)]; simpl.
  - repeat split.
    + intros c' [<- | []]. left. reflexivity.
    + intros _. repeat constructor. intros [].
    + intros _. repeat constructor. discriminate.
  - destruct (ChainName_eqb c' c) eqn:E; simpl.
    + repeat split; auto.
      intros H. inversion H as [|g gs Hg Hgs]; subst. constructor; [|assumption].
      simpl. intros Hnil. destruct l; discriminate.
    + repeat split.
      * intros c'' [<- | Hin]; [right; left; reflexivity|].
        destruct (IH1 c'' Hin); auto.
      * intros H. inversion H as [|k ks Hk Hks]; subst.
        constructor; [|apply IH2; assumption].
        intros Hin. destruct (IH1 _ Hin) as [-> | Hin']; [|contradiction].
        rewrite ChainName_eqb_refl in E. discriminate.
      * intros H. inversion H; subst. constructor; [assumption | auto].
Qed.

Lemma safesByChain_snoc (safes : list SafeAddress) (x : SafeAddress) :
  safesByChain (safes ++ [x])
  = pushAddress (safesByChain safes) (chain x) (address x).
Proof. unfold safesByChain. rewrite fold_left_app. reflexivity. Qed.

Lemma safesByChain_groups (safes : list SafeAddress) :
  NoDup (map fst (safesByChain safes))
  /\ Forall (fun g => snd g <> []) (safesByChain safes)
  /\ forall c, groupOf c (safesByChain safes) = walletsOf c safes.
Proof.
  induction safes as [|x safes (IH1 & IH2 & IH3)] using rev_ind.
  - repeat split; constructor.
  - rewrite safesByChain_snoc.
    destruct (pushAddress_keys (safesByChain safes) (chain x) (address x))
      as (_ & Hnd & Hne).
    repeat split; [auto | auto |].
    intros c. rewrite groupOf_pushAddress, IH3. unfold walletsOf.
    rewrite filter_app, map_app. simpl.
    destruct (ChainName_eqb (chain x) c); [reflexivity|].
    simpl. rewrite app_nil_r. reflexivity.
Qed.

Lemma groupOf_In (c : ChainName) (l : list string)
    (acc : list (ChainName * list string)) :
  NoDup (map fst acc) -> In (c, l) acc -> groupOf c acc = l.
Proof.
  induction acc as [|[c' l'] acc IH]; simpl; [intros _ []|].
  intros Hnd Hin. inversion Hnd as [|k ks Hk Hks]; subst.
  destruct Hin as [Heq | Hin].
  - injection Heq as -> ->. rewrite ChainName_eqb_refl. reflexivity.
  - destruct (ChainName_eqb c' c) eqn:E; [|auto].
    apply ChainName_eqb_eq in E. subst c'. exfalso. apply Hk.
    apply (in_map fst) in Hin. exact Hin.
Qed.

Lemma groupOf_nonempty (c : ChainName) (acc : list (ChainName * list string)) :
  groupOf c acc <> [] -> In (c, groupOf c acc) acc.
Proof.
  induction acc as [|[c' l'] acc IH]; simpl; [congruence|].
  destruct (ChainName_eqb c' c) eqn:E.
  - apply ChainName_eqb_eq in E. subst c'. intros _. left. reflexivity.
  - intros H. right. auto.
Qed.

Lemma safesByChain_members (safes : list SafeAddress) (c : ChainName)
    (l : list string) :
  In (c, l) (safesByChain safes) <-> l = walletsOf c safes /\ l <> [].
Proof.
  destruct (safesByChain_groups safes) as (Hnd & Hne & Hgroup). split.
  - intros Hin. split.
    + rewrite <- Hgroup. symmetry. apply groupOf_In; assumption.
    + rewrite Forall_forall in Hne. apply (Hne _ Hin).
  - intros [-> Hl]. rewrite <- Hgroup in *. apply groupOf_nonempty. assumption.
Qed.

(** X10. Grouping the wallets by chain loses and repeats nothing: each
    chain that has a wallet gets exactly one group, never an empty one,
    and the group of a chain holds the addresses configured for it, in
    the order of the configuration, a wallet listed twice being there
    twice. *)
Theorem grouping_by_chain (safes : list SafeAddress) :
  NoDup (map fst (safesByChain safes))
  /\ (forall c l,
        In (c, l) (safesByChain safes) <-> l = walletsOf c safes /\ l <> [])
  /\ (forall c, (exists l, In (c, l) (safesByChain safes))
                <-> exists s, In s safes /\ chain s = c).
Proof.
  destruct (safesByChain_groups safes) as (Hnd & _ & _).
  pose proof (safesByChain_members safes) as Hiff.
  split; [exact Hnd|]. split; [exact Hiff|].
  intros c. split.
  - intros [l Hin]. apply Hiff in Hin. destruct Hin as [-> Hl].
    unfold walletsOf in Hl.
    destruct (filter (fun s => ChainName_eqb (chain s) c) safes) as [|s rest] eqn:Hf;
      [contradiction|].
    assert (Hs : In s (filter (fun s => ChainName_eqb (chain s) c) safes))
      by (rewrite Hf; left; reflexivity).
    apply filter_In in Hs. destruct Hs as [Hs Hc].
    exists s. split; [assumption | apply ChainName_eqb_eq; assumption].
  - intros (s & Hs & Hc). exists (walletsOf c safes). apply Hiff.
    split; [reflexivity|]. unfold walletsOf. intros Hnil.
    assert (Hin : In (address s)
                    (map address (filter (fun s => ChainName_eqb (chain s) c) safes))).
    { apply in_map, filter_In. split; [assumption|].
      apply ChainName_eqb_eq. assumption. }
    rewrite Hnil in Hin. destruct Hin.
Qed.

(** ** The entries of the aggregated result *)

Section Entries.

Context {W : Type} (net : Net W).

Lemma forEach_invariant_In {A B} (f : B -> A -> M W B) (P : B -> Prop)
    (l : list A) :
  (forall b a s, In a l -> P b -> P (fst (f b a s))) ->
  forall b s, P b -> P (fst (forEach f l b s)).
Proof.
  induction l as [|x l IH]; intros Hf b s Hb; simpl.
  - assumption.
  - unfold bind. pose proof (Hf b x s (or_introl eq_refl) Hb) as Hx.
    destruct (f b x s) as [b' s']. apply IH; [|assumption].
    intros b0 a s0 Ha. apply Hf. right. assumption.
Qed.

(** [processSafe], step by step. *)
Lemma processSafe_exact (options : FormatOptions) (chainKey : ChainName)
    (results : list QueuedTransactionData) (address : string)
    (s : W * list Event) :
  let q := fetchQueuedTransactions net address chainKey s in
  let i := if Js.truthy (showConfirmedSigner options)
              || Js.truthy (showPendingSigner options)
           then fetchSafeInfo net address chainKey (snd q)
           else (None, snd q) in
  let n := if Js.truthy (showTxNote options)
           then attachNotes net chainKey (fst q) (snd i)
           else (fst q, snd i) in
  processSafe net options chainKey results address s
  = match fst q with
    | [] => (results, snd i)
    | _ :: _ =>
        ((results ++
          [{| qd_chain := chainKey;
              qd_address := address;
              transactions := fst n;
              safeInfo := fst i;
              safeUrl := generateSafeUrl address chainKey |}])%list,
         snd n)
    end.
Proof.
  unfold processSafe, bind.
  destruct (fetchQueuedTransactions net address chainKey s) as [txs s1].
  cbn [fst snd].
  destruct (Js.truthy (showConfirmedSigner options)
            || Js.truthy (showPendingSigner options)).
  - destruct (fetchSafeInfo net address chainKey s1) as [info s2]. cbn [fst snd].
    destruct txs as [|tx rest]; cbn [List.length Nat.eqb]; [reflexivity|].
    destruct (Js.truthy (showTxNote options)); [|reflexivity].
    destruct (attachNotes net chainKey (tx :: rest) s2). reflexivity.
  - unfold ret at 1. cbn [fst snd].
    destruct txs as [|tx rest]; cbn [List.length Nat.eqb]; [reflexivity|].
    destruct (Js.truthy (showTxNote options)); [|reflexivity].
    destruct (attachNotes net chainKey (tx :: rest) s1). reflexivity.
Qed.

Lemma fetchSafeInfo_threshold (address : string) (chainKey : ChainName)
    (s : W * list Event) (info : SafeInfo) :
  fst (fetchSafeInfo net address chainKey s) = Some info ->
  (1 <= threshold info)%N.
Proof.
  unfold fetchSafeInfo, bind, request.
  destruct (get_safe net (safeInfoUrl address chainKey) (fst s)) as [[data|] w'];
    cbn [fst ret]; [|discriminate].
  intros H. injection H as <-. cbn [threshold].
  destruct (data_threshold data) as [[|t]|]; lia.
Qed.

Lemma attachNotes_nonempty (chainKey : ChainName)
    (txs : list QueuedSafeTransaction) (s : W * list Event) :
  Forall2 (fun tx tx' =>
             tx' = tx \/ exists text, text <> "" /\ tx' = setNote tx text)
    txs (fst (attachNotes net chainKey txs s)).
Proof.
  revert s. induction txs as [|tx rest IH]; intros s; simpl.
  - constructor.
  - unfold bind.
    destruct (fetchTransactionDetails net (id tx) chainKey s) as [d s1].
    specialize (IH s1).
    destruct (attachNotes net chainKey rest s1) as [rest' s2]. simpl in *.
    constructor; [|assumption].
    destruct d as [[text|]|]; try (left; reflexivity).
    destruct text as [|c text]; [left; reflexivity|].
    right. exists (String c text). split; [discriminate | reflexivity].
Qed.

Lemma fetchQueuedTransactions_fresh (address : string) (chainKey : ChainName)
    (s : W * list Event) :
  Forall (fun tx => safe tx = address /\ note tx = None)
    (fst (fetchQueuedTransactions net address chainKey s)).
Proof.
  destruct (fetchQueuedTransactions_cases net address chainKey s)
    as [-> | (data & _ & ->)]; [constructor|].
  apply Forall_forall. intros tx Hin.
  destruct (convertResults_In _ _ _ Hin) as (item & _ & _ & Hc).
  destruct (convertToEnhancedFormat_Some _ _ _ Hc) as (body & _ & _ & _ & ->).
  split; reflexivity.
Qed.

Lemma fetchAll_wellFormed (safes : list SafeAddress) (options : FormatOptions)
    (s : W * list Event) :
  Forall (wellFormedEntry safes options)
    (fst (fetchAllQueuedTransactions net safes options s)).
Proof.
  unfold fetchAllQueuedTransactions.
  apply (forEach_invariant_In _ (Forall (wellFormedEntry safes options)));
    [|constructor].
  intros b [c l] s1 Hentry Hb. cbn [fst snd].
  apply (forEach_invariant_In _ (Forall (wellFormedEntry safes options)));
    [|assumption].
  intros b' a s2 Ha Hb'.
  rewrite processSafe_exact.
  pose proof (fetchQueuedTransactions_fresh a c s2) as Hfresh.
  destruct (fetchQueuedTransactions net a c s2) as [txs s3]. cbn [fst snd] in *.
  destruct txs as [|tx rest]; [assumption|].
  apply Forall_app. split; [assumption|]. constructor; [|constructor].
  unfold wellFormedEntry. cbn [qd_address qd_chain safeUrl safeInfo transactions].
  split; [|split; [reflexivity|split]].
  - destruct (proj1 (safesByChain_members safes c l) Hentry) as [-> _].
    unfold walletsOf in Ha.
    apply in_map_iff in Ha. destruct Ha as (w & <- & Hw).
    apply filter_In in Hw. destruct Hw as [Hw Hc].
    apply ChainName_eqb_eq in Hc. subst c. destruct w. exact Hw.
  - intros info Hinfo.
    destruct (Js.truthy (showConfirmedSigner options)
              || Js.truthy (showPendingSigner options)) eqn:Hflags;
      [|discriminate].
    split; [|reflexivity]. eapply fetchSafeInfo_threshold. exact Hinfo.
  - set (s4 := snd (if Js.truthy (showConfirmedSigner options)
                       || Js.truthy (showPendingSigner options)
                    then fetchSafeInfo net a c s3 else (None, s3))).
    destruct (Js.truthy (showTxNote options)) eqn:Hnote; cbn [fst].
    + pose proof (attachNotes_nonempty c (tx :: rest) s4) as Hnotes.
      revert Hnotes Hfresh.
      generalize (fst (attachNotes net c (tx :: rest) s4)), (tx :: rest).
      intros out txs Hnotes Hfresh.
      induction Hnotes as [|t t' ts ts' Ht Hts IH]; [constructor|].
      inversion Hfresh as [|? ? [Hsafe Hnone] Hrest]; subst.
      constructor; [|apply IH; assumption].
      destruct Ht as [-> | (text & Htext & ->)].
      * rewrite Hnone. split; [reflexivity | exact I].
      * cbn [setNote safe note]. repeat split; assumption.
    + eapply Forall_impl; [|exact Hfresh].
      intros t [Hsafe Hnone]. rewrite Hnone. split; [assumption | exact I].
Qed.

End Entries.

(** X11. Every entry of the aggregated result is a configured wallet:
    its address and chain are one of the configured pairs, its URL is
    the one [generateSafeUrl] gives for them, and each of its
    transactions carries the wallet's address as [safe]. *)
Theorem entries_are_configured {W : Type} (net : Net W)
    (safes : list SafeAddress) (options : FormatOptions) (s : W * list Event)
    (d : QueuedTransactionData) :
  In d (fst (fetchAllQueuedTransactions net safes options s)) ->
  In {| address := qd_address d; chain := qd_chain d |} safes
  /\ safeUrl d = generateSafeUrl (qd_address d) (qd_chain d)
  /\ forall tx, In tx (transactions d) -> safe tx = qd_address d.
Proof.
  intros Hd. pose proof (fetchAll_wellFormed net safes options s) as Hall.
  rewrite Forall_forall in Hall.
  destruct (Hall d Hd) as (Hin & Hurl & _ & Htxs).
  repeat split; try assumption.
  intros tx Htx. rewrite Forall_forall in Htxs. apply (Htxs tx Htx).
Qed.

Lemma entries_are_configured_witness :
  Forall (fun d => In {| address := qd_address d; chain := qd_chain d |}
                     [Fixture.treasury])
    (fst (fetchAllQueuedTransactions Fixture.oneQueued [Fixture.treasury]
            Fixture.allOptions Fixture.start)).
Proof.
  apply Forall_forall. intros d Hd.
  exact (proj1 (entries_are_configured Fixture.oneQueued [Fixture.treasury]
                  Fixture.allOptions Fixture.start d Hd)).
Defined.

(** X12. The safe information of an entry is present only when one of
    the two signer options is on, and then its threshold is at least
    one: a threshold of zero, or none, in the answer becomes one.  With
    both options off no entry has safe information. *)
Theorem safe_info_on_request {W : Type} (net : Net W)
    (safes : list SafeAddress) (options : FormatOptions) (s : W * list Event)
    (d : QueuedTransactionData) :
  In d (fst (fetchAllQueuedTransactions net safes options s)) ->
  (forall info, safeInfo d = Some info ->
     (1 <= threshold info)%N
     /\ Js.truthy (showConfirmedSigner options)
        || Js.truthy (showPendingSigner options) = true)
  /\ (Js.truthy (showConfirmedSigner options)
      || Js.truthy (showPendingSigner options) = false ->
      safeInfo d = None).
Proof.
  intros Hd. pose proof (fetchAll_wellFormed net safes options s) as Hall.
  rewrite Forall_forall in Hall.
  destruct (Hall d Hd) as (_ & _ & Hinfo & _). split; [exact Hinfo|].
  intros Hoff. destruct (safeInfo d) as [info|]; [|reflexivity].
  destruct (Hinfo info eq_refl) as [_ Hon]. congruence.
Qed.

Lemma safe_info_on_request_witness :
  Forall (fun d => forall info, safeInfo d = Some info -> (1 <= threshold info)%N)
    (fst (fetchAllQueuedTransactions
            (Fixture.answers
               (Some (Fixture.page
                        [Fixture.rawTransaction 15 3 1 [Fixture.bob]]))
               (Some {| data_owners := None; data_threshold := Some 0%N |})
               None)
            [Fixture.treasury] Fixture.allOptions Fixture.start)).
Proof.
  apply Forall_forall. intros d Hd info Hinfo.
  exact (proj1 (proj1 (safe_info_on_request _ _ _ _ d Hd) info Hinfo)).
Defined.

(** X13. A note in the aggregated result is never the empty string, and
    there is one only when [showTxNote] is on: with the option off the
    notes are not asked for and every transaction is without a note. *)
Theorem notes_on_request {W : Type} (net : Net W)
    (safes : list SafeAddress) (options : FormatOptions) (s : W * list Event)
    (d : QueuedTransactionData) (tx : QueuedSafeTransaction) :
  In d (fst (fetchAllQueuedTransactions net safes options s)) ->
  In tx (transactions d) ->
  (forall text, note tx = Some text ->
     text <> "" /\ Js.truthy (showTxNote options) = true)
  /\ (Js.truthy (showTxNote options) = false -> note tx = None).
Proof.
  intros Hd Htx. pose proof (fetchAll_wellFormed net safes options s) as Hall.
  rewrite Forall_forall in Hall.
  destruct (Hall d Hd) as (_ & _ & _ & Htxs).
  rewrite Forall_forall in Htxs. destruct (Htxs tx Htx) as [_ Hnote].
  split.
  - intros text Htext. rewrite Htext in Hnote. exact Hnote.
  - intros Hoff. destruct (note tx) as [text|]; [|reflexivity].
    destruct Hnote as [_ Hon]. congruence.
Qed.

Lemma notes_on_request_witness :
  Forall (fun d => Forall (fun tx => note tx = None) (transactions d))
    (fst (fetchAllQueuedTransactions Fixture.oneQueued [Fixture.treasury]
            Fixture.emptyOptions Fixture.start)).
Proof.
  apply Forall_forall. intros d Hd. apply Forall_forall. intros tx Htx.
  exact (proj2 (notes_on_request Fixture.oneQueued [Fixture.treasury]
                  Fixture.emptyOptions Fixture.start d tx Hd Htx) eq_refl).
Defined.

(** ** Placeholder confirmations *)

Lemma hexAddress_lower (o : string) :
  hexAddress o -> exists r, Js.toLowerCase o = String "0" (String "x" r).
Proof. intros [rest ->]. eexists. reflexivity. Qed.

Lemma placeholder_not_included (n : N) (f : N -> N) (o : string) :
  hexAddress o ->
  Js.includes
    (map (fun c => Js.toLowerCase (owner c))
       (Array_from n (fun i => {| owner := "signed_" ++ Js.show i;
                                  submissionDate := f i;
                                  signature := "";
                                  signatureType := "ETH_SIGN" |})))
    (Js.toLowerCase o) = false.
Proof.
  intros Ho. destruct (hexAddress_lower o Ho) as [r ->].
  unfold Array_from. induction (seq 0 (N.to_nat n)) as [|i l IH]; [reflexivity|].
  simpl. exact IH.
Qed.

Lemma filter_const {A} (p : A -> bool) (l : list A) :
  Forall (fun x => p x = false) l ->
  filter p l = [] /\ filter (fun x => negb (p x)) l = l.
Proof.
  induction 1 as [|x l Hx _ [IH1 IH2]]; simpl; [auto|].
  rewrite Hx. simpl. rewrite IH1, IH2. auto.
Qed.

(** X14. The confirmations of a fetched transaction are placeholders, so
    when the service names no missing signer (the transaction is fully
    signed, or the list came empty) and the owners are addresses
    beginning with [0x], the formatter finds no owner among the signed:
    it reports every owner as not signed. *)
Theorem placeholders_sign_for_nobody {W : Type} (net : Net W)
    (safes : list SafeAddress) (options : FormatOptions) (s : W * list Event)
    (d : QueuedTransactionData) (tx : QueuedSafeTransaction)
    (safeOwners : list string) :
  In d (fst (fetchAllQueuedTransactions net safes options s)) ->
  In tx (transactions d) ->
  missingSigners tx = Some [] ->
  Forall hexAddress safeOwners ->
  signerSets tx safeOwners = ([], safeOwners).
Proof.
  intros Hd Htx Hmiss Howners.
  pose proof (fetchAll_converted net safes options s) as Hall.
  rewrite Forall_forall in Hall. destruct (Hall d Hd) as [_ Htxs].
  rewrite Forall_forall in Htxs.
  destruct (Htxs tx Htx) as (item & tx0 & Hconv & Hret).
  destruct (convertToEnhancedFormat_Some _ _ _ Hconv) as (body & _ & _ & _ & Htx0).
  destruct (retained_counts _ _ Hret) as (_ & _ & Hconfs & _).
  unfold signerSets, hasMissingSigners. rewrite Hmiss. cbn [List.length Nat.ltb Nat.leb].
  rewrite Hconfs, Htx0. cbn [confirmations].
  match goal with |- (filter ?p _, _) = _ =>
    assert (Hp : Forall (fun o => p o = false) safeOwners)
  end.
  { eapply Forall_impl; [|exact Howners]. intros o Ho.
    apply (placeholder_not_included _ (fun _ => timestamp body) o Ho). }
  destruct (filter_const _ _ Hp) as [H1 H2]. rewrite H1, H2. reflexivity.
Qed.

Lemma placeholders_sign_for_nobody_witness :
  let net := Fixture.answers
               (Some (Fixture.page [Fixture.rawTransaction 42 3 3 []]))
               (Some Fixture.threeOwners) None in
  Forall (fun d =>
            Forall (fun tx =>
                      missingSigners tx = Some [] ->
                      signerSets tx [Fixture.alice; Fixture.bob; Fixture.carol]
                      = ([], [Fixture.alice; Fixture.bob; Fixture.carol]))
              (transactions d))
    (fst (fetchAllQueuedTransactions net [Fixture.treasury] Fixture.allOptions
            Fixture.start)).
Proof.
  intros net. apply Forall_forall. intros d Hd.
  apply Forall_forall. intros tx Htx Hmiss.
  apply (placeholders_sign_for_nobody net [Fixture.treasury]
           Fixture.allOptions Fixture.start d tx
           [Fixture.alice; Fixture.bob; Fixture.carol] Hd Htx Hmiss).
  repeat constructor; eexists; reflexivity.
Defined.

(** ** The result of a run *)

Lemma countTransactions_length (data : list QueuedTransactionData) :
  countTransactions data = List.length (flat_map transactions data).
Proof.
  unfold countTransactions.
  assert (H : forall n,
            fold_left (fun sum d => (sum + List.length (transactions d))%nat) data n
            = (n + List.length (flat_map transactions data))%nat).
  { induction data as [|d data IH]; intros n; simpl; [lia|].
    rewrite IH, length_app. lia. }
  apply H.
Qed.

(** X15. In the result of a run [totalTransactions] is the number of
    transactions in [rawData], and it is zero exactly when [rawData] is
    empty; [messages] and [signerSummary] are what [formatTransactionData]
    makes of [rawData]. *)
Theorem result_is_consistent {W : Type} (net : Net W)
    (config : SafeWalletMonitorConfig) (s : W * list Event)
    (r : SafeWalletMonitorResult) :
  fst (monitorSafeWalletQueue net config s) = Returned r ->
  totalTransactions r = List.length (flat_map transactions (rawData r))
  /\ (totalTransactions r = 0%nat <-> rawData r = [])
  /\ (messages r, signerSummary r)
     = formatTransactionData (rawData r) (signers config) (formatOptions config).
Proof.
  intros Hrun.
  destruct (safes config) as [|safe0 rest] eqn:Hs.
  { rewrite (monitor_empty net config s Hs) in Hrun. discriminate. }
  rewrite (monitor_nonempty net config s) in Hrun by (rewrite Hs; discriminate).
  cbn [fst] in Hrun. injection Hrun as <-.
  cbn [totalTransactions rawData messages signerSummary].
  pose proof (fetchAll_converted net (safes config) (formatOptions config) s)
    as Hall.
  set (data := fst (fetchAllQueuedTransactions net (safes config)
                      (formatOptions config) s)) in *.
  rewrite countTransactions_length. split; [reflexivity|]. split.
  - split.
    + destruct data as [|d data']; [reflexivity|].
      inversion Hall as [|? ? [Hne _] _]; subst.
      simpl. rewrite length_app. destruct (transactions d); [contradiction|].
      simpl. lia.
    + intros ->. reflexivity.
  - destruct (formatTransactionData data (signers config) (formatOptions config)).
    reflexivity.
Qed.

Lemma result_is_consistent_witness :
  let run := monitorSafeWalletQueue Fixture.oneQueued
               (Fixture.config Fixture.allOptions []) Fixture.start in
  exists r, fst run = Returned r /\ totalTransactions r = 1%nat
            /\ totalTransactions r
               = List.length (flat_map transactions (rawData r)).
Proof.
  intros run. eexists. split; [reflexivity|]. split; [reflexivity|].
  refine (proj1 (result_is_consistent Fixture.oneQueued
                   (Fixture.config Fixture.allOptions []) Fixture.start _ _)).
  reflexivity.
Defined.

(** ** The messages *)

Lemma formatTransactionData_fold (data : list QueuedTransactionData)
    (signers : list SignerInfo) (options : FormatOptions)
    (acc : list string * Summary) :
  fold_left
    (fun (acc : list string * Summary) (d : QueuedTransactionData) =>
       ((fst acc
         ++ map (fun tx =>
                   formatTransactionMessage tx (qd_chain d)
                     (option_map owners (safeInfo d)) signers options)
              (transactions d)
         ++ [(iconLink ++ " Safe URL: " ++ safeUrl d ++ nl)%string])%list,
        countMissing (snd acc) (transactions d))) data acc
  = ((fst acc ++ flat_map (block signers options) data)%list,
     fold_left (fun summary d => countMissing summary (transactions d)) data
       (snd acc)).
Proof.
  revert acc. induction data as [|d data IH]; intros acc; simpl.
  - rewrite app_nil_r. destruct acc; reflexivity.
  - rewrite IH. cbn [fst snd]. unfold block at 2. rewrite <- !app_assoc.
    reflexivity.
Qed.

(** X16. The messages are, in this order: for each wallet of the data
    the message of each of its transactions and then the line with its
    URL; one line for each key of the signer summary; a last message of
    two line feeds.  So there are as many messages as transactions,
    wallets and summary keys together, and one more. *)
Theorem messages_layout (data : list QueuedTransactionData)
    (signers : list SignerInfo) (options : FormatOptions) :
  let messages := fst (formatTransactionData data signers options) in
  let summary := snd (formatTransactionData data signers options) in
  messages
  = (flat_map (block signers options) data
     ++ map (summaryLine signers) summary ++ [(nl ++ nl)%string])%list
  /\ List.length messages
     = (List.length (flat_map transactions data) + List.length data
        + List.length summary + 1)%nat.
Proof.
  intros messages summary.
  assert (Hlayout : messages
            = (flat_map (block signers options) data
               ++ map (summaryLine signers) summary ++ [(nl ++ nl)%string])%list).
  { unfold messages, summary, formatTransactionData.
    rewrite formatTransactionData_fold. cbn [fst snd app].
    match goal with |- context [fold_left ?f data []] =>
      destruct (fold_left f data []) as [|kv rest]
    end; cbn [List.length Nat.ltb Nat.leb fst snd map].
    - reflexivity.
    - rewrite <- app_assoc. reflexivity. }
  split; [exact Hlayout|]. rewrite Hlayout.
  rewrite !length_app, length_map. cbn [List.length].
  assert (Hblocks : List.length (flat_map (block signers options) data)
                    = (List.length (flat_map transactions data)
                       + List.length data)%nat).
  { clear. induction data as [|d data IH]; simpl; [reflexivity|].
    rewrite !length_app, IH. unfold block. rewrite length_app, length_map.
    simpl. lia. }
  rewrite Hblocks. lia.
Qed.

(** ** The keys of the signer summary *)

Lemma increment_keys (k : string) (o : Summary) :
  (forall k', In k' (map fst (increment k o)) -> k' = k \/ In k' (map fst o))
  /\ (NoDup (map fst o) -> NoDup (map fst (increment k o)))
  /\ sumCounts (increment k o) = (sumCounts o + 1)%N.
Proof.
  induction o as [|[k0 n] o (IH1 & IH2 & IH3)]; simpl.
  - repeat split.
    + intros k' [<- | []]. left. reflexivity.
    + intros _. repeat constructor. intros [].
  - destruct (String.eqb_spec k0 k) as [-> | Hne]; simpl.
    + repeat split; [auto | auto | lia].
    + repeat split.
      * intros k' [<- | Hin]; [right; left; reflexivity|].
        destruct (IH1 k' Hin); auto.
      * intros H. inversion H as [|x xs Hx Hxs]; subst.
        constructor; [|auto]. intros Hin.
        destruct (IH1 _ Hin) as [-> | Hin']; contradiction.
      * rewrite IH3. lia.
Qed.

Lemma tally_invariant (l : list string) (o : Summary) (n : nat) :
  summaryInvariant n o -> summaryInvariant (n + List.length l) (tally l o).
Proof.
  unfold tally. revert o n. induction l as [|a l IH]; intros o n Ho; simpl.
  - rewrite Nat.add_0_r. exact Ho.
  - replace (n + S (List.length l))%nat with (S n + List.length l)%nat by lia.
    apply IH. destruct Ho as (Hnd & Hlow & Hsum).
    destruct (increment_keys (Js.toLowerCase a) o) as (Hk & Hn & Hs).
    repeat split.
    + apply Hn, Hnd.
    + apply Forall_forall. intros k' Hin.
      destruct (Hk k' Hin) as [-> | Hold].
      * apply toLowerCase_idempotent.
      * rewrite Forall_forall in Hlow. apply Hlow, Hold.
    + rewrite Hs, Hsum. lia.
Qed.

Lemma countMissing_invariant (txs : list QueuedSafeTransaction) (o : Summary)
    (n : nat) :
  summaryInvariant n o ->
  summaryInvariant (n + List.length (flat_map missingOf txs)) (countMissing o txs).
Proof.
  unfold countMissing. revert o n.
  induction txs as [|tx txs IH]; intros o n Ho; simpl.
  - rewrite Nat.add_0_r. exact Ho.
  - rewrite length_app, Nat.add_assoc. apply IH.
    pose proof (tally_invariant (missingOf tx) o n Ho) as Ht.
    unfold tally, missingOf in Ht |- *.
    destruct (missingSigners tx); exact Ht.
Qed.

Lemma increment_key_set (k : string) (o : Summary) (k' : string) :
  In k' (map fst (increment k o)) <-> k' = k \/ In k' (map fst o).
Proof.
  split; [apply increment_keys|].
  induction o as [|[k0 n] o IH]; simpl.
  - intros [-> | []]. left. reflexivity.
  - destruct (String.eqb_spec k0 k) as [-> | Hne]; simpl.
    + intros [-> | [<- | Hin]]; auto.
    + intros [-> | [<- | Hin]]; auto.
Qed.

Lemma tally_key_set (l : list string) (o : Summary) (k' : string) :
  In k' (map fst (tally l o))
  <-> In k' (map Js.toLowerCase l) \/ In k' (map fst o).
Proof.
  unfold tally. revert o. induction l as [|a l IH]; intros o; simpl.
  - tauto.
  - rewrite IH, increment_key_set. intuition congruence.
Qed.

Lemma countMissing_key_set (txs : list QueuedSafeTransaction) (o : Summary)
    (k' : string) :
  In k' (map fst (countMissing o txs))
  <-> In k' (map Js.toLowerCase (flat_map missingOf txs)) \/ In k' (map fst o).
Proof.
  unfold countMissing. revert o. induction txs as [|tx txs IH]; intros o; simpl.
  - tauto.
  - rewrite IH, map_app, in_app_iff.
    pose proof (tally_key_set (missingOf tx) o k') as Ht.
    unfold tally, missingOf in Ht |- *.
    destruct (missingSigners tx); simpl in Ht |- *; tauto.
Qed.

Lemma summary_key_set (data : list QueuedTransactionData) (o : Summary)
    (k' : string) :
  In k' (map fst
           (fold_left (fun summary d => countMissing summary (transactions d))
              data o))
  <-> In k' (allMissing data) \/ In k' (map fst o).
Proof.
  unfold allMissing. revert o. induction data as [|d data IH]; intros o; simpl.
  - tauto.
  - rewrite IH, countMissing_key_set, flat_map_app, map_app, in_app_iff. tauto.
Qed.

(** X17. When no entry of a [missingSigners] list is, up to case, the
    name of a property every object inherits ([__proto__],
    [constructor]), the keys of the signer summary are distinct, they
    are exactly the case-normalised entries of the [missingSigners]
    lists, and the counts add up to the number of these entries: every
    entry is counted once, under one key. *)
Theorem summary_keys (data : list QueuedTransactionData)
    (signers : list SignerInfo) (options : FormatOptions) :
  Forall plainKey (allMissing data) ->
  let summary := snd (formatTransactionData data signers options) in
  NoDup (map fst summary)
  /\ (forall k, In k (map fst summary) <-> In k (allMissing data))
  /\ sumCounts summary = N.of_nat (List.length (allMissing data)).
Proof.
  intros _ summary. unfold summary. rewrite formatTransactionData_summary.
  assert (H : forall o n,
            summaryInvariant n o ->
            summaryInvariant
              (n + List.length (flat_map missingOf (flat_map transactions data)))
              (fold_left (fun summary d => countMissing summary (transactions d))
                 data o)).
  { induction data as [|d data IH]; intros o n Ho; simpl.
    - rewrite Nat.add_0_r. exact Ho.
    - rewrite flat_map_app, length_app, Nat.add_assoc.
      apply IH, countMissing_invariant, Ho. }
  specialize (H [] 0%nat). unfold allMissing at 2. rewrite length_map.
  destruct H as (Hnd & _ & Hsum); [repeat split; constructor|].
  split; [exact Hnd|]. split; [|exact Hsum].
  intros k. rewrite summary_key_set. simpl. tauto.
Qed.

Lemma summary_keys_witness :
  let summary := snd (formatTransactionData Fixture.twiceMissing []
                        Fixture.emptyOptions) in
  allMissing Fixture.twiceMissing = ["0xab"; "0xab"]
  /\ map fst summary = ["0xab"]
  /\ sumCounts summary = 2%N.
Proof.
  intros summary. split; [reflexivity|]. split; [reflexivity|].
  refine (proj2 (proj2 (summary_keys Fixture.twiceMissing []
                          Fixture.emptyOptions _))).
  repeat constructor; discriminate.
Defined.

(** ** What is sent, and in which order *)

Section Sent.

Context {W : Type} (net : Net W).

Lemma request_trace {A} (f : W -> A * W) (e : Event) (s : W * list Event) :
  snd (snd (request f e s)) = (snd s ++ [e])%list.
Proof. unfold request. destruct (f (fst s)). reflexivity. Qed.

Lemma fetchQueuedTransactions_trace (address : string) (chainKey : ChainName)
    (s : W * list Event) :
  snd (snd (fetchQueuedTransactions net address chainKey s))
  = (snd s ++ [Get (queuedUrl address chainKey)])%list.
Proof.
  unfold fetchQueuedTransactions, bind, request.
  destruct (get_queued net _ (fst s)) as [[data|] w']; reflexivity.
Qed.

Lemma fetchSafeInfo_trace (address : string) (chainKey : ChainName)
    (s : W * list Event) :
  snd (snd (fetchSafeInfo net address chainKey s))
  = (snd s ++ [Get (safeInfoUrl address chainKey)])%list.
Proof.
  unfold fetchSafeInfo, bind, request.
  destruct (get_safe net _ (fst s)) as [[data|] w']; reflexivity.
Qed.

Lemma fetchTransactionDetails_trace (transactionId : string)
    (chainKey : ChainName) (s : W * list Event) :
  snd (snd (fetchTransactionDetails net transactionId chainKey s))
  = (snd s ++ [Get (detailsUrl transactionId chainKey)])%list.
Proof.
  unfold fetchTransactionDetails, bind, request.
  destruct (get_details net _ (fst s)) as [[data|] w']; reflexivity.
Qed.

Lemma attachNotes_trace (chainKey : ChainName) (txs : list QueuedSafeTransaction)
    (s : W * list Event) :
  snd (snd (attachNotes net chainKey txs s))
  = (snd s ++ map (fun tx => Get (detailsUrl (id tx) chainKey)) txs)%list.
Proof.
  revert s. induction txs as [|tx rest IH]; intros s; simpl.
  - rewrite app_nil_r. reflexivity.
  - unfold bind.
    pose proof (fetchTransactionDetails_trace (id tx) chainKey s) as Hd.
    destruct (fetchTransactionDetails net (id tx) chainKey s) as [d s1].
    specialize (IH s1).
    destruct (attachNotes net chainKey rest s1) as [rest' s2].
    cbn [snd ret] in *. rewrite IH, Hd, <- app_assoc. reflexivity.
Qed.

End Sent.

(** X18. The requests for one wallet are, in this order: the one for
    its queued transactions; the one for its owners when a signer option
    is on, also when no transaction turns out to be queued; and, when
    [showTxNote] is on, one for the note of each queued transaction, in
    their order.  Nothing else is sent. *)
Theorem requests_of_a_wallet {W : Type} (net : Net W) (options : FormatOptions)
    (chainKey : ChainName) (results : list QueuedTransactionData)
    (address : string) (s : W * list Event) :
  snd (snd (processSafe net options chainKey results address s))
  = (snd s
     ++ walletRequests options chainKey address
          (fst (fetchQueuedTransactions net address chainKey s)))%list.
Proof.
  rewrite processSafe_exact. unfold walletRequests.
  pose proof (fetchQueuedTransactions_trace net address chainKey s) as Hq.
  destruct (fetchQueuedTransactions net address chainKey s) as [txs s1].
  cbn [fst snd] in *.
  set (flags := Js.truthy (showConfirmedSigner options)
                || Js.truthy (showPendingSigner options)).
  assert (Hi : snd (snd (if flags then fetchSafeInfo net address chainKey s1
                         else (None, s1)))
               = (snd s ++ Get (queuedUrl address chainKey)
                  :: (if flags then [Get (safeInfoUrl address chainKey)] else []))%list).
  { destruct flags.
    - rewrite fetchSafeInfo_trace, Hq, <- app_assoc. reflexivity.
    - cbn [snd]. rewrite Hq. reflexivity. }
  destruct txs as [|tx rest].
  - cbn [snd]. rewrite Hi. destruct (Js.truthy (showTxNote options));
      cbn [map]; rewrite app_nil_r; reflexivity.
  - cbn [snd]. destruct (Js.truthy (showTxNote options)).
    + rewrite attachNotes_trace, Hi, <- app_assoc. reflexivity.
    + cbn [snd]. rewrite Hi, app_nil_r. reflexivity.
Qed.

(** X19. A disabled channel does nothing: it sends nothing, changes
    nothing and reports no failure. *)
Theorem disabled_channel_is_silent {W : Type} (net : Net W)
    (config : NotificationConfig) (message : string) (s : W * list Event) :
  enabled config = false ->
  sendOne net config message s = (Returned tt, s).
Proof.
  destruct config; cbn [enabled sendOne]; intros ->; reflexivity.
Qed.

Lemma disabled_channel_is_silent_witness :
  sendOne (Fixture.answers None None None)
    (WebhookNotificationConfig false "https://example.org/hook" None) "text"
    Fixture.start
  = (Returned tt, Fixture.start).
Proof. apply disabled_channel_is_silent. reflexivity. Defined.

(** X20. An enabled chat-bot channel without a bot token or without a
    chat id fails with a NotificationError before any request: nothing
    is posted. *)
Theorem telegram_needs_credentials {W : Type} (net : Net W)
    (botToken chatId : string) (disableNotification : option bool)
    (parseMode : option ParseMode) (message : string) (s : W * list Event) :
  botToken = "" \/ chatId = "" ->
  exists text,
    sendOne net
      (TelegramNotificationConfig true botToken chatId disableNotification
         parseMode) message s
    = (Thrown (NotificationError text), s).
Proof.
  intros Hmissing. cbn [sendOne]. unfold sendTelegramNotification. cbn [negb].
  destruct botToken as [|c botToken]; [eexists; reflexivity|].
  destruct Hmissing as [Hb | ->]; [discriminate|]. eexists. reflexivity.
Qed.

Lemma telegram_needs_credentials_witness :
  exists text,
    sendOne (Fixture.answers None None None)
      (TelegramNotificationConfig true "" "1234" None None) "text" Fixture.start
    = (Thrown (NotificationError text), Fixture.start).
Proof. apply telegram_needs_credentials. left. reflexivity. Defined.

Section Deliveries.

Context {W : Type} (net : Net W).

Lemma sendOne_trace (config : NotificationConfig) (message : string)
    (s : W * list Event) :
  snd (snd (sendOne net config message s))
  = (snd s ++ deliveryOf config message)%list.
Proof.
  destruct config as [e colored | e botToken chatId dn pm | e url headers];
    cbn [sendOne deliveryOf];
    unfold sendConsoleNotification, sendTelegramNotification,
      sendWebhookNotification;
    destruct e; cbn [negb]; try (symmetry; apply app_nil_r).
  - destruct colored as [[|]|]; reflexivity.
  - destruct (Js.nonEmpty botToken); cbn [negb andb];
      [|symmetry; apply app_nil_r].
    destruct (Js.nonEmpty chatId); cbn [negb];
      [|symmetry; apply app_nil_r].
    unfold bind, request. destruct (post net _ _ (fst s)) as [[|] w']; reflexivity.
  - unfold bind, request. destruct (post net _ _ (fst s)) as [[|] w']; reflexivity.
Qed.

Lemma sendNotifications_exact (configs : list NotificationConfig)
    (message : string) (s : W * list Event) :
  snd (snd (sendNotifications net configs message s))
  = (snd s ++ Dispatch configs message
     :: flat_map (fun c => deliveryOf c message) configs)%list
  /\ (List.length (fst (sendNotifications net configs message s))
      <= List.length configs)%nat.
Proof.
  unfold sendNotifications.
  match goal with |- context [forEach ?f configs []] => set (body := f) end.
  set (s1 := (fst s, (snd s ++ [Dispatch configs message])%list)).
  change (snd (snd (forEach body configs [] s1))
          = (snd s ++ Dispatch configs message
             :: flat_map (fun c => deliveryOf c message) configs)%list
          /\ (List.length (fst (forEach body configs [] s1))
              <= List.length configs)%nat).
  assert (H : forall l errors s0,
            snd (snd (forEach body l errors s0))
            = (snd s0 ++ flat_map (fun c => deliveryOf c message) l)%list
            /\ (List.length (fst (forEach body l errors s0))
                <= List.length errors + List.length l)%nat).
  { induction l as [|c l IH]; intros errors s0; simpl.
    - rewrite app_nil_r. split; [reflexivity | lia].
    - assert (Hstep :
        (b' <- body errors c ;; forEach body l b') s0
        = forEach body l
            (match fst (sendOne net c message s0) with
             | Returned _ => errors
             | Thrown e => (errors ++ [e])%list
             end)
            (snd (sendOne net c message s0))).
      { unfold bind, body, bind.
        destruct (sendOne net c message s0) as [[u | e] s2]; reflexivity. }
      rewrite Hstep.
      match goal with |- context [forEach body l ?e0 ?s2] =>
        destruct (IH e0 s2) as [I1 I2]
      end.
      rewrite I1, sendOne_trace, <- app_assoc. split; [reflexivity|].
      destruct (fst (sendOne net c message s0));
        [lia | rewrite length_app in I2; simpl in I2; lia]. }
  destruct (H configs [] s1) as [H1 H2]. split.
  - rewrite H1. unfold s1. cbn [snd]. rewrite <- app_assoc. reflexivity.
  - simpl in H2. exact H2.
Qed.

End Deliveries.

(** X21. The dispatcher records its call and then sends, in the order
    of the list, what each channel has to send: one channel's failure,
    be it a missing credential or a rejected request, takes nothing from
    the others.  It reports at most one failure a channel. *)
Theorem channels_are_independent {W : Type} (net : Net W)
    (configs : list NotificationConfig) (message : string)
    (s : W * list Event) :
  snd (snd (sendNotifications net configs message s))
  = (snd s ++ Dispatch configs message
     :: flat_map (fun c => deliveryOf c message) configs)%list
  /\ (List.length (fst (sendNotifications net configs message s))
      <= List.length configs)%nat.
Proof. apply sendNotifications_exact. Qed.

(** X22. The trace of a run that starts with an empty one is the GET
    requests of the aggregation, then, when there is a transaction and a
    channel, the one call of the dispatcher followed by the deliveries
    of the channels in their order; no request follows the call. *)
Theorem run_trace_order {W : Type} (net : Net W)
    (config : SafeWalletMonitorConfig) (w w' : W)
    (r : SafeWalletMonitorResult) (tr : list Event) :
  monitorSafeWalletQueue net config (w, []) = (Returned r, (w', tr)) ->
  exists gets,
    Forall (fun e => isGet e = true) gets
    /\ tr = (gets
             ++ if (0 <? totalTransactions r)%nat
                   && (0 <? List.length (notifications config))%nat
                then Dispatch (notifications config) (Js.join nl (messages r))
                     :: flat_map (fun c => deliveryOf c (Js.join nl (messages r)))
                          (notifications config)
                else [])%list.
Proof.
  intros Hrun.
  destruct (safes config) as [|safe0 rest] eqn:Hs.
  { rewrite (monitor_empty net config _ Hs) in Hrun. discriminate. }
  rewrite (monitor_nonempty net config (w, [])) in Hrun
    by (rewrite Hs; discriminate).
  rewrite Hs in Hrun.
  destruct (fetchAll_emits net (safe0 :: rest) (formatOptions config) (w, []))
    as (gets & Hgets & Hall).
  destruct (fetchAllQueuedTransactions net (safe0 :: rest) (formatOptions config)
              (w, [])) as [data s1].
  cbn [fst snd] in Hrun, Hgets. cbn [app] in Hgets.
  exists gets. split; [exact Hall|].
  injection Hrun as Hr Hst. subst r. cbn [totalTransactions messages].
  unfold sends in Hst. apply (f_equal snd) in Hst. cbn [snd] in Hst.
  destruct ((0 <? countTransactions data)%nat
            && (0 <? List.length (notifications config))%nat).
  - rewrite (proj1 (sendNotifications_exact net _ _ s1)), Hgets in Hst.
    symmetry. exact Hst.
  - rewrite Hgets in Hst. rewrite app_nil_r. symmetry. exact Hst.
Qed.

Lemma run_trace_order_witness :
  let config := Fixture.config Fixture.allOptions
                  [ConsoleNotificationConfig true (Some false)] in
  let run := monitorSafeWalletQueue Fixture.oneQueued config Fixture.start in
  exists gets rest,
    snd (snd run) = (gets ++ rest)%list
    /\ Forall (fun e => isGet e = true) gets.
Proof.
  intros config run.
  destruct (run_trace_order Fixture.oneQueued config tt (fst (snd run))
              (match fst run with
               | Returned r => r
               | Thrown _ =>
                   {| totalTransactions := 0; messages := [];
                      signerSummary := []; rawData := [] |}
               end)
              (snd (snd run))) as (gets & Hgets & Htr); [vm_compute; reflexivity|].
  exists gets. eexists. split; [exact Htr | exact Hgets].
Defined.

(** ** The headers of a webhook request *)

Lemma getProperty_setProperty {A} (k k' : string) (v : A)
    (o : list (string * A)) :
  getProperty k' (setProperty k v o)
  = if String.eqb k k' then Some v else getProperty k' o.
Proof.
  induction o as [|[k0 v0] o IH]; simpl.
  - reflexivity.
  - destruct (String.eqb_spec k0 k) as [-> | Hne]; simpl.
    + destruct (String.eqb k k'); reflexivity.
    + rewrite IH. destruct (String.eqb_spec k0 k') as [-> | Hne'];
        [|reflexivity].
      destruct (String.eqb_spec k k'); [congruence | reflexivity].
Qed.

Lemma setProperty_keys {A} (k : string) (v : A) (o : list (string * A)) :
  NoDup (map fst o) ->
  NoDup (map fst (setProperty k v o))
  /\ forall k', In k' (map fst (setProperty k v o)) <-> k' = k \/ In k' (map fst o).
Proof.
  induction o as [|[k0 v0] o IH]; simpl; intros Hnd.
  - split; [repeat constructor; intros [] | intros k'; intuition congruence].
  - inversion Hnd as [|x xs Hx Hxs]; subst.
    destruct (String.eqb_spec k0 k) as [-> | Hne]; simpl.
    + split; [assumption | intros k'; intuition congruence].
    + destruct (IH Hxs) as [IH1 IH2]. split.
      * constructor; [|assumption]. rewrite IH2. intros [Heq | Hin]; auto.
      * intros k'. rewrite IH2. intuition congruence.
Qed.

Lemma getProperty_last {A} (k k0 : string) (v0 : A) (r : list (string * A))
    (d : option A) :
  match getProperty k (r ++ [(k0, v0)])%list with
  | Some v => Some v
  | None => d
  end
  = match getProperty k r with
    | Some v => Some v
    | None => if String.eqb k0 k then Some v0 else d
    end.
Proof.
  induction r as [|[k1 v1] r IH]; simpl.
  - destruct (String.eqb k0 k); reflexivity.
  - destruct (String.eqb k1 k); [reflexivity | exact IH].
Qed.

Lemma setProperties_spec {A} (h o : list (string * A)) :
  NoDup (map fst o) ->
  NoDup (map fst (fold_left (fun o kv => setProperty (fst kv) (snd kv) o) h o))
  /\ forall k,
       getProperty k (fold_left (fun o kv => setProperty (fst kv) (snd kv) o) h o)
       = match getProperty k (rev h) with
         | Some v => Some v
         | None => getProperty k o
         end.
Proof.
  revert o. induction h as [|[k0 v0] h IH]; intros o Ho; simpl.
  - auto.
  - destruct (IH (setProperty k0 v0 o)) as [IH1 IH2].
    { apply setProperty_keys, Ho. }
    split; [exact IH1|]. intros k.
    rewrite IH2, getProperty_setProperty, getProperty_last. reflexivity.
Qed.

(** X23. A webhook request always carries a [Content-Type] header, and
    no header twice.  A header of the configuration is carried with its
    value, also [Content-Type], which then replaces [application/json];
    no other header is added. *)
Theorem webhook_request_headers {W : Type} (net : Net W) (url message : string)
    (headers : option (list (string * string))) (s : W * list Event)
    (k : string) :
  let configured := match headers with Some h => h | None => [] end in
  snd (snd (sendOne net (WebhookNotificationConfig true url headers) message s))
  = (snd s ++ [Post url (WebhookMessage message (webhookHeaders headers))])%list
  /\ NoDup (map fst (webhookHeaders headers))
  /\ getProperty k (webhookHeaders headers)
     = match getProperty k (rev configured) with
       | Some v => Some v
       | None =>
           if String.eqb "Content-Type" k then Some "application/json" else None
       end
  /\ getProperty "Content-Type" (webhookHeaders headers) <> None.
Proof.
  intros configured. split; [rewrite sendOne_trace; reflexivity|].
  unfold webhookHeaders. fold configured.
  destruct (setProperties_spec configured [("Content-Type", "application/json")])
    as [H1 H2].
  { repeat constructor. intros []. }
  split; [exact H1|]. split; [apply H2|].
  rewrite H2. destruct (getProperty "Content-Type" (rev configured));
    discriminate.
Qed.

(** ** Colours *)

Lemma replaceAll_absent (pat rep s : string) :
  occurs pat s = false -> replaceAll 0 pat rep s = s.
Proof.
  induction s as [|c s IH]; simpl; [reflexivity|].
  intros H. apply orb_false_iff in H. destruct H as [Hp Ho].
  change (match pat with
          | "" => true
          | String a s1' => if ascii_dec a c then prefix s1' s else false
          end) with (prefix pat (String c s)) in *.
  rewrite Hp, IH by assumption. reflexivity.
Qed.

(** X24. A message that holds none of the four icons the console paints
    is written to the console as it is, also by a coloured channel. *)
Theorem plain_message_is_unchanged (message : string) :
  (forall icon, In icon paintedIcons -> occurs icon message = false) ->
  coloredMessage message = message.
Proof.
  intros H. unfold coloredMessage, paint.
  do 4 (match goal with |- context [replaceAll 0 ?p ?r message] =>
          rewrite (replaceAll_absent p r message)
            by (apply H; unfold paintedIcons; simpl; auto 6)
        end).
  reflexivity.
Qed.

Lemma plain_message_is_unchanged_witness :
  coloredMessage "MAINNET - Tx 15 1/3" = "MAINNET - Tx 15 1/3".
Proof.
  apply plain_message_is_unchanged.
  intros icon Hin. unfold paintedIcons in Hin. simpl in Hin.
  destruct Hin as [<- | [<- | [<- | [<- | []]]]]; reflexivity.
Defined.

(** ** The order of the result *)

Lemma subsequence_app {A} (a b c d : list A) :
  subsequence a b -> subsequence c d -> subsequence (a ++ c) (b ++ d).
Proof.
  intros Hab Hcd. induction Hab; simpl; [assumption | |];
    constructor; assumption.
Qed.

Lemma subsequence_length {A} (a b : list A) :
  subsequence a b -> (List.length a <= List.length b)%nat.
Proof. induction 1; simpl; lia. Qed.

Lemma visitOrder_push (acc : list (ChainName * list string)) (c : ChainName)
    (a : string) :
  List.length (flat_map (fun g => map (pair (fst g)) (snd g)) (pushAddress acc c a))
  = S (List.length (flat_map (fun g => map (pair (fst g)) (snd g)) acc)).
Proof.
  induction acc as [|[c' l] acc IH]; simpl; [reflexivity|].
  destruct (ChainName_eqb c' c); simpl.
  - rewrite !length_app, !length_map, length_app. simpl. lia.
  - rewrite !length_app, IH. lia.
Qed.

Lemma visitOrder_length (safes : list SafeAddress) :
  List.length (visitOrder safes) = List.length safes.
Proof.
  unfold visitOrder.
  induction safes as [|x safes IH] using rev_ind; [reflexivity|].
  rewrite safesByChain_snoc, visitOrder_push, IH, length_app. simpl. lia.
Qed.

Section Order.

Context {W : Type} (net : Net W).

Lemma wallets_in_order (options : FormatOptions) (c : ChainName)
    (l : list string) (results : list QueuedTransactionData)
    (s : W * list Event) :
  exists new,
    fst (forEach (processSafe net options c) l results s) = (results ++ new)%list
    /\ subsequence (map (fun d => (qd_chain d, qd_address d)) new)
         (map (pair c) l).
Proof.
  revert results s. induction l as [|a l IH]; intros results s; simpl.
  - exists []. split; [symmetry; apply app_nil_r | constructor].
  - unfold bind.
    destruct (processSafe_cases net options c results a s)
      as [[_ Hsame] | [_ (txs' & _ & Hpush)]];
      destruct (processSafe net options c results a s) as [results' s'];
      cbn [fst] in *; subst results';
      match goal with |- context [forEach _ l ?r s'] =>
        destruct (IH r s') as (new & Hnew & Hsub)
      end.
    + exists new. split; [exact Hnew | apply subsequence_skip; exact Hsub].
    + match type of Hnew with context [(results ++ [?e])%list] =>
        exists (e :: new)
      end. split.
      * rewrite Hnew, <- app_assoc. reflexivity.
      * simpl. apply subsequence_keep. exact Hsub.
Qed.

Lemma chains_in_order (options : FormatOptions)
    (groups : list (ChainName * list string))
    (results : list QueuedTransactionData) (s : W * list Event) :
  exists new,
    fst (forEach (fun results entry =>
                    forEach (processSafe net options (fst entry)) (snd entry)
                      results) groups results s)
    = (results ++ new)%list
    /\ subsequence (map (fun d => (qd_chain d, qd_address d)) new)
         (flat_map (fun g => map (pair (fst g)) (snd g)) groups).
Proof.
  revert results s. induction groups as [|[c l] groups IH]; intros results s;
    simpl.
  - exists []. split; [symmetry; apply app_nil_r | constructor].
  - unfold bind.
    destruct (wallets_in_order options c l results s) as (new1 & H1 & Hs1).
    destruct (forEach (processSafe net options c) l results s) as [results' s'].
    cbn [fst] in H1. subst results'.
    destruct (IH (results ++ new1)%list s') as (new2 & H2 & Hs2).
    exists (new1 ++ new2)%list. split.
    + rewrite H2, <- app_assoc. reflexivity.
    + rewrite map_app. apply subsequence_app; assumption.
Qed.

End Order.

(** X25. The entries of the aggregated result come in the order in
    which the wallets are visited, chain by chain in the order the
    chains first appear in the configuration and, within a chain, in the
    order of the configuration; a wallet gives at most one entry each
    time it is listed, so there are no more entries than configured
    wallets. *)
Theorem results_follow_visit_order {W : Type} (net : Net W)
    (safes : list SafeAddress) (options : FormatOptions) (s : W * list Event) :
  subsequence
    (map (fun d => (qd_chain d, qd_address d))
       (fst (fetchAllQueuedTransactions net safes options s)))
    (visitOrder safes)
  /\ (List.length (fst (fetchAllQueuedTransactions net safes options s))
      <= List.length safes)%nat.
Proof.
  unfold fetchAllQueuedTransactions.
  destruct (chains_in_order net options (safesByChain safes) [] s)
    as (new & Hnew & Hsub).
  rewrite Hnew. cbn [app]. split; [exact Hsub|].
  apply subsequence_length in Hsub.
  rewrite length_map in Hsub. fold (visitOrder safes) in Hsub.
  rewrite visitOrder_length in Hsub. exact Hsub.
Qed.

(** ** The tables of the chains *)

(** X26. The tables keyed by chain tell the chains apart: two chains
    never share a chain id, a service URL, an icon or an upper-case
    name.  Every chain has an icon of its own, so the fallback icon for
    an unknown chain is never written. *)
Theorem chain_tables_are_injective (c c' : ChainName) :
  (chainIds c = chainIds c' -> c = c')
  /\ (SAFE_API_URLS c = SAFE_API_URLS c' -> c = c')
  /\ (getChainIcon c = getChainIcon c' -> c = c')
  /\ (Js.toUpperCase (chainString c) = Js.toUpperCase (chainString c') -> c = c')
  /\ getChainIcon c = chainIcons c /\ getChainIcon c <> iconUnknown.
Proof.
  destruct c, c'; repeat split; intros H; try reflexivity;
    try discriminate H; vm_compute in H; discriminate H.
Qed.

(** ** The command line *)

(** X27. The display flags of the command line work one way only.  The
    signed line and the status icon are on when their flag is given or
    the configuration has them on; the unsigned line, the chain icon and
    the notes are on only when the configuration has them on and their
    hide flag is not given.  So when the format options of the
    configuration leave the unsigned line, the chain icon and the notes
    out, no flag switches them on. *)
Theorem display_flags_are_one_way (options : DisplayFlags)
    (formatOptions : FormatOptions) :
  let merged := updateFormatOptions options formatOptions in
  Js.truthy (showConfirmedSigner merged)
  = Js.truthy (showConfirmed options)
    || Js.truthy (showConfirmedSigner formatOptions)
  /\ Js.truthy (showStatusIcon merged)
     = Js.truthy (showStatusIcons options)
       || Js.truthy (showStatusIcon formatOptions)
  /\ Js.truthy (showPendingSigner merged)
     = negb (Js.truthy (hidePending options))
       && Js.truthy (showPendingSigner formatOptions)
  /\ Js.truthy (showChainIcon merged)
     = negb (Js.truthy (hideChainIcons options))
       && Js.truthy (showChainIcon formatOptions)
  /\ Js.truthy (showTxNote merged)
     = negb (Js.truthy (hideTxNotes options))
       && Js.truthy (showTxNote formatOptions)
  /\ (showPendingSigner formatOptions = None ->
      showChainIcon formatOptions = None ->
      showTxNote formatOptions = None ->
      Js.truthy (showPendingSigner merged) = false
      /\ Js.truthy (showChainIcon merged) = false
      /\ Js.truthy (showTxNote merged) = false).
Proof.
  intros merged. unfold merged, updateFormatOptions, jsOr, jsNotAnd.
  cbn [showConfirmedSigner showPendingSigner showStatusIcon showChainIcon
       showTxNote].
  repeat split.
  - destruct (showConfirmed options) as [[|]|]; reflexivity.
  - destruct (showStatusIcons options) as [[|]|]; reflexivity.
  - destruct (hidePending options) as [[|]|]; reflexivity.
  - destruct (hideChainIcons options) as [[|]|]; reflexivity.
  - destruct (hideTxNotes options) as [[|]|]; reflexivity.
  - rewrite H. destruct (hidePending options) as [[|]|]; reflexivity.
  - rewrite H0. destruct (hideChainIcons options) as [[|]|]; reflexivity.
  - rewrite H1. destruct (hideTxNotes options) as [[|]|]; reflexivity.
Qed.

Lemma trimStart_head (s : string) :
  trimStart s = ""
  \/ exists c r, trimStart s = String c r /\ isWhiteSpace c = false.
Proof.
  induction s as [|c s IH]; simpl; [left; reflexivity|].
  destruct (isWhiteSpace c) eqn:Hc; [exact IH|].
  right. exists c, s. auto.
Qed.

Lemma trimEnd_cons (c : ascii) (r : string) :
  isWhiteSpace c = false -> trimEnd (String c r) = String c (trimEnd r).
Proof. intros Hc. simpl. rewrite Hc. destruct (trimEnd r); reflexivity. Qed.

Lemma trimEnd_idempotent (s : string) : trimEnd (trimEnd s) = trimEnd s.
Proof.
  induction s as [|c s IH]; simpl; [reflexivity|].
  destruct (trimEnd s) as [|c' t] eqn:Ht.
  - destruct (isWhiteSpace c) eqn:Hc; simpl; [reflexivity|].
    rewrite Hc. reflexivity.
  - simpl in IH |- *.
    destruct (match trimEnd t with
              | "" => if isWhiteSpace c' then "" else String c' ""
              | String a s0 => String c' (String a s0)
              end) eqn:Hm; [discriminate IH|].
    rewrite IH. reflexivity.
Qed.

Lemma trim_head (s : string) :
  trim s = "" \/ exists c r, trim s = String c r /\ isWhiteSpace c = false.
Proof.
  unfold trim. destruct (trimStart_head s) as [-> | (c & r & -> & Hc)].
  - left. reflexivity.
  - right. rewrite (trimEnd_cons c r Hc). eauto.
Qed.

Lemma trim_idempotent (s : string) : trim (trim s) = trim s.
Proof.
  destruct (trim_head s) as [-> | (c & r & Hs & Hc)]; [reflexivity|].
  unfold trim at 1. rewrite Hs. simpl trimStart. rewrite Hc.
  rewrite <- Hs. unfold trim. apply trimEnd_idempotent.
Qed.

Lemma split_head (sep c : ascii) (r : string) :
  exists p ps,
    split sep (String c r) = p :: ps
    /\ (p = "" \/ exists p', p = String c p').
Proof.
  simpl. destruct (Ascii.eqb c sep).
  - eexists. eexists. split; [reflexivity | left; reflexivity].
  - destruct (split sep r) as [|p ps]; eexists; eexists;
      (split; [reflexivity | right; eexists; reflexivity]).
Qed.

Lemma parseSigner_shape (entry : string) (sg : SignerInfo) :
  parseSigner entry = Some sg ->
  signer_address sg <> ""
  /\ trim (signer_address sg) = signer_address sg
  /\ trim (handle sg) = handle sg.
Proof.
  unfold parseSigner.
  destruct (trim_head entry) as [-> | (c & r & -> & Hc)]; [discriminate|].
  destruct (split_head ":" c r) as (p & ps & -> & Hp).
  destruct ps as [|h ps]; [discriminate|].
  destruct p as [|c0 p0]; [discriminate|]. cbn [Js.nonEmpty andb].
  destruct (Js.nonEmpty h); [|discriminate].
  intros H. injection H as <-. cbn [signer_address handle].
  destruct Hp as [Hp | (p' & Hp)]; [discriminate|]. injection Hp as -> ->.
  repeat split; try apply trim_idempotent.
  unfold trim. simpl trimStart. rewrite Hc, (trimEnd_cons c p' Hc). discriminate.
Qed.

Lemma split_nonempty (sep : ascii) (s : string) : split sep s <> [].
Proof.
  destruct s as [|c r]; [discriminate|].
  destruct (split_head sep c r) as (p & ps & -> & _). discriminate.
Qed.

Lemma mapExit_Forall {A B} (f : A -> option B) (l : list A) (ys : list B)
    (P : B -> Prop) :
  (forall x y, f x = Some y -> P y) ->
  mapExit f l = Some ys ->
  Forall P ys /\ List.length ys = List.length l.
Proof.
  intros Hf. revert ys. induction l as [|x l IH]; intros ys H; simpl in H.
  - injection H as <-. split; [constructor | reflexivity].
  - destruct (f x) as [y|] eqn:Hx; [|discriminate].
    destruct (mapExit f l) as [ys'|]; [|discriminate].
    injection H as <-. destruct (IH ys' eq_refl) as [IH1 IH2].
    split; [constructor; [eapply Hf; eassumption | assumption]|].
    simpl. rewrite IH2. reflexivity.
Qed.

(** X28. When [parseSigners] returns, its list is not empty, with one
    signer for each comma-separated entry, and every signer has a
    non-empty address; address and handle are without white space around
    them.  (A handle can be empty: [a: :b] has the handle of one
    blank.) *)
Theorem parseSigners_shape (signersString : string) (l : list SignerInfo) :
  parseSigners signersString = Some l ->
  l <> []
  /\ List.length l = List.length (split "," signersString)
  /\ Forall (fun sg =>
               signer_address sg <> ""
               /\ trim (signer_address sg) = signer_address sg
               /\ trim (handle sg) = handle sg) l.
Proof.
  unfold parseSigners. intros H.
  destruct (mapExit_Forall parseSigner _ _ _
              (fun x y => parseSigner_shape x y) H) as [Hall Hlen].
  split; [|split; assumption].
  intros ->. simpl in Hlen.
  pose proof (split_nonempty "," signersString) as Hne.
  destruct (split "," signersString); [contradiction | discriminate].
Qed.

Lemma parseSigners_shape_witness :
  parseSigners " 0xAb:alice , 0xCd : bob "
  = Some [{| signer_address := "0xAb"; handle := "alice" |};
          {| signer_address := "0xCd"; handle := "bob" |}]
  /\ parseSigners "0xAb: :x" = Some [{| signer_address := "0xAb"; handle := "" |}]
  /\ parseSigners "" = None
  /\ [{| signer_address := "0xAb"; handle := "" |}] <> [].
Proof.
  split; [reflexivity|]. split; [reflexivity|]. split; [reflexivity|].
  refine (proj1 (parseSigners_shape "0xAb: :x" _ _)). reflexivity.
Defined.

Lemma length_trimStart (s : string) :
  (String.length (trimStart s) <= String.length s)%nat.
Proof.
  induction s as [|c s IH]; simpl; [lia|].
  destruct (isWhiteSpace c); simpl; lia.
Qed.

Lemma length_trimEnd (s : string) :
  (String.length (trimEnd s) <= String.length s)%nat.
Proof.
  induction s as [|c s IH]; simpl; [lia|].
  destruct (trimEnd s); [destruct (isWhiteSpace c)|]; simpl in *; lia.
Qed.

Lemma clean_head (x : string) :
  x <> "" -> trim x = x ->
  exists c r, x = String c r /\ isWhiteSpace c = false /\ trimEnd x = x.
Proof.
  intros Hne Htrim. destruct x as [|c r]; [contradiction|].
  destruct (isWhiteSpace c) eqn:Hc.
  - exfalso. unfold trim in Htrim. simpl trimStart in Htrim. rewrite Hc in Htrim.
    pose proof (length_trimEnd (trimStart r)) as H1.
    pose proof (length_trimStart r) as H2.
    rewrite Htrim in H1. simpl in H1. lia.
  - exists c, r. split; [reflexivity|]. split; [exact Hc|].
    unfold trim in Htrim. simpl trimStart in Htrim. rewrite Hc in Htrim.
    exact Htrim.
Qed.

Lemma trimEnd_append (x h : string) :
  h <> "" -> trimEnd h = h -> trimEnd (x ++ h) = x ++ h.
Proof.
  intros Hne Hh. induction x as [|c x IH]; simpl; [exact Hh|].
  rewrite IH. destruct (x ++ h) eqn:E; [|reflexivity].
  destruct x; simpl in E; [contradiction | discriminate].
Qed.

Lemma split_clean (sep : ascii) (x : string) :
  contains sep x = false -> split sep x = [x].
Proof.
  induction x as [|c x IH]; simpl; [reflexivity|].
  intros H. apply orb_false_iff in H. destruct H as [Hc Hx].
  rewrite Hc, (IH Hx). reflexivity.
Qed.

Lemma split_append (sep : ascii) (x r : string) :
  contains sep x = false ->
  split sep (x ++ String sep r) = x :: split sep r.
Proof.
  induction x as [|c x IH]; simpl.
  - intros _. rewrite Ascii.eqb_refl. reflexivity.
  - intros H. apply orb_false_iff in H. destruct H as [Hc Hx].
    rewrite Hc, (IH Hx). reflexivity.
Qed.

Lemma contains_append (c : ascii) (a b : string) :
  contains c (a ++ b) = contains c a || contains c b.
Proof.
  induction a as [|x a IH]; simpl; [reflexivity|].
  rewrite IH, orb_assoc. reflexivity.
Qed.

Lemma parseSigner_render (sg : SignerInfo) :
  cleanField (signer_address sg) -> cleanField (handle sg) ->
  parseSigner (renderSigner sg) = Some sg
  /\ contains "," (renderSigner sg) = false.
Proof.
  intros (Ha1 & Ha2 & Ha3 & Ha4) (Hh1 & Hh2 & Hh3 & Hh4).
  destruct sg as [a h]. cbn [signer_address handle] in *.
  unfold renderSigner. cbn [signer_address handle].
  destruct (clean_head a Ha1 Ha2) as (c & r & -> & Hc & _).
  destruct (clean_head h Hh1 Hh2) as (c' & r' & -> & Hc' & Hend).
  split.
  - unfold parseSigner.
    assert (Htrim : trim (String c r ++ ":" ++ String c' r')
                    = String c r ++ ":" ++ String c' r').
    { unfold trim.
      assert (Hstart : trimStart (String c r ++ ":" ++ String c' r')
                       = String c r ++ ":" ++ String c' r')
        by (simpl; rewrite Hc; reflexivity).
      rewrite Hstart.
      assert (Hassoc : String c r ++ ":" ++ String c' r'
                       = (String c r ++ ":") ++ String c' r')
        by (symmetry; apply append_assoc).
      rewrite Hassoc.
      apply trimEnd_append; [discriminate | assumption]. }
    rewrite Htrim.
    change (String c r ++ ":" ++ String c' r')
      with (String c r ++ String ":" (String c' r')).
    rewrite (split_append ":" (String c r)) by assumption.
    rewrite (split_clean ":" (String c' r')) by assumption.
    cbn [Js.nonEmpty andb]. rewrite Ha2, Hh2. reflexivity.
  - rewrite !contains_append, Ha3, Hh3. reflexivity.
Qed.

Lemma mapExit_cons {A B} (f : A -> option B) (x : A) (l : list A) (y : B)
    (ys : list B) :
  f x = Some y -> mapExit f l = Some ys -> mapExit f (x :: l) = Some (y :: ys).
Proof. intros Hx Hl. simpl. rewrite Hx, Hl. reflexivity. Qed.

(** X29. [parseSigners] reads back what was written: a non-empty list
    of signers whose addresses and handles are non-empty, without white
    space around them and without comma or colon, written as
    [address:handle] entries joined by commas, parses to that list. *)
Theorem parseSigners_round_trip (signers : list SignerInfo) :
  signers <> [] ->
  Forall (fun sg => cleanField (signer_address sg) /\ cleanField (handle sg))
    signers ->
  parseSigners (Js.join "," (map renderSigner signers)) = Some signers.
Proof.
  unfold parseSigners. intros Hne Hall.
  induction Hall as [|sg rest [Ha Hh] Hrest IH]; [contradiction|].
  destruct (parseSigner_render sg Ha Hh) as [Hparse Hcomma].
  destruct rest as [|sg' rest'].
  - simpl. rewrite (split_clean "," _ Hcomma). simpl. rewrite Hparse. reflexivity.
  - change (Js.join "," (map renderSigner (sg :: sg' :: rest')))
      with (renderSigner sg
            ++ String "," (Js.join "," (map renderSigner (sg' :: rest')))).
    rewrite (split_append "," _ _ Hcomma).
    apply mapExit_cons; [exact Hparse | apply IH; discriminate].
Qed.

Lemma parseSigners_round_trip_witness :
  parseSigners "0xAb:alice,0xCd:bob"
  = Some [{| signer_address := "0xAb"; handle := "alice" |};
          {| signer_address := "0xCd"; handle := "bob" |}].
Proof.
  apply (parseSigners_round_trip
           [{| signer_address := "0xAb"; handle := "alice" |};
            {| signer_address := "0xCd"; handle := "bob" |}]).
  - discriminate.
  - repeat constructor; discriminate.
Defined.
